(** * Octilinear line routing and corner filleting of metromap.io

    A shallow embedding of [src/app/game/pathfinding/LinePath.ts] (the router)
    and of the corner-rounding functions of the rendering deep dive
    ([calculateCornerRadius], [createBendCurve]).

    JavaScript numbers are read as real numbers: [Math.atan2], [Math.hypot],
    [Math.abs] and the comparisons are the mathematical ones, so rounding of
    IEEE doubles is not part of the model.  Station coordinates are grid
    vertices, hence integers ([Z]); every computed coordinate is a real. *)

From Stdlib Require Import Reals Lra Lia ZArith List Bool Psatz Sorted.
Import ListNotations.

Local Open Scope R_scope.

(** ** Numeric primitives of the host language *)

Module JsMath.

(** [Math.atan2 y x] on the reals.  The arguments below are differences of
    integers, so a zero is always [+0] and [atan2 0 0 = 0],
    [atan2 0 x = PI] for a negative [x]. *)
Definition atan2 (y x : R) : R :=
  if Rlt_dec 0 x then atan (y / x)
  else if Rlt_dec x 0 then
         if Rle_dec 0 y then atan (y / x) + PI else atan (y / x) - PI
       else if Rlt_dec 0 y then PI / 2
            else if Rlt_dec y 0 then - (PI / 2)
                 else 0.

(** [Math.hypot a b]. *)
Definition hypot (a b : R) : R := sqrt (a * a + b * b).

End JsMath.

(** ** LinePath.ts *)

Module LinePath.

Import JsMath.

(** Modelled from the spec: the [Station] interface of models/Station.ts,
    which is not among the sources.  The router reads its two coordinates
    only; they are grid vertices, integers (the screens round the pointer
    position before a station is made). *)
Record Station : Set := mkStation { vertexX : Z; vertexY : Z }.

Inductive Direction : Set :=
| EAST | SOUTHEAST | SOUTH | SOUTHWEST | WEST | NORTHWEST | NORTH | NORTHEAST.

(** The numeric value of each member of the enum. *)
Definition degrees (d : Direction) : Z :=
  match d with
  | EAST => 0
  | SOUTHEAST => 45
  | SOUTH => 90
  | SOUTHWEST => 135
  | WEST => 180
  | NORTHWEST => 225
  | NORTH => 270
  | NORTHEAST => 315
  end%Z.

Definition Direction_eq_dec (a b : Direction) : {a = b} + {a <> b}.
Proof. decide equality. Defined.

Record DirectionVector : Set := mkVector { dx : Z; dy : Z }.

Definition DIRECTION_VECTORS (d : Direction) : DirectionVector :=
  match d with
  | EAST => mkVector 1 0
  | SOUTHEAST => mkVector 1 1
  | SOUTH => mkVector 0 1
  | SOUTHWEST => mkVector (-1) 1
  | WEST => mkVector (-1) 0
  | NORTHWEST => mkVector (-1) (-1)
  | NORTH => mkVector 0 (-1)
  | NORTHEAST => mkVector 1 (-1)
  end.

Inductive WaypointType : Set := STATION | BEND.

Record Waypoint : Type := mkWaypoint {
  x : R;
  y : R;
  type : WaypointType;
  incomingAngle : option Direction;
  outgoingAngle : option Direction
}.

Record LineSegment : Type := mkLineSegment {
  fromStation : Station;
  toStation : Station;
  entryAngle : Direction;
  exitAngle : Direction;
  waypoints : list Waypoint
}.

(** *** angleDifference

    The two [while] loops are run with a bound on the number of rounds;
    [loopRounds] is large enough for the loop to reach its exit test
    (lemmas [lowerWhile_exit] and [raiseWhile_exit] below). *)

Fixpoint lowerWhile (rounds : nat) (diff : R) : R :=
  match rounds with
  | O => diff
  | S k => if Rlt_dec 180 diff then lowerWhile k (diff - 360) else diff
  end.

Fixpoint raiseWhile (rounds : nat) (diff : R) : R :=
  match rounds with
  | O => diff
  | S k => if Rlt_dec diff (-180) then raiseWhile k (diff + 360) else diff
  end.

Definition loopRounds (diff : R) : nat := Z.to_nat (up (Rabs diff / 360)).

Definition angleDifference (angle1 angle2 : R) : R :=
  let diff := angle1 - angle2 in
  let diff := lowerWhile (loopRounds diff) diff in
  raiseWhile (loopRounds diff) diff.

(** *** calculateSnapAngle *)

Definition possibleAngles : list Direction :=
  [EAST; SOUTHEAST; SOUTH; SOUTHWEST; WEST; NORTHWEST; NORTH; NORTHEAST].

Definition angleOf (d : Direction) : R := IZR (degrees d).

(** The raw angle in degrees of the vector [(dx, dy)]. *)
Definition rawAngleOf (dx dy : Z) : R := atan2 (IZR dy) (IZR dx) * 180 / PI.

(** One round of the [for] loop: the pair is [(snappedAngle, minDiff)]. *)
Definition snapStep (rawAngle : R) (acc : Direction * R) (angle : Direction)
  : Direction * R :=
  let diff := Rabs (angleDifference rawAngle (angleOf angle)) in
  if Rlt_dec diff (snd acc) then (angle, diff) else acc.

(** The loop of [calculateSnapAngle] from the raw angle on. *)
Definition snapRawAngle (rawAngle : R) : Direction :=
  let snappedAngle := EAST in
  let minDiff := Rabs (angleDifference rawAngle (angleOf EAST)) in
  fst (fold_left (snapStep rawAngle) possibleAngles (snappedAngle, minDiff)).

Definition calculateSnapAngle (from to : Station) : Direction :=
  let dx := (vertexX to - vertexX from)%Z in
  let dy := (vertexY to - vertexY from)%Z in
  let rawAngle := rawAngleOf dx dy in
  snapRawAngle rawAngle.

(** *** solveLineIntersection, calculateOptimalBendPosition *)

Definition solveLineIntersection
  (x1 y1 dx1 dy1 x2 y2 dx2 dy2 : R) : option (R * R) :=
  let denominator := dx1 * dy2 - dy1 * dx2 in
  if Rlt_dec (Rabs denominator) (1 / 10000) then None
  else
    let t1 := ((x2 - x1) * dy2 - (y2 - y1) * dx2) / denominator in
    if Rlt_dec t1 (1 / 2) then None
    else Some (x1 + t1 * dx1, y1 + t1 * dy1).

Definition midpoint (from to : Station) : R * R :=
  ((IZR (vertexX from) + IZR (vertexX to)) / 2,
   (IZR (vertexY from) + IZR (vertexY to)) / 2).

Definition calculateOptimalBendPosition
  (from to : Station) (angle1 angle2 : Direction) : R * R :=
  let dir1 := DIRECTION_VECTORS angle1 in
  let dir2 := DIRECTION_VECTORS angle2 in
  let intersection :=
    solveLineIntersection
      (IZR (vertexX from)) (IZR (vertexY from)) (IZR (dx dir1)) (IZR (dy dir1))
      (IZR (vertexX to)) (IZR (vertexY to))
      (- IZR (dx dir2)) (- IZR (dy dir2)) in
  match intersection with
  | Some (ix, iy) =>
      let distToFrom :=
        hypot (ix - IZR (vertexX from)) (iy - IZR (vertexY from)) in
      let distToTo :=
        hypot (ix - IZR (vertexX to)) (iy - IZR (vertexY to)) in
      let directDist :=
        hypot (IZR (vertexX to) - IZR (vertexX from))
              (IZR (vertexY to) - IZR (vertexY from)) in
      if Rlt_dec (distToFrom + distToTo) (directDist * 2) then (ix, iy)
      else midpoint from to
  | None => midpoint from to
  end.

(** *** generateWaypoints, calculateSegmentPath *)

Definition generateWaypoints
  (from to : Station) (entryAngle targetAngle : Direction) : list Waypoint :=
  let start :=
    mkWaypoint (IZR (vertexX from)) (IZR (vertexY from)) STATION
               None (Some entryAngle) in
  if Direction_eq_dec entryAngle targetAngle then
    [start;
     mkWaypoint (IZR (vertexX to)) (IZR (vertexY to)) STATION
                (Some targetAngle) None]
  else
    let bendPoint := calculateOptimalBendPosition from to entryAngle targetAngle in
    [start;
     mkWaypoint (fst bendPoint) (snd bendPoint) BEND
                (Some entryAngle) (Some targetAngle);
     mkWaypoint (IZR (vertexX to)) (IZR (vertexY to)) STATION
                (Some targetAngle) None].

Definition calculateSegmentPath
  (from to : Station) (previousAngle : option Direction) : LineSegment :=
  let directAngle := calculateSnapAngle from to in
  let entryAngle :=
    match previousAngle with Some a => a | None => directAngle end in
  let waypoints := generateWaypoints from to entryAngle directAngle in
  let exitAngle := directAngle in
  mkLineSegment from to entryAngle exitAngle waypoints.

(** Modelled from the spec: the error [DegenerateInputError] of the
    specification; nothing in the sources declares or raises it. *)
Inductive RouterError : Set := DegenerateInputError.

(** How a call of the router completes.  [calculateSegmentPath] has no
    [throw] statement, the table [DIRECTION_VECTORS] has an entry for every
    member of [Direction], and every numeric operation is defined on all
    numbers: a call always completes by returning. *)
Inductive Completion (A : Type) : Type :=
| Returns (a : A)
| Raises (e : RouterError).
Arguments Returns {A} a.
Arguments Raises {A} e.

Definition routeSegment
  (from to : Station) (entryDirection : option Direction)
  : Completion LineSegment :=
  Returns (calculateSegmentPath from to entryDirection).

End LinePath.

(** ** Corner rounding (rendering deep dive, section 4) *)

Module CornerRounding.

Import JsMath LinePath.

Record BendRenderConfig : Type := mkConfig {
  lineWidth : R;
  cornerRadius : R;
  tightness : R
}.

Record BezierCurve : Type := mkCurve {
  start : R * R;
  control1 : R * R;
  control2 : R * R;
  end_ : R * R
}.

(** [normalizeAngle] of the rendering notes (not the one of LinePath.ts),
    as [createBendArc] applies it to a difference of direction values:
    the remainder has the sign of the dividend. *)
Definition normalizeAngle (angle : Z) : Z :=
  let angle := Z.rem angle 360 in
  let angle := if (180 <? angle)%Z then (angle - 360)%Z else angle in
  if (angle <? -180)%Z then (angle + 360)%Z else angle.

Definition calculateCornerRadius (lineWidth angleDiff : R) : R :=
  let baseRadius := lineWidth * 2 in
  let angleFactor := Rabs angleDiff / 90 in
  baseRadius * (1 + angleFactor * (1 / 2)).

(** The local [radius] of [createBendCurve]: the corner radius for the
    plain difference of the two direction values. *)
Definition bendRadius
  (incomingAngle outgoingAngle : Direction) (config : BendRenderConfig) : R :=
  calculateCornerRadius (lineWidth config)
                        (angleOf outgoingAngle - angleOf incomingAngle).

Definition createBendCurve
  (waypoint : Waypoint) (incomingAngle outgoingAngle : Direction)
  (config : BendRenderConfig) : BezierCurve :=
  let radius := bendRadius incomingAngle outgoingAngle config in
  let inDir := DIRECTION_VECTORS incomingAngle in
  let curveStart :=
    (x waypoint - radius * IZR (dx inDir), y waypoint - radius * IZR (dy inDir)) in
  let outDir := DIRECTION_VECTORS outgoingAngle in
  let curveEnd :=
    (x waypoint + radius * IZR (dx outDir), y waypoint + radius * IZR (dy outDir)) in
  let controlDistance := radius * tightness config in
  let control1 :=
    (fst curveStart + controlDistance * IZR (dx inDir),
     snd curveStart + controlDistance * IZR (dy inDir)) in
  let control2 :=
    (fst curveEnd - controlDistance * IZR (dx outDir),
     snd curveEnd - controlDistance * IZR (dy outDir)) in
  mkCurve curveStart control1 control2 curveEnd.

(** *** buildSVGPath (rendering deep dive, section 5)

    The path string is kept as the list of its drawing commands; the loop
    over the pieces of one segment is the same in [renderLineToCanvas]. *)
Inductive PathCommand : Type :=
| MoveTo (p : R * R)
| LineTo (p : R * R)
| CurveTo (c1 c2 e : R * R).

Definition isBend (w : Waypoint) : bool :=
  match type w with BEND => true | STATION => false end.

(** The commands for the piece from [current] to [next].  The non-null
    assertions on the two angles are not checked at run time: a missing
    angle makes the lookup in [DIRECTION_VECTORS] fail, which is [None]
    here. *)
Definition pieceCommands
  (current next : Waypoint) (config : BendRenderConfig)
  : option (list PathCommand) :=
  if isBend next || isBend current then
    match outgoingAngle current, incomingAngle next with
    | Some currentOutgoing, Some nextIncoming =>
        let curve :=
          createBendCurve (if isBend current then current else next)
                          currentOutgoing nextIncoming config in
        Some [LineTo (start curve);
              CurveTo (control1 curve) (control2 curve) (end_ curve)]
    | _, _ => None
    end
  else Some [LineTo (x next, y next)].

(** The inner loop of [buildSVGPath] over the waypoints of one segment. *)
Fixpoint segmentCommands
  (waypoints : list Waypoint) (config : BendRenderConfig)
  : option (list PathCommand) :=
  match waypoints with
  | current :: ((next :: _) as rest) =>
      match pieceCommands current next config,
            segmentCommands rest config with
      | Some here, Some after => Some (here ++ after)
      | _, _ => None
      end
  | _ => Some []
  end.

End CornerRounding.

(** ** Notions used to state the properties *)

Module Notions.

Import JsMath LinePath CornerRounding.

(** The angular distance the loop of [calculateSnapAngle] compares. *)
Definition wrapDistance (rawAngle : R) (d : Direction) : R :=
  Rabs (angleDifference rawAngle (angleOf d)).

(** [best] is at the least distance among [seen], and has the lowest value
    among those of [seen] at that distance. *)
Definition leastSoFar (rawAngle : R) (best : Direction) (seen : list Direction) :=
  forall d, In d seen ->
    wrapDistance rawAngle best <= wrapDistance rawAngle d /\
    (wrapDistance rawAngle d = wrapDistance rawAngle best ->
     (degrees best <= degrees d)%Z).

(** The direction of an integer vector decided with integer arithmetic:
    [(|dx| + |dy|)^2 < 2 dx^2] says that [|dy|] is below [sqrt 2 - 1]
    (the tangent of 22.5 degrees) times [|dx|].  Lemma
    [calculateSnapAngle_exact] shows that [calculateSnapAngle] computes
    this function. *)
Definition snapVector (dx dy : Z) : Direction :=
  let s := (Z.abs dx + Z.abs dy)%Z in
  if (s * s <? 2 * (dx * dx))%Z then (if (0 <? dx)%Z then EAST else WEST)
  else if (s * s <? 2 * (dy * dy))%Z then (if (0 <? dy)%Z then SOUTH else NORTH)
  else if (0 <? dx)%Z then (if (0 <? dy)%Z then SOUTHEAST else NORTHEAST)
  else if (dx <? 0)%Z then (if (0 <? dy)%Z then SOUTHWEST else NORTHWEST)
  else EAST.

(** The two station waypoints every route starts and ends with. *)
Definition stationStart (from : Station) (outgoing : Direction) : Waypoint :=
  mkWaypoint (IZR (vertexX from)) (IZR (vertexY from)) STATION
             None (Some outgoing).

Definition stationEnd (to : Station) (incoming : Direction) : Waypoint :=
  mkWaypoint (IZR (vertexX to)) (IZR (vertexY to)) STATION
             (Some incoming) None.

(** The turning angle at a waypoint: outgoing minus incoming, normalised by
    [angleDifference]. *)
Definition turningAngle (w : Waypoint) : option R :=
  match incomingAngle w, outgoingAngle w with
  | Some i, Some o => Some (angleDifference (angleOf o) (angleOf i))
  | _, _ => None
  end.

(** The step from [a] to [b] points along [d]: it is a positive multiple of
    the vector of [d]. *)
Definition alongDirection (d : Direction) (a b : Waypoint) : Prop :=
  exists k : R,
    0 < k /\
    x b - x a = k * IZR (dx (DIRECTION_VECTORS d)) /\
    y b - y a = k * IZR (dy (DIRECTION_VECTORS d)).

(** Every two consecutive waypoints are joined along the direction recorded
    as outgoing at the first and incoming at the second. *)
Definition consecutiveColinear (ws : list Waypoint) : Prop :=
  forall (i : nat) (a b : Waypoint),
    nth_error ws i = Some a -> nth_error ws (S i) = Some b ->
    exists d : Direction,
      outgoingAngle a = Some d /\ incomingAngle b = Some d /\
      alongDirection d a b.

(** Two stations on a common row, column or diagonal of the grid. *)
Definition aligned (from to : Station) : Prop :=
  vertexX from = vertexX to \/
  vertexY from = vertexY to \/
  Z.abs (vertexX to - vertexX from) = Z.abs (vertexY to - vertexY from).

Definition translate (s : Station) (vx vy : Z) : Station :=
  mkStation (vertexX s + vx) (vertexY s + vy).

(** *** The knee of a single bend

    The quantities [calculateOptimalBendPosition] and
    [solveLineIntersection] compute on the way, named. *)

(** The [denominator] of [solveLineIntersection] for the forward ray along
    [angle1] and the backward ray against [angle2]. *)
Definition bendDeterminant (angle1 angle2 : Direction) : R :=
  IZR (dx (DIRECTION_VECTORS angle1)) * (- IZR (dy (DIRECTION_VECTORS angle2)))
  - IZR (dy (DIRECTION_VECTORS angle1)) * (- IZR (dx (DIRECTION_VECTORS angle2))).

(** The parameter [t1] of the intersection along the forward ray. *)
Definition forwardParameter (from to : Station) (angle1 angle2 : Direction) : R :=
  ((IZR (vertexX to) - IZR (vertexX from))
     * (- IZR (dy (DIRECTION_VECTORS angle2)))
   - (IZR (vertexY to) - IZR (vertexY from))
     * (- IZR (dx (DIRECTION_VECTORS angle2))))
  / bendDeterminant angle1 angle2.

(** The parameter of the same point along the backward ray from [to]. *)
Definition backwardParameter (from to : Station) (angle1 angle2 : Direction) : R :=
  ((IZR (vertexX to) - IZR (vertexX from))
     * IZR (dy (DIRECTION_VECTORS angle1))
   - (IZR (vertexY to) - IZR (vertexY from))
     * IZR (dx (DIRECTION_VECTORS angle1)))
  / bendDeterminant angle1 angle2.

Definition rayIntersection (from to : Station) (angle1 angle2 : Direction)
  : R * R :=
  (IZR (vertexX from)
   + forwardParameter from to angle1 angle2
     * IZR (dx (DIRECTION_VECTORS angle1)),
   IZR (vertexY from)
   + forwardParameter from to angle1 angle2
     * IZR (dy (DIRECTION_VECTORS angle1))).

(** The point at parameter [t] on the ray from [to] against [angle2]. *)
Definition backwardPoint (to : Station) (angle2 : Direction) (t : R) : R * R :=
  (IZR (vertexX to) - t * IZR (dx (DIRECTION_VECTORS angle2)),
   IZR (vertexY to) - t * IZR (dy (DIRECTION_VECTORS angle2))).

(** [distToFrom + distToTo] for a candidate knee, and [directDist]. *)
Definition detour (from to : Station) (knee : R * R) : R :=
  hypot (fst knee - IZR (vertexX from)) (snd knee - IZR (vertexY from))
  + hypot (fst knee - IZR (vertexX to)) (snd knee - IZR (vertexY to)).

Definition directDistance (from to : Station) : R :=
  hypot (IZR (vertexX to) - IZR (vertexX from))
        (IZR (vertexY to) - IZR (vertexY from)).

(** The three conditions under which the midpoint replaces the
    intersection: parallel rays, a knee within half a unit of [from], a
    detour of more than twice the direct distance. *)
Definition midpointUsed (from to : Station) (angle1 angle2 : Direction) : Prop :=
  Rabs (bendDeterminant angle1 angle2) < 1 / 10000 \/
  forwardParameter from to angle1 angle2 < 1 / 2 \/
  detour from to (rayIntersection from to angle1 angle2)
  > 2 * directDistance from to.

(** *** Corner rounding *)

(** The length of the straight piece that joins two waypoints. *)
Definition pieceLength (a b : Waypoint) : R :=
  hypot (x b - x a) (y b - y a).

(** Half the length of the shorter of the two pieces that meet at the
    knee [k], coming from [a] and going to [b]. *)
Definition halfShorterPiece (a k b : Waypoint) : R :=
  Rmin (pieceLength a k) (pieceLength k b) / 2.

(** The effective radius as the specification words it: the radius scaled
    by the magnitude of the normalised turn, outgoing minus incoming. *)
Definition specEffectiveRadius
  (radius : R) (incoming outgoing : Direction) : R :=
  radius
  * (1 + Rabs (angleDifference (angleOf outgoing) (angleOf incoming)) / 90
         * (1 / 2)).

(** The configuration of the renderer of the notes for a line width of 3:
    [cornerRadius] twice the line width, [tightness] one half. *)
Definition exampleConfig : BendRenderConfig := mkConfig 3 6 (1 / 2).

End Notions.

(** ** The rest of LinePath.ts *)

Module JsNumber.

(** Truncation toward zero, the rounding of the [%] operator. *)
Definition truncate (r : R) : Z := if Rle_dec 0 r then Zfloor r else Zceil r.

(** [a % b] on the reals: the remainder has the sign of the dividend. *)
Definition remainder (a b : R) : R := a - b * IZR (truncate (a / b)).

End JsNumber.

Module LinePathRest.

Import JsMath JsNumber LinePath.

(** [normalizeAngle] of LinePath.ts: into the range from 0 to 360. *)
Definition normalizeAngle (angle : R) : R :=
  let angle := remainder angle 360 in
  if Rlt_dec angle 0 then angle + 360 else angle.

End LinePathRest.

(** ** The rest of the rendering deep dive

    The notes write a station as [{x, y}]; the record of LinePath.ts stands
    for it, [vertexX] for [x] and [vertexY] for [y].  Angles that the notes
    type as numbers are members of [Direction] wherever the notes index the
    table of vectors with them. *)

Module RenderingNotes.

Import JsMath JsNumber LinePath CornerRounding.

(** *** Sections 2 and 3.1: one segment, as the notes write it *)

(** [calculateOptimalBendPosition] of the notes keeps every intersection
    found; the test on the detour is in LinePath.ts only. *)
Definition calculateOptimalBendPosition
  (from to : Station) (angle1 angle2 : Direction) : R * R :=
  let dir1 := DIRECTION_VECTORS angle1 in
  let dir2 := DIRECTION_VECTORS angle2 in
  let intersection :=
    solveLineIntersection
      (IZR (vertexX from)) (IZR (vertexY from)) (IZR (dx dir1)) (IZR (dy dir1))
      (IZR (vertexX to)) (IZR (vertexY to))
      (- IZR (dx dir2)) (- IZR (dy dir2)) in
  match intersection with
  | Some (ix, iy) => (ix, iy)
  | None => midpoint from to
  end.

Definition calculateBendPoints
  (from to : Station) (entryAngle targetAngle : Direction) : list Waypoint :=
  let angleDiff := normalizeAngle (degrees targetAngle - degrees entryAngle) in
  let bendPoint := calculateOptimalBendPosition from to entryAngle targetAngle in
  [mkWaypoint (fst bendPoint) (snd bendPoint) BEND
              (Some entryAngle) (Some targetAngle)].

(** [list[list.length - 1]?.outgoingAngle]. *)
Definition lastOutgoing (bends : list Waypoint) : option Direction :=
  match nth_error bends (length bends - 1) with
  | Some bend => outgoingAngle bend
  | None => None
  end.

Definition generateWaypoints
  (from to : Station) (entryAngle targetAngle : Direction) : list Waypoint :=
  let start :=
    mkWaypoint (IZR (vertexX from)) (IZR (vertexY from)) STATION
               None (Some entryAngle) in
  if Direction_eq_dec entryAngle targetAngle then
    [start;
     mkWaypoint (IZR (vertexX to)) (IZR (vertexY to)) STATION
                (Some targetAngle) None]
  else
    let bends := calculateBendPoints from to entryAngle targetAngle in
    let finalAngle :=
      match lastOutgoing bends with Some a => a | None => targetAngle end in
    (start :: bends)
    ++ [mkWaypoint (IZR (vertexX to)) (IZR (vertexY to)) STATION
                   (Some finalAngle) None].

(** The fourth parameter, [nextSegment], is not read. *)
Definition calculateSegmentPath
  (from to : Station) (previousAngle : option Direction)
  (nextSegment : option Station) : LineSegment :=
  let directAngle := calculateSnapAngle from to in
  let entryAngle :=
    match previousAngle with Some a => a | None => directAngle end in
  let waypoints := generateWaypoints from to entryAngle directAngle in
  let exitAngle :=
    match nth_error waypoints (length waypoints - 2) with
    | Some w =>
        match outgoingAngle w with Some a => a | None => directAngle end
    | None => directAngle
    end in
  mkLineSegment from to entryAngle exitAngle waypoints.

(** *** Section 6: the segments of a line, [MetroLineRenderer.renderLine] *)

Definition toPixels (gridSize : Z) (s : Station) : Station :=
  mkStation (vertexX s * gridSize) (vertexY s * gridSize).

(** The loop over the stations, from the station at hand on, with
    [previousAngle] as it stands. *)
Fixpoint segmentsFrom
  (previousAngle : option Direction) (pixelStations : list Station)
  : list LineSegment :=
  match pixelStations with
  | from :: ((to :: after) as rest) =>
      let nextStation := hd_error after in
      let segment := calculateSegmentPath from to previousAngle nextStation in
      segment :: segmentsFrom (Some (exitAngle segment)) rest
  | _ => []
  end.

(** The segments [renderLine] hands to [renderLineToCanvas]; with fewer
    than two stations it returns before computing any. *)
Definition lineSegments (gridSize : Z) (stations : list Station)
  : list LineSegment :=
  if (length stations <? 2)%nat then []
  else segmentsFrom None (map (toPixels gridSize) stations).

(** *** Section 4.3: circular arcs *)

Record BendArc : Type := mkArc {
  centerX : R;
  centerY : R;
  startAngle : Z;
  endAngle : Z;
  radius : R
}.

(** The entry of [DIRECTION_VECTORS] under a numeric key, if there is
    one. *)
Definition vectorAt (angle : Z) : option DirectionVector :=
  if (angle =? 0)%Z then Some (DIRECTION_VECTORS EAST)
  else if (angle =? 45)%Z then Some (DIRECTION_VECTORS SOUTHEAST)
  else if (angle =? 90)%Z then Some (DIRECTION_VECTORS SOUTH)
  else if (angle =? 135)%Z then Some (DIRECTION_VECTORS SOUTHWEST)
  else if (angle =? 180)%Z then Some (DIRECTION_VECTORS WEST)
  else if (angle =? 225)%Z then Some (DIRECTION_VECTORS NORTHWEST)
  else if (angle =? 270)%Z then Some (DIRECTION_VECTORS NORTH)
  else if (angle =? 315)%Z then Some (DIRECTION_VECTORS NORTHEAST)
  else None.

(** [None] stands for the TypeError of reading [dx] from a missing entry
    of the table. *)
Definition createBendArc
  (waypoint : Waypoint) (incomingAngle outgoingAngle : Direction) (radius : R)
  : option BendArc :=
  let angleDiff := normalizeAngle (degrees outgoingAngle - degrees incomingAngle) in
  let perpAngle :=
    (degrees incomingAngle + (if (0 <? angleDiff)%Z then 90 else -90))%Z in
  match vectorAt perpAngle with
  | Some perpDir =>
      let center :=
        (x waypoint + radius * IZR (dx perpDir),
         y waypoint + radius * IZR (dy perpDir)) in
      let startAngle := (degrees incomingAngle + 180)%Z in
      let endAngle := degrees outgoingAngle in
      Some (mkArc (fst center) (snd center) startAngle endAngle radius)
  | None => None
  end.

(** *** Section 5.1: the whole path *)

(** [None] stands for the TypeError of reading a coordinate or a vector
    that is missing.  [pathPieces] is the loop over the segments without
    the first move. *)
Fixpoint pathPieces
  (segments : list LineSegment) (config : BendRenderConfig)
  : option (list PathCommand) :=
  match segments with
  | [] => Some []
  | segment :: rest =>
      match segmentCommands (waypoints segment) config,
            pathPieces rest config with
      | Some here, Some after => Some (here ++ after)
      | _, _ => None
      end
  end.

Definition buildSVGPath
  (segments : list LineSegment) (config : BendRenderConfig)
  : option (list PathCommand) :=
  match segments with
  | [] => Some []
  | first :: _ =>
      match waypoints first with
      | start :: _ =>
          match pathPieces segments config with
          | Some commands => Some (MoveTo (x start, y start) :: commands)
          | None => None
          end
      | [] => None
      end
  end.

(** *** Section 7: edge cases *)

Definition handleCloseStations
  (from to : Station) (minDistance : R) : list Waypoint :=
  let distance :=
    hypot (IZR (vertexX to) - IZR (vertexX from))
          (IZR (vertexY to) - IZR (vertexY from)) in
  if Rlt_dec distance minDistance then
    [mkWaypoint (IZR (vertexX from)) (IZR (vertexY from)) STATION None None;
     mkWaypoint (IZR (vertexX to)) (IZR (vertexY to)) STATION None None]
  else generateWaypoints from to EAST EAST.

Definition renderThroughStation
  (station : Station) (incomingAngle outgoingAngle : Direction)
  : list Waypoint :=
  if Direction_eq_dec incomingAngle outgoingAngle then []
  else
    [mkWaypoint (IZR (vertexX station)) (IZR (vertexY station)) BEND
                (Some incomingAngle) (Some outgoingAngle)].

Definition optimizeBendPlacement
  (bend : Waypoint) (from to : Station) : Waypoint :=
  let minDistanceFromStation := 3 / 10 in
  let segmentLength :=
    hypot (IZR (vertexX to) - IZR (vertexX from))
          (IZR (vertexY to) - IZR (vertexY from)) in
  let distFromStart :=
    hypot (x bend - IZR (vertexX from)) (y bend - IZR (vertexY from)) in
  let distFromEnd :=
    hypot (x bend - IZR (vertexX to)) (y bend - IZR (vertexY to)) in
  if Rlt_dec distFromStart (segmentLength * minDistanceFromStation) then
    mkWaypoint ((IZR (vertexX from) + IZR (vertexX to)) / 2)
               ((IZR (vertexY from) + IZR (vertexY to)) / 2)
               (type bend) (incomingAngle bend) (outgoingAngle bend)
  else if Rlt_dec distFromEnd (segmentLength * minDistanceFromStation) then
    mkWaypoint ((IZR (vertexX from) + IZR (vertexX to)) / 2)
               ((IZR (vertexY from) + IZR (vertexY to)) / 2)
               (type bend) (incomingAngle bend) (outgoingAngle bend)
  else bend.

End RenderingNotes.

(** ** Section 3.2 of the rendering deep dive: several bends *)

Module MultipleBends.

Import JsMath JsNumber LinePath.

(** A waypoint whose angles are plain numbers: the loop of
    [calculateMultipleBendPoints] stores angles that are no members of
    [Direction]. *)
Record Waypoint : Type := mkWaypoint {
  x : R;
  y : R;
  type : WaypointType;
  incomingAngle : option R;
  outgoingAngle : option R
}.

(** A waypoint of LinePath.ts read as one of these. *)
Definition ofWaypoint (w : LinePath.Waypoint) : Waypoint :=
  mkWaypoint (LinePath.x w) (LinePath.y w) (LinePath.type w)
             (option_map angleOf (LinePath.incomingAngle w))
             (option_map angleOf (LinePath.outgoingAngle w)).

(** [normalizeAngle] of the notes on any number. *)
Definition normalizeAngle (angle : R) : R :=
  let angle := remainder angle 360 in
  let angle := if Rlt_dec 180 angle then angle - 360 else angle in
  if Rlt_dec angle (-180) then angle + 360 else angle.

(** [DIRECTION_VECTORS[angle]] for a number: the table has the eight
    values of [Direction] as keys. *)
Definition vectorAt (angle : R) : option DirectionVector :=
  if Req_dec_T angle 0 then Some (DIRECTION_VECTORS EAST)
  else if Req_dec_T angle 45 then Some (DIRECTION_VECTORS SOUTHEAST)
  else if Req_dec_T angle 90 then Some (DIRECTION_VECTORS SOUTH)
  else if Req_dec_T angle 135 then Some (DIRECTION_VECTORS SOUTHWEST)
  else if Req_dec_T angle 180 then Some (DIRECTION_VECTORS WEST)
  else if Req_dec_T angle 225 then Some (DIRECTION_VECTORS NORTHWEST)
  else if Req_dec_T angle 270 then Some (DIRECTION_VECTORS NORTH)
  else if Req_dec_T angle 315 then Some (DIRECTION_VECTORS NORTHEAST)
  else None.

(** The [for] loop, with [rounds] rounds left; [None] stands for the
    TypeError of reading [dx] from a missing entry of the table. *)
Fixpoint bendLoop
  (rounds : nat) (angleStep segmentLength : R)
  (currentAngle : R) (currentPos : R * R) : option (list Waypoint) :=
  match rounds with
  | O => Some []
  | S rounds' =>
      let nextAngle := normalizeAngle (currentAngle + angleStep) in
      match vectorAt currentAngle with
      | None => None
      | Some dir =>
          let bendPos :=
            (fst currentPos + segmentLength * IZR (dx dir),
             snd currentPos + segmentLength * IZR (dy dir)) in
          match bendLoop rounds' angleStep segmentLength nextAngle bendPos with
          | None => None
          | Some rest =>
              Some (mkWaypoint (fst bendPos) (snd bendPos) BEND
                               (Some currentAngle) (Some nextAngle) :: rest)
          end
      end
  end.

(** The two angles given are members of [Direction], as in every call
    of the router; the angles the loop derives from them are plain
    numbers. *)
Definition calculateMultipleBendPoints
  (from to : Station) (entryAngle targetAngle : Direction)
  : option (list Waypoint) :=
  let totalAngleChange := normalizeAngle (angleOf targetAngle - angleOf entryAngle) in
  let bendCount := Zceil (Rabs totalAngleChange / 90) in
  if (bendCount =? 1)%Z then
    Some (map ofWaypoint
              (RenderingNotes.calculateBendPoints from to entryAngle targetAngle))
  else
    let angleStep := totalAngleChange / IZR bendCount in
    let currentAngle := angleOf entryAngle in
    let currentPos := (IZR (vertexX from), IZR (vertexY from)) in
    let totalDistance :=
      hypot (IZR (vertexX to) - IZR (vertexX from))
            (IZR (vertexY to) - IZR (vertexY from)) in
    let segmentLength := totalDistance / IZR (bendCount + 1) in
    bendLoop (Z.to_nat bendCount) angleStep segmentLength currentAngle currentPos.

End MultipleBends.

(** ** Further notions *)

Module MoreNotions.

Import JsMath LinePath CornerRounding Notions.

(** The direction opposite to [d]. *)
Definition opposite (d : Direction) : Direction :=
  match d with
  | EAST => WEST
  | SOUTHEAST => NORTHWEST
  | SOUTH => NORTH
  | SOUTHWEST => NORTHEAST
  | WEST => EAST
  | NORTHWEST => SOUTHEAST
  | NORTH => SOUTH
  | NORTHEAST => SOUTHWEST
  end.

(** The mirror image of [d] when left and right are exchanged, and when
    the two axes are exchanged. *)
Definition mirrorX (d : Direction) : Direction :=
  match d with
  | EAST => WEST
  | SOUTHEAST => SOUTHWEST
  | SOUTH => SOUTH
  | SOUTHWEST => SOUTHEAST
  | WEST => EAST
  | NORTHWEST => NORTHEAST
  | NORTH => NORTH
  | NORTHEAST => NORTHWEST
  end.

Definition transpose (d : Direction) : Direction :=
  match d with
  | EAST => SOUTH
  | SOUTHEAST => SOUTHEAST
  | SOUTH => EAST
  | SOUTHWEST => NORTHEAST
  | WEST => NORTH
  | NORTHWEST => NORTHWEST
  | NORTH => WEST
  | NORTHEAST => SOUTHWEST
  end.

(** A waypoint moved by an integer vector. *)
Definition shiftWaypoint (vx vy : Z) (w : Waypoint) : Waypoint :=
  mkWaypoint (x w + IZR vx) (y w + IZR vy)
             (type w) (incomingAngle w) (outgoingAngle w).

(** A waypoint on a grid whose squares are [k] wide. *)
Definition scaleWaypoint (k : Z) (w : Waypoint) : Waypoint :=
  mkWaypoint (x w * IZR k) (y w * IZR k)
             (type w) (incomingAngle w) (outgoingAngle w).

(** The point reached from [p] after [k] times the vector of [d]. *)
Definition alongFrom (p : R * R) (d : Direction) (k : R) : R * R :=
  (fst p + k * IZR (dx (DIRECTION_VECTORS d)),
   snd p + k * IZR (dy (DIRECTION_VECTORS d))).

(** A real that is a whole number of halves. *)
Definition onHalfGrid (r : R) : Prop := exists n : Z, r = IZR n / 2.

(** The number of BEND waypoints of a list. *)
Definition bendCount (ws : list Waypoint) : nat :=
  length (filter isBend ws).

(** The number of BEND waypoints of a list of segments. *)
Definition bendTotal (segments : list LineSegment) : nat :=
  list_sum (map (fun segment => bendCount (waypoints segment)) segments).

End MoreNotions.

(** * Properties *)

(** ** The loops of [angleDifference] reach their exit test *)

Module AngleFacts.

Import JsMath LinePath.

Lemma loopRounds_enough (diff : R) : Rabs diff < 360 * INR (loopRounds diff).
Proof.
  unfold loopRounds.
  destruct (archimed (Rabs diff / 360)) as [Hup _].
  pose proof (Rabs_pos diff) as Hpos.
  assert (Hz : (0 <= up (Rabs diff / 360))%Z).
  { apply le_IZR. apply Rlt_le. eapply Rle_lt_trans; [|apply Hup].
    apply Rmult_le_pos; lra. }
  rewrite INR_IZR_INZ, Z2Nat.id by exact Hz.
  lra.
Qed.

Lemma lowerWhile_plain (n : nat) (diff : R) :
  diff <= 180 -> lowerWhile n diff = diff.
Proof.
  destruct n as [|n]; simpl; [reflexivity|].
  intros H. destruct (Rlt_dec 180 diff); [lra | reflexivity].
Qed.

Lemma raiseWhile_plain (n : nat) (diff : R) :
  -180 <= diff -> raiseWhile n diff = diff.
Proof.
  destruct n as [|n]; simpl; [reflexivity|].
  intros H. destruct (Rlt_dec diff (-180)); [lra | reflexivity].
Qed.

(** With enough rounds the first loop stops because its test fails; the
    value it leaves is the input lowered by whole turns, and is above
    [-180] as soon as one turn was taken off. *)
Lemma lowerWhile_exit (n : nat) :
  forall diff, diff <= 180 + 360 * INR n ->
    exists k : nat,
      lowerWhile n diff = diff - 360 * INR k /\
      lowerWhile n diff <= 180 /\
      (k = O \/ -180 < lowerWhile n diff).
Proof.
  induction n as [|n IH]; intros diff Hn.
  - simpl in *. exists O. simpl. split; [lra|]. split; [lra | now left].
  - rewrite S_INR in Hn. simpl lowerWhile.
    destruct (Rlt_dec 180 diff) as [Hgt|Hle].
    + destruct (IH (diff - 360)) as (k & Hk & Hub & Hlb); [lra|].
      exists (S k). rewrite S_INR. split; [lra|]. split; [exact Hub|].
      right. destruct Hlb as [->|Hlb]; [|exact Hlb].
      simpl in Hk. lra.
    + exists O. simpl. split; [lra|]. split; [lra | now left].
Qed.

Lemma raiseWhile_exit (n : nat) :
  forall diff, -180 - 360 * INR n <= diff ->
    exists k : nat,
      raiseWhile n diff = diff + 360 * INR k /\
      -180 <= raiseWhile n diff /\
      (k = O \/ raiseWhile n diff < 180).
Proof.
  induction n as [|n IH]; intros diff Hn.
  - simpl in *. exists O. simpl. split; [lra|]. split; [lra | now left].
  - rewrite S_INR in Hn. simpl raiseWhile.
    destruct (Rlt_dec diff (-180)) as [Hlt|Hge].
    + destruct (IH (diff + 360)) as (k & Hk & Hlb & Hub); [lra|].
      exists (S k). rewrite S_INR. split; [lra|]. split; [exact Hlb|].
      right. destruct Hub as [->|Hub]; [|exact Hub].
      simpl in Hk. lra.
    + exists O. simpl. split; [lra|]. split; [lra | now left].
Qed.

(** More rounds than needed change nothing: the bound is not observable. *)
Lemma lowerWhile_more (n : nat) :
  forall diff m, diff <= 180 + 360 * INR n -> (n <= m)%nat ->
    lowerWhile m diff = lowerWhile n diff.
Proof.
  induction n as [|n IH]; intros diff m Hn Hm.
  - simpl in Hn. simpl. apply lowerWhile_plain. lra.
  - destruct m as [|m]; [lia|]. rewrite S_INR in Hn. simpl.
    destruct (Rlt_dec 180 diff); [|reflexivity].
    apply IH; [lra | lia].
Qed.

Lemma raiseWhile_more (n : nat) :
  forall diff m, -180 - 360 * INR n <= diff -> (n <= m)%nat ->
    raiseWhile m diff = raiseWhile n diff.
Proof.
  induction n as [|n IH]; intros diff m Hn Hm.
  - simpl in Hn. simpl. apply raiseWhile_plain. lra.
  - destruct m as [|m]; [lia|]. rewrite S_INR in Hn. simpl.
    destruct (Rlt_dec diff (-180)); [|reflexivity].
    apply IH; [lra | lia].
Qed.

Lemma loopRounds_upper (diff : R) : diff <= 180 + 360 * INR (loopRounds diff).
Proof.
  pose proof (loopRounds_enough diff). pose proof (Rle_abs diff). lra.
Qed.

Lemma loopRounds_lower (diff : R) : -180 - 360 * INR (loopRounds diff) <= diff.
Proof.
  pose proof (loopRounds_enough diff).
  pose proof (Rle_abs (- diff)). rewrite Rabs_Ropp in *. lra.
Qed.

(** The result of [angleDifference] lies in [[-180, 180]] and differs from
    [angle1 - angle2] by a whole number of turns. *)
Lemma angleDifference_range (a b : R) :
  -180 <= angleDifference a b <= 180.
Proof.
  unfold angleDifference.
  destruct (lowerWhile_exit _ _ (loopRounds_upper (a - b)))
    as (k & Hk & Hub & Hlb).
  set (d := lowerWhile (loopRounds (a - b)) (a - b)) in *.
  destruct (raiseWhile_exit _ _ (loopRounds_lower d)) as (j & Hj & Hlb' & Hub').
  split; [exact Hlb'|].
  destruct Hub' as [->|Hub']; [|lra].
  simpl in Hj. lra.
Qed.

Lemma angleDifference_turns (a b : R) :
  exists k : Z, angleDifference a b = a - b + 360 * IZR k.
Proof.
  unfold angleDifference.
  destruct (lowerWhile_exit _ _ (loopRounds_upper (a - b)))
    as (k & Hk & _).
  set (d := lowerWhile (loopRounds (a - b)) (a - b)) in *.
  destruct (raiseWhile_exit _ _ (loopRounds_lower d)) as (j & Hj & _).
  exists (Z.of_nat j - Z.of_nat k)%Z.
  rewrite minus_IZR, <- !INR_IZR_INZ. lra.
Qed.

(** The bound on the rounds is not observable: any larger bounds give the
    same result. *)
Lemma angleDifference_any_rounds (a b : R) (n m : nat) :
  (loopRounds (a - b) <= n)%nat ->
  (loopRounds (lowerWhile n (a - b)) <= m)%nat ->
  raiseWhile m (lowerWhile n (a - b)) = angleDifference a b.
Proof.
  intros Hn Hm. unfold angleDifference.
  rewrite <- (lowerWhile_more _ (a - b) n (loopRounds_upper (a - b)) Hn).
  apply raiseWhile_more; [apply loopRounds_lower | exact Hm].
Qed.

Lemma angleDifference_plain (a b : R) :
  -180 <= a - b <= 180 -> angleDifference a b = a - b.
Proof.
  intros H. unfold angleDifference.
  rewrite lowerWhile_plain by lra. apply raiseWhile_plain. lra.
Qed.

Lemma angleDifference_wrap_up (a b : R) :
  -540 <= a - b < -180 -> angleDifference a b = a - b + 360.
Proof.
  intros H. unfold angleDifference.
  rewrite lowerWhile_plain by lra.
  rewrite (raiseWhile_more 1 (a - b) (loopRounds (a - b))).
  - simpl. destruct (Rlt_dec (a - b) (-180)); [reflexivity | lra].
  - simpl. lra.
  - pose proof (loopRounds_lower (a - b)) as Hl.
    destruct (loopRounds (a - b)); [simpl in Hl; lra | lia].
Qed.

Lemma angleDifference_wrap_down (a b : R) :
  180 < a - b <= 540 -> angleDifference a b = a - b - 360.
Proof.
  intros H. unfold angleDifference.
  rewrite (lowerWhile_more 1 (a - b) (loopRounds (a - b))).
  - simpl. destruct (Rlt_dec 180 (a - b)); [|lra].
    apply raiseWhile_plain. lra.
  - simpl. lra.
  - pose proof (loopRounds_upper (a - b)) as Hl.
    destruct (loopRounds (a - b)); [simpl in Hl; lra | lia].
Qed.

End AngleFacts.

(** ** The loop of [calculateSnapAngle] selects the first least distance *)

Module SnapFacts.

Import JsMath LinePath Notions AngleFacts.

Lemma all_directions_possible (d : Direction) : In d possibleAngles.
Proof. destruct d; simpl; tauto. Qed.

Lemma fold_snapStep_least (rawAngle : R) (todo : list Direction) :
  forall (seen : list Direction) (acc : Direction * R),
    snd acc = wrapDistance rawAngle (fst acc) ->
    leastSoFar rawAngle (fst acc) seen ->
    (forall s d, In s seen -> In d todo -> (degrees s <= degrees d)%Z) ->
    (forall d, In d todo -> (degrees (fst acc) <= degrees d)%Z) ->
    StronglySorted (fun a b => (degrees a <= degrees b)%Z) todo ->
    leastSoFar rawAngle
      (fst (fold_left (snapStep rawAngle) todo acc)) (seen ++ todo).
Proof.
  induction todo as [|a todo IH]; intros seen acc Hsnd Hleast Hord Hacc Hsorted.
  - simpl. rewrite app_nil_r. exact Hleast.
  - simpl fold_left.
    replace (seen ++ a :: todo) with ((seen ++ [a]) ++ todo)
      by (rewrite <- app_assoc; reflexivity).
    inversion Hsorted as [|? ? Hsorted' Hall]; subst.
    rewrite Forall_forall in Hall.
    apply IH; clear IH.
    + unfold snapStep. fold (wrapDistance rawAngle a).
      destruct (Rlt_dec _ _); [reflexivity | exact Hsnd].
    + unfold snapStep. fold (wrapDistance rawAngle a).
      rewrite Hsnd.
      destruct (Rlt_dec _ _) as [Hlt|Hge]; simpl fst; intros d Hd;
        apply in_app_or in Hd; destruct Hd as [Hd|[<-|[]]].
      * destruct (Hleast d Hd) as [Hle _]. split; [lra|]. intros Heq. lra.
      * split; [lra|]. intros _. lia.
      * exact (Hleast d Hd).
      * split; [lra|]. intros _. apply Hacc. now left.
    + intros s d Hs Hd. apply in_app_or in Hs. destruct Hs as [Hs|[<-|[]]].
      * apply Hord; [exact Hs | now right].
      * apply Hall. exact Hd.
    + intros d Hd. unfold snapStep.
      destruct (Rlt_dec _ _); simpl fst.
      * apply Hall. exact Hd.
      * apply Hacc. now right.
    + exact Hsorted'.
Qed.

Lemma possibleAngles_sorted :
  StronglySorted (fun a b => (degrees a <= degrees b)%Z) possibleAngles.
Proof.
  unfold possibleAngles.
  repeat (constructor; [|repeat constructor; simpl; lia]).
  constructor.
Qed.

(** The snapped direction is at the least angular distance from the raw
    angle, and among the directions at that distance it has the lowest
    value. *)
Lemma snapRawAngle_least (rawAngle : R) (d : Direction) :
  wrapDistance rawAngle (snapRawAngle rawAngle) <= wrapDistance rawAngle d /\
  (wrapDistance rawAngle d = wrapDistance rawAngle (snapRawAngle rawAngle) ->
   (degrees (snapRawAngle rawAngle) <= degrees d)%Z).
Proof.
  unfold snapRawAngle.
  apply (fold_snapStep_least rawAngle possibleAngles []
           (EAST, Rabs (angleDifference rawAngle (angleOf EAST)))).
  - reflexivity.
  - intros ? [].
  - intros ? ? [].
  - intros d' _. destruct d'; simpl; lia.
  - exact possibleAngles_sorted.
  - simpl app. apply all_directions_possible.
Qed.

(** For a raw angle in [[-180, 180]] the loops of [angleDifference] take at
    most one round. *)
Lemma wrapDistance_cases (rawAngle : R) (d : Direction) :
  -180 <= rawAngle <= 180 ->
  (-180 <= rawAngle - angleOf d /\
   wrapDistance rawAngle d = Rabs (rawAngle - angleOf d)) \/
  (rawAngle - angleOf d < -180 /\
   wrapDistance rawAngle d = Rabs (rawAngle - angleOf d + 360)).
Proof.
  intros Hr. unfold wrapDistance.
  assert (Ha : 0 <= angleOf d <= 315)
    by (unfold angleOf; destruct d; simpl; lra).
  destruct (Rle_dec (-180) (rawAngle - angleOf d)) as [Hge|Hlt].
  - left. split; [exact Hge|]. now rewrite angleDifference_plain by lra.
  - right. split; [lra|]. now rewrite angleDifference_wrap_up by lra.
Qed.

(** Puts the distance from [raw] to [d] in the context as a linear
    expression, when the bounds at hand decide it. *)
Ltac wrap_value raw d :=
  let H := fresh "Hw" in
  let Hc := fresh "Hc" in
  pose proof (wrapDistance_cases raw d) as H;
  unfold angleOf, degrees in H;
  destruct H as [[Hc H]|[Hc H]]; [lra| |]; try (exfalso; lra);
  first [ rewrite Rabs_pos_eq in H by lra
        | rewrite Rabs_left1 in H by lra
        | idtac ].

Ltac wrap_values raw :=
  wrap_value raw EAST; wrap_value raw SOUTHEAST; wrap_value raw SOUTH;
  wrap_value raw SOUTHWEST; wrap_value raw WEST; wrap_value raw NORTHWEST;
  wrap_value raw NORTH; wrap_value raw NORTHEAST.

(** Decides [snapRawAngle raw = c] from the distances: every other
    direction is farther, or as far with a higher value. *)
Ltac snap_decide raw c :=
  wrap_values raw;
  let Hd := fresh "Hd" in
  let Ht := fresh "Ht" in
  let Hs := fresh "Hs" in
  destruct (snapRawAngle_least raw c) as [Hd Ht];
  destruct (snapRawAngle raw) eqn:Hs; try reflexivity; exfalso;
  first [ lra | (assert (degrees _ <= degrees c)%Z by (apply Ht; lra)); simpl in *; lia ].

Lemma snapRawAngle_EAST (raw : R) :
  - (45 / 2) <= raw <= 45 / 2 -> snapRawAngle raw = EAST.
Proof.
  intros H. destruct (Rle_dec 0 raw); snap_decide raw EAST.
Qed.

Lemma snapRawAngle_SOUTHEAST (raw : R) :
  45 / 2 < raw <= 135 / 2 -> snapRawAngle raw = SOUTHEAST.
Proof.
  intros H. destruct (Rle_dec 45 raw); snap_decide raw SOUTHEAST.
Qed.

Lemma snapRawAngle_SOUTH (raw : R) :
  135 / 2 < raw <= 225 / 2 -> snapRawAngle raw = SOUTH.
Proof.
  intros H. destruct (Rle_dec 90 raw); snap_decide raw SOUTH.
Qed.

Lemma snapRawAngle_SOUTHWEST (raw : R) :
  225 / 2 < raw <= 315 / 2 -> snapRawAngle raw = SOUTHWEST.
Proof.
  intros H. destruct (Rle_dec 135 raw); snap_decide raw SOUTHWEST.
Qed.

Lemma snapRawAngle_WEST_upper (raw : R) :
  315 / 2 < raw <= 180 -> snapRawAngle raw = WEST.
Proof.
  intros H. snap_decide raw WEST.
Qed.

Lemma snapRawAngle_WEST_lower (raw : R) :
  -180 <= raw <= - (315 / 2) -> snapRawAngle raw = WEST.
Proof.
  intros H. snap_decide raw WEST.
Qed.

Lemma snapRawAngle_NORTHWEST (raw : R) :
  - (315 / 2) < raw <= - (225 / 2) -> snapRawAngle raw = NORTHWEST.
Proof.
  intros H. destruct (Rle_dec (-135) raw); snap_decide raw NORTHWEST.
Qed.

Lemma snapRawAngle_NORTH (raw : R) :
  - (225 / 2) < raw <= - (135 / 2) -> snapRawAngle raw = NORTH.
Proof.
  intros H. destruct (Rle_dec (-90) raw); snap_decide raw NORTH.
Qed.

Lemma snapRawAngle_NORTHEAST (raw : R) :
  - (135 / 2) < raw < - (45 / 2) -> snapRawAngle raw = NORTHEAST.
Proof.
  intros H. destruct (Rle_dec (-45) raw); snap_decide raw NORTHEAST.
Qed.

End SnapFacts.

(** ** The eighth of a turn: [tan (PI / 8) = sqrt 2 - 1] *)

Module EighthTurn.

Lemma tan_PI8 : tan (PI / 8) = sqrt 2 - 1.
Proof.
  pose proof PI_RGT_0 as Hpi.
  assert (Hc : 0 < cos (PI / 8)) by (apply cos_gt_0; lra).
  assert (Hpos : 0 < tan (PI / 8)) by (apply tan_gt_0; lra).
  assert (H2 : 2 * sin (PI / 8) * cos (PI / 8)
               = cos (PI / 8) * cos (PI / 8) - sin (PI / 8) * sin (PI / 8)).
  { rewrite <- sin_2a, <- cos_2a.
    replace (2 * (PI / 8)) with (PI / 4) by lra.
    now rewrite sin_PI4, cos_PI4. }
  unfold tan in *.
  set (s := sin (PI / 8)) in *. set (c := cos (PI / 8)) in *.
  assert (Heq : 1 - (s / c) * (s / c) = 2 * (s / c)).
  { apply (Rmult_eq_reg_r (c * c)); [|nra].
    replace ((1 - s / c * (s / c)) * (c * c)) with (c * c - s * s) by (field; lra).
    replace (2 * (s / c) * (c * c)) with (2 * s * c) by (field; lra). lra. }
  assert (Hsq : (s / c + 1) * (s / c + 1) = 2) by lra.
  rewrite <- Hsq. rewrite sqrt_square by lra. lra.
Qed.

Lemma atan_sqrt2_minus_1 : atan (sqrt 2 - 1) = PI / 8.
Proof.
  rewrite <- tan_PI8. apply atan_tan. pose proof PI_RGT_0. lra.
Qed.

Lemma atan_sqrt2_plus_1 : atan (sqrt 2 + 1) = 3 * PI / 8.
Proof.
  assert (H2 : sqrt 2 * sqrt 2 = 2) by (apply sqrt_sqrt; lra).
  assert (Hp : 0 <= sqrt 2) by apply sqrt_pos.
  assert (H1 : 1 < sqrt 2) by nra.
  replace (sqrt 2 + 1) with (/ (sqrt 2 - 1)).
  - rewrite atan_inv by lra. rewrite atan_sqrt2_minus_1. lra.
  - apply Rmult_eq_reg_r with (sqrt 2 - 1); [|lra].
    rewrite Rinv_l by lra. nra.
Qed.

Lemma sqrt2_bounds : 1 < sqrt 2 < 2 /\ sqrt 2 * sqrt 2 = 2.
Proof.
  assert (H2 : sqrt 2 * sqrt 2 = 2) by (apply sqrt_sqrt; lra).
  assert (Hp : 0 <= sqrt 2) by apply sqrt_pos.
  split; [nra | exact H2].
Qed.

(** Degrees from radians. *)
Lemma degrees_lt (theta c : R) : theta < c * PI / 180 -> theta * 180 / PI < c.
Proof.
  intros H. pose proof PI_RGT_0 as Hpi.
  apply Rmult_lt_reg_r with PI; [lra|].
  unfold Rdiv. rewrite Rmult_assoc, Rinv_l by lra. lra.
Qed.

Lemma degrees_gt (theta c : R) : c * PI / 180 < theta -> c < theta * 180 / PI.
Proof.
  intros H. pose proof PI_RGT_0 as Hpi.
  apply Rmult_lt_reg_r with PI; [lra|].
  unfold Rdiv. rewrite Rmult_assoc, Rinv_l by lra. lra.
Qed.

Lemma degrees_eq (theta c : R) : theta = c * PI / 180 -> theta * 180 / PI = c.
Proof.
  intros ->. pose proof PI_RGT_0 as Hpi. field. lra.
Qed.

Section Slopes.
Variables a b : R.
Hypothesis Ha : 0 < a.

Lemma slope_lt (c : R) : b < c * a -> b / a < c.
Proof.
  intros H. apply Rmult_lt_reg_r with a; [exact Ha|].
  unfold Rdiv. rewrite Rmult_assoc, Rinv_l by lra. lra.
Qed.

Lemma slope_gt (c : R) : c * a < b -> c < b / a.
Proof.
  intros H. apply Rmult_lt_reg_r with a; [exact Ha|].
  unfold Rdiv. rewrite Rmult_assoc, Rinv_l by lra. lra.
Qed.

Lemma atan_slope_below_eighth : b < (sqrt 2 - 1) * a -> atan (b / a) < PI / 8.
Proof.
  intros H. rewrite <- atan_sqrt2_minus_1. apply atan_increasing, slope_lt, H.
Qed.

Lemma atan_slope_above_eighth : (sqrt 2 - 1) * a < b -> PI / 8 < atan (b / a).
Proof.
  intros H. rewrite <- atan_sqrt2_minus_1. apply atan_increasing, slope_gt, H.
Qed.

Lemma atan_slope_below_three_eighths :
  b < (sqrt 2 + 1) * a -> atan (b / a) < 3 * PI / 8.
Proof.
  intros H. rewrite <- atan_sqrt2_plus_1. apply atan_increasing, slope_lt, H.
Qed.

Lemma atan_slope_above_three_eighths :
  (sqrt 2 + 1) * a < b -> 3 * PI / 8 < atan (b / a).
Proof.
  intros H. rewrite <- atan_sqrt2_plus_1. apply atan_increasing, slope_gt, H.
Qed.

Lemma atan_slope_above_minus_eighth :
  - (sqrt 2 - 1) * a < b -> - (PI / 8) < atan (b / a).
Proof.
  intros H.
  replace (- (PI / 8)) with (atan (- (sqrt 2 - 1)))
    by (rewrite atan_opp, atan_sqrt2_minus_1; reflexivity).
  apply atan_increasing, slope_gt, H.
Qed.

Lemma atan_slope_below_minus_eighth :
  b < - (sqrt 2 - 1) * a -> atan (b / a) < - (PI / 8).
Proof.
  intros H.
  replace (- (PI / 8)) with (atan (- (sqrt 2 - 1)))
    by (rewrite atan_opp, atan_sqrt2_minus_1; reflexivity).
  apply atan_increasing, slope_lt, H.
Qed.

Lemma atan_slope_above_minus_three_eighths :
  - (sqrt 2 + 1) * a < b -> - (3 * PI / 8) < atan (b / a).
Proof.
  intros H.
  replace (- (3 * PI / 8)) with (atan (- (sqrt 2 + 1)))
    by (rewrite atan_opp, atan_sqrt2_plus_1; reflexivity).
  apply atan_increasing, slope_gt, H.
Qed.

Lemma atan_slope_below_minus_three_eighths :
  b < - (sqrt 2 + 1) * a -> atan (b / a) < - (3 * PI / 8).
Proof.
  intros H.
  replace (- (3 * PI / 8)) with (atan (- (sqrt 2 + 1)))
    by (rewrite atan_opp, atan_sqrt2_plus_1; reflexivity).
  apply atan_increasing, slope_lt, H.
Qed.
End Slopes.

End EighthTurn.

(** ** The raw angle of a vector, sector by sector *)

Module RawAngleFacts.

Import JsMath LinePath Notions AngleFacts SnapFacts EighthTurn.

Lemma atan2_right (x y : R) : 0 < x -> atan2 y x = atan (y / x).
Proof.
  intros H. unfold atan2. destruct (Rlt_dec 0 x); [reflexivity | lra].
Qed.

Lemma quotient_opp (x y : R) : x <> 0 -> y / x = (- y) / (- x).
Proof. intros H. field. lra. Qed.

Lemma atan2_left_up (x y : R) :
  x < 0 -> 0 <= y -> atan2 y x = atan ((- y) / (- x)) + PI.
Proof.
  intros Hx Hy. unfold atan2.
  destruct (Rlt_dec 0 x); [lra|]. destruct (Rlt_dec x 0); [|lra].
  destruct (Rle_dec 0 y); [|lra]. now rewrite <- quotient_opp by lra.
Qed.

Lemma atan2_left_down (x y : R) :
  x < 0 -> y < 0 -> atan2 y x = atan ((- y) / (- x)) - PI.
Proof.
  intros Hx Hy. unfold atan2.
  destruct (Rlt_dec 0 x); [lra|]. destruct (Rlt_dec x 0); [|lra].
  destruct (Rle_dec 0 y); [lra|]. now rewrite <- quotient_opp by lra.
Qed.

Lemma atan2_up (y : R) : 0 < y -> atan2 y 0 = PI / 2.
Proof.
  intros H. unfold atan2.
  destruct (Rlt_dec 0 0); [lra|]. destruct (Rlt_dec 0 y); [reflexivity | lra].
Qed.

Lemma atan2_down (y : R) : y < 0 -> atan2 y 0 = - (PI / 2).
Proof.
  intros H. unfold atan2.
  destruct (Rlt_dec 0 0); [lra|]. destruct (Rlt_dec 0 y); [lra|].
  destruct (Rlt_dec y 0); [reflexivity | lra].
Qed.

Lemma atan2_origin : atan2 0 0 = 0.
Proof.
  unfold atan2. destruct (Rlt_dec 0 0); [lra | reflexivity].
Qed.

(** [atan2] gives the polar angle: it lies in [(-PI, PI]] and the vector is
    its length times [(cos, sin)] of the angle. *)
Lemma atan2_bound (x y : R) : - PI < atan2 y x <= PI.
Proof.
  pose proof PI_RGT_0 as Hpi.
  destruct (Rlt_dec 0 x) as [Hx|Hx].
  - rewrite atan2_right by exact Hx. pose proof (atan_bound (y / x)). lra.
  - destruct (Rlt_dec x 0) as [Hx'|Hx'].
    + assert (Hmx : 0 < - x) by lra.
      destruct (Rle_dec 0 y) as [Hy|Hy].
      * rewrite atan2_left_up by lra.
        pose proof (atan_bound ((- y) / (- x))).
        assert (atan ((- y) / (- x)) <= 0).
        { rewrite <- atan_0.
          destruct (Req_dec y 0) as [->|Hne].
          - unfold Rdiv. rewrite Ropp_0, Rmult_0_l. lra.
          - apply Rlt_le, atan_increasing. apply slope_lt; lra. }
        lra.
      * rewrite atan2_left_down by lra.
        pose proof (atan_bound ((- y) / (- x))).
        assert (0 < atan ((- y) / (- x))).
        { rewrite <- atan_0. apply atan_increasing. apply slope_gt; lra. }
        lra.
    + assert (x = 0) by lra. subst x.
      destruct (Rlt_dec 0 y).
      * rewrite atan2_up by lra. lra.
      * destruct (Rlt_dec y 0).
        -- rewrite atan2_down by lra. lra.
        -- assert (y = 0) by lra. subst y. rewrite atan2_origin. lra.
Qed.

Lemma rawAngleOf_bound (dx dy : Z) : -180 < rawAngleOf dx dy <= 180.
Proof.
  unfold rawAngleOf. pose proof PI_RGT_0 as Hpi.
  destruct (atan2_bound (IZR dx) (IZR dy)) as [Hl Hu].
  split.
  - apply degrees_gt. lra.
  - destruct Hu as [Hu|Hu].
    + apply Rlt_le, degrees_lt. lra.
    + apply Req_le, degrees_eq. lra.
Qed.

(** *** The direction snapped to, from the slope of the vector

    [sqrt 2 - 1] is the tangent of 22.5 degrees: a vector whose shorter
    coordinate is below that fraction of the longer one snaps to the axis of
    the longer one, any other vector to the diagonal of its quadrant. *)

Section RealVector.
Variables x y : R.

Let raw := atan2 y x * 180 / PI.

Ltac degree_bounds :=
  pose proof PI_RGT_0;
  try apply Rlt_le;
  first [ apply degrees_gt | apply degrees_lt ];
  lra.

Lemma snap_real_EAST :
  0 < x -> Rabs y < (sqrt 2 - 1) * x -> snapRawAngle raw = EAST.
Proof.
  intros Hx Hy. apply Rabs_def2 in Hy. subst raw.
  rewrite atan2_right by exact Hx.
  pose proof (atan_slope_below_eighth x y Hx ltac:(lra)).
  pose proof (atan_slope_above_minus_eighth x y Hx ltac:(lra)).
  apply snapRawAngle_EAST. split; degree_bounds.
Qed.

Lemma snap_real_SOUTHEAST :
  0 < x -> 0 < y -> (sqrt 2 - 1) * x < y -> (sqrt 2 - 1) * y < x ->
  snapRawAngle raw = SOUTHEAST.
Proof.
  intros Hx Hy H1 H2. subst raw. destruct sqrt2_bounds as [Hb Hs].
  rewrite atan2_right by exact Hx.
  pose proof (atan_slope_above_eighth x y Hx ltac:(lra)).
  assert (y < (sqrt 2 + 1) * x) by nra.
  pose proof (atan_slope_below_three_eighths x y Hx ltac:(lra)).
  apply snapRawAngle_SOUTHEAST. split; degree_bounds.
Qed.

Lemma snap_real_NORTHEAST :
  0 < x -> y < 0 -> (sqrt 2 - 1) * x < - y -> (sqrt 2 - 1) * - y < x ->
  snapRawAngle raw = NORTHEAST.
Proof.
  intros Hx Hy H1 H2. subst raw. destruct sqrt2_bounds as [Hb Hs].
  rewrite atan2_right by exact Hx.
  pose proof (atan_slope_below_minus_eighth x y Hx ltac:(lra)).
  assert (- (sqrt 2 + 1) * x < y) by nra.
  pose proof (atan_slope_above_minus_three_eighths x y Hx ltac:(lra)).
  apply snapRawAngle_NORTHEAST. split; degree_bounds.
Qed.

Lemma snap_real_SOUTH :
  0 < y -> Rabs x < (sqrt 2 - 1) * y -> snapRawAngle raw = SOUTH.
Proof.
  intros Hy Hx. apply Rabs_def2 in Hx. subst raw.
  destruct sqrt2_bounds as [Hb Hs].
  apply snapRawAngle_SOUTH.
  destruct (Rlt_dec 0 x) as [Hpos|Hnpos].
  - rewrite atan2_right by exact Hpos.
    assert ((sqrt 2 + 1) * x < y) by nra.
    pose proof (atan_slope_above_three_eighths x y Hpos ltac:(lra)).
    pose proof (atan_bound (y / x)).
    split; degree_bounds.
  - destruct (Rlt_dec x 0) as [Hneg|Hnneg].
    + rewrite atan2_left_up by lra.
      assert (Hmx : 0 < - x) by lra.
      assert (- y < - (sqrt 2 + 1) * - x) by nra.
      pose proof (atan_slope_below_minus_three_eighths (- x) (- y) Hmx ltac:(lra)).
      pose proof (atan_bound (- y / - x)).
      split; degree_bounds.
    + assert (x = 0) by lra. subst x. rewrite atan2_up by exact Hy.
      split; degree_bounds.
Qed.

Lemma snap_real_NORTH :
  y < 0 -> Rabs x < (sqrt 2 - 1) * - y -> snapRawAngle raw = NORTH.
Proof.
  intros Hy Hx. apply Rabs_def2 in Hx. subst raw.
  destruct sqrt2_bounds as [Hb Hs].
  apply snapRawAngle_NORTH.
  destruct (Rlt_dec 0 x) as [Hpos|Hnpos].
  - rewrite atan2_right by exact Hpos.
    assert (y < - (sqrt 2 + 1) * x) by nra.
    pose proof (atan_slope_below_minus_three_eighths x y Hpos ltac:(lra)).
    pose proof (atan_bound (y / x)).
    split; degree_bounds.
  - destruct (Rlt_dec x 0) as [Hneg|Hnneg].
    + rewrite atan2_left_down by lra.
      assert (Hmx : 0 < - x) by lra.
      assert ((sqrt 2 + 1) * - x < - y) by nra.
      pose proof (atan_slope_above_three_eighths (- x) (- y) Hmx ltac:(lra)).
      pose proof (atan_bound (- y / - x)).
      split; degree_bounds.
    + assert (x = 0) by lra. subst x. rewrite atan2_down by exact Hy.
      split; degree_bounds.
Qed.

Lemma snap_real_WEST :
  x < 0 -> Rabs y < (sqrt 2 - 1) * - x -> snapRawAngle raw = WEST.
Proof.
  intros Hx Hy. apply Rabs_def2 in Hy. subst raw.
  assert (Hmx : 0 < - x) by lra.
  destruct (Rle_dec 0 y) as [Hup|Hdown].
  - rewrite atan2_left_up by lra.
    pose proof (atan_slope_above_minus_eighth (- x) (- y) Hmx ltac:(lra)).
    assert (atan (- y / - x) <= 0).
    { rewrite <- atan_0. destruct (Req_dec y 0) as [->|Hne].
      - unfold Rdiv. rewrite Ropp_0, Rmult_0_l. lra.
      - apply Rlt_le, atan_increasing. apply slope_lt; lra. }
    apply snapRawAngle_WEST_upper. split; [degree_bounds|].
    pose proof PI_RGT_0.
    apply Rmult_le_reg_r with PI; [lra|].
    unfold Rdiv. rewrite Rmult_assoc, Rinv_l by lra. lra.
  - rewrite atan2_left_down by lra.
    pose proof (atan_slope_below_eighth (- x) (- y) Hmx ltac:(lra)).
    assert (0 < atan (- y / - x)).
    { rewrite <- atan_0. apply atan_increasing. apply slope_gt; lra. }
    apply snapRawAngle_WEST_lower. split; degree_bounds.
Qed.

Lemma snap_real_SOUTHWEST :
  x < 0 -> 0 < y -> (sqrt 2 - 1) * - x < y -> (sqrt 2 - 1) * y < - x ->
  snapRawAngle raw = SOUTHWEST.
Proof.
  intros Hx Hy H1 H2. subst raw. destruct sqrt2_bounds as [Hb Hs].
  assert (Hmx : 0 < - x) by lra.
  rewrite atan2_left_up by lra.
  pose proof (atan_slope_below_minus_eighth (- x) (- y) Hmx ltac:(lra)).
  assert (- (sqrt 2 + 1) * - x < - y) by nra.
  pose proof (atan_slope_above_minus_three_eighths (- x) (- y) Hmx ltac:(lra)).
  apply snapRawAngle_SOUTHWEST. split; degree_bounds.
Qed.

Lemma snap_real_NORTHWEST :
  x < 0 -> y < 0 -> (sqrt 2 - 1) * - x < - y -> (sqrt 2 - 1) * - y < - x ->
  snapRawAngle raw = NORTHWEST.
Proof.
  intros Hx Hy H1 H2. subst raw. destruct sqrt2_bounds as [Hb Hs].
  assert (Hmx : 0 < - x) by lra.
  rewrite atan2_left_down by lra.
  pose proof (atan_slope_above_eighth (- x) (- y) Hmx ltac:(lra)).
  assert (- y < (sqrt 2 + 1) * - x) by nra.
  pose proof (atan_slope_below_three_eighths (- x) (- y) Hmx ltac:(lra)).
  apply snapRawAngle_NORTHWEST. split; degree_bounds.
Qed.
End RealVector.

(** *** [atan2] is the polar angle *)

Lemma hypot_scaled (a t : R) :
  0 < a -> hypot a (t * a) = a * sqrt (1 + t²).
Proof.
  intros Ha. unfold hypot, Rsqr.
  replace (a * a + t * a * (t * a)) with ((a * a) * (1 + t * t)) by ring.
  rewrite sqrt_mult by nra. now rewrite sqrt_square by lra.
Qed.

Lemma sqrt_one_plus_square_pos (t : R) : 0 < sqrt (1 + t²).
Proof. apply sqrt_lt_R0. unfold Rsqr. nra. Qed.

Lemma atan2_polar (x y : R) :
  x = hypot x y * cos (atan2 y x) /\ y = hypot x y * sin (atan2 y x).
Proof.
  destruct (Rlt_dec 0 x) as [Hx|Hx].
  - rewrite atan2_right by exact Hx.
    rewrite cos_atan, sin_atan.
    replace (hypot x y) with (hypot x (y / x * x))
      by (f_equal; field; lra).
    rewrite hypot_scaled by exact Hx.
    pose proof (sqrt_one_plus_square_pos (y / x)).
    split; field; lra.
  - destruct (Rlt_dec x 0) as [Hx'|Hx'].
    + assert (Hh : hypot x y = - x * sqrt (1 + (- y / - x)²)).
      { rewrite <- hypot_scaled by lra. unfold hypot. f_equal. field. lra. }
      pose proof (sqrt_one_plus_square_pos (- y / - x)).
      destruct (Rle_dec 0 y) as [Hy|Hy].
      * rewrite atan2_left_up by lra.
        rewrite neg_cos, neg_sin, cos_atan, sin_atan, Hh.
        split; field; lra.
      * rewrite atan2_left_down by lra.
        unfold Rminus. rewrite cos_plus, sin_plus, cos_neg, sin_neg.
        rewrite cos_PI, sin_PI, cos_atan, sin_atan, Hh.
        split; field; lra.
    + assert (x = 0) by lra. subst x.
      assert (Hh : hypot 0 y = Rabs y).
      { unfold hypot. rewrite Rmult_0_l, Rplus_0_l. apply sqrt_Rsqr_abs. }
      rewrite Hh.
      destruct (Rlt_dec 0 y).
      * rewrite atan2_up by lra. rewrite cos_PI2, sin_PI2, Rabs_pos_eq by lra.
        lra.
      * destruct (Rlt_dec y 0).
        -- rewrite atan2_down by lra.
           rewrite cos_neg, sin_neg, cos_PI2, sin_PI2, Rabs_left by lra. lra.
        -- assert (y = 0) by lra. subst y. rewrite Rabs_R0. lra.
Qed.

End RawAngleFacts.

(** ** The snapped direction of an integer vector, exactly *)

Module GridFacts.

Import JsMath LinePath Notions AngleFacts SnapFacts EighthTurn RawAngleFacts.

Lemma two_squares_descent (n : nat) :
  forall p q : Z, (Z.abs_nat q < n)%nat -> (p * p = 2 * (q * q))%Z -> q = 0%Z.
Proof.
  induction n as [|n IH]; intros p q Hn Hpq; [lia|].
  destruct (Z.eq_dec q 0) as [Hq|Hq]; [exact Hq | exfalso].
  destruct (Z.Even_or_Odd p) as [[k Hk]|[k Hk]]; [|lia].
  subst p.
  assert (Hqk : (q * q = 2 * (k * k))%Z) by lia.
  assert (Hk0 : k = 0%Z).
  { apply (IH q k); [|exact Hqk]. 
    assert (Z.abs k < Z.abs q)%Z by nia. lia. }
  subst k. nia.
Qed.

Lemma no_square_is_twice_a_square (p q : Z) :
  (p * p = 2 * (q * q))%Z -> q = 0%Z.
Proof. apply (two_squares_descent (S (Z.abs_nat q))). lia. Qed.

Section Bridge.
Variables a b : Z.
Hypothesis Ha : (0 <= a)%Z.
Hypothesis Hb : (0 <= b)%Z.

Lemma below_eighth_Z :
  ((a + b) * (a + b) < 2 * (a * a))%Z -> IZR b < (sqrt 2 - 1) * IZR a.
Proof.
  intros H. apply IZR_lt in H.
  rewrite !mult_IZR, plus_IZR in H.
  apply IZR_le in Ha, Hb. destruct sqrt2_bounds as [Hs H2].
  destruct (Rlt_dec (IZR b) ((sqrt 2 - 1) * IZR a)) as [Hlt|Hge];
    [exact Hlt | exfalso].
  assert (H1 : sqrt 2 * IZR a <= IZR a + IZR b) by lra.
  assert (H0 : 0 <= sqrt 2 * IZR a) by nra.
  pose proof (Rmult_le_compat _ _ _ _ H0 H0 H1 H1). nra.
Qed.

Lemma above_eighth_Z :
  a <> 0%Z \/ b <> 0%Z ->
  ~ ((a + b) * (a + b) < 2 * (a * a))%Z -> (sqrt 2 - 1) * IZR a < IZR b.
Proof.
  intros Hnz H.
  assert (Hgt : (2 * (a * a) < (a + b) * (a + b))%Z).
  { destruct (Z.eq_dec ((a + b) * (a + b)) (2 * (a * a))) as [He|Hne]; [|lia].
    apply no_square_is_twice_a_square in He. subst a. nia. }
  apply IZR_lt in Hgt. rewrite !mult_IZR, plus_IZR in Hgt.
  apply IZR_le in Ha, Hb. destruct sqrt2_bounds as [Hs H2].
  destruct (Rlt_dec ((sqrt 2 - 1) * IZR a) (IZR b)) as [Hlt|Hge];
    [exact Hlt | exfalso].
  assert (H1 : IZR a + IZR b <= sqrt 2 * IZR a) by lra.
  assert (H0 : 0 <= IZR a + IZR b) by lra.
  pose proof (Rmult_le_compat _ _ _ _ H0 H0 H1 H1). nra.
Qed.
End Bridge.

Lemma IZR_abs_pos (z : Z) : (0 < z)%Z -> IZR (Z.abs z) = IZR z.
Proof. intros H. now rewrite Z.abs_eq by lia. Qed.

Lemma IZR_abs_neg (z : Z) : (z < 0)%Z -> IZR (Z.abs z) = - IZR z.
Proof. intros H. rewrite Z.abs_neq by lia. apply opp_IZR. Qed.

(** [calculateSnapAngle] on the grid is decided by integer arithmetic. *)
Lemma snapRawAngle_exact (dx dy : Z) :
  snapRawAngle (rawAngleOf dx dy) = snapVector dx dy.
Proof.
  unfold snapVector, rawAngleOf.
  pose proof (Z.abs_nonneg dx) as Hax. pose proof (Z.abs_nonneg dy) as Hay.
  rewrite <- (Z.abs_square dx), <- (Z.abs_square dy).
  destruct (Z.ltb_spec ((Z.abs dx + Z.abs dy) * (Z.abs dx + Z.abs dy))
                       (2 * (Z.abs dx * Z.abs dx))) as [Hh|Hh].
  - (* the horizontal axis *)
    pose proof (below_eighth_Z _ _ Hax Hay Hh) as Hb.
    rewrite abs_IZR in Hb.
    destruct (Z.ltb_spec 0 dx) as [Hx|Hx].
    + rewrite IZR_abs_pos in Hb by exact Hx.
      apply snap_real_EAST; [apply IZR_lt; exact Hx | exact Hb].
    + assert (Hneg : (dx < 0)%Z) by nia.
      rewrite IZR_abs_neg in Hb by exact Hneg.
      apply snap_real_WEST; [apply IZR_lt; exact Hneg | exact Hb].
  - destruct (Z.ltb_spec ((Z.abs dx + Z.abs dy) * (Z.abs dx + Z.abs dy))
                         (2 * (Z.abs dy * Z.abs dy))) as [Hv|Hv].
    + (* the vertical axis *)
      rewrite (Z.add_comm (Z.abs dx)) in Hv.
      pose proof (below_eighth_Z _ _ Hay Hax Hv) as Hb.
      rewrite abs_IZR in Hb.
      destruct (Z.ltb_spec 0 dy) as [Hy|Hy].
      * rewrite IZR_abs_pos in Hb by exact Hy.
        apply snap_real_SOUTH; [apply IZR_lt; exact Hy | exact Hb].
      * assert (Hneg : (dy < 0)%Z) by nia.
        rewrite IZR_abs_neg in Hb by exact Hneg.
        apply snap_real_NORTH; [apply IZR_lt; exact Hneg | exact Hb].
    + destruct (Z.eq_dec dx 0) as [Hx0|Hx0].
      * (* only the null vector has a null [dx] here *)
        assert (Hy0 : dy = 0%Z) by (subst dx; rewrite Z.abs_0 in Hv; nia).
        subst dx dy. simpl. rewrite atan2_origin.
        apply snapRawAngle_EAST. unfold Rdiv. rewrite !Rmult_0_l. lra.
      * (* a diagonal *)
        assert (Hd1 : (sqrt 2 - 1) * IZR (Z.abs dx) < IZR (Z.abs dy)).
        { apply above_eighth_Z; [exact Hax | exact Hay | left; lia | lia]. }
        assert (Hd2 : (sqrt 2 - 1) * IZR (Z.abs dy) < IZR (Z.abs dx)).
        { apply above_eighth_Z; [exact Hay | exact Hax | right; lia |].
          rewrite (Z.add_comm (Z.abs dy)). lia. }
        assert (Hy0 : dy <> 0%Z).
        { intros ->. simpl in Hd1. destruct sqrt2_bounds as [Hs _].
          assert (0 < IZR (Z.abs dx)) by (apply IZR_lt; lia). nra. }
        destruct (Z.ltb_spec 0 dx) as [Hx|Hx];
          [|destruct (Z.ltb_spec dx 0) as [Hx'|Hx']; [|lia]];
          (destruct (Z.ltb_spec 0 dy) as [Hy|Hy];
           [|assert (Hy' : (dy < 0)%Z) by lia]).
        -- rewrite (IZR_abs_pos dx), (IZR_abs_pos dy) in Hd1, Hd2 by assumption.
           apply snap_real_SOUTHEAST; try (apply IZR_lt; assumption); assumption.
        -- rewrite (IZR_abs_pos dx), (IZR_abs_neg dy) in Hd1, Hd2 by assumption.
           apply snap_real_NORTHEAST; try (apply IZR_lt; assumption); assumption.
        -- rewrite (IZR_abs_neg dx), (IZR_abs_pos dy) in Hd1, Hd2 by assumption.
           apply snap_real_SOUTHWEST; try (apply IZR_lt; assumption); assumption.
        -- rewrite (IZR_abs_neg dx), (IZR_abs_neg dy) in Hd1, Hd2 by assumption.
           apply snap_real_NORTHWEST; try (apply IZR_lt; assumption); assumption.
Qed.

Lemma calculateSnapAngle_exact (from to : Station) :
  calculateSnapAngle from to
  = snapVector (vertexX to - vertexX from) (vertexY to - vertexY from).
Proof. unfold calculateSnapAngle. apply snapRawAngle_exact. Qed.

End GridFacts.

(** ** The router *)

Module RouterFacts.

Import JsMath LinePath Notions AngleFacts SnapFacts EighthTurn RawAngleFacts
       GridFacts.

Lemma generateWaypoints_straight (from to : Station) (d : Direction) :
  generateWaypoints from to d d = [stationStart from d; stationEnd to d].
Proof.
  unfold generateWaypoints. destruct (Direction_eq_dec d d); [reflexivity|].
  congruence.
Qed.

Lemma generateWaypoints_bend (from to : Station) (e t : Direction) :
  e <> t ->
  generateWaypoints from to e t
  = [stationStart from e;
     mkWaypoint (fst (calculateOptimalBendPosition from to e t))
                (snd (calculateOptimalBendPosition from to e t))
                BEND (Some e) (Some t);
     stationEnd to t].
Proof.
  intros H. unfold generateWaypoints.
  destruct (Direction_eq_dec e t); [congruence | reflexivity].
Qed.

Lemma segment_without_entry (from to : Station) :
  calculateSegmentPath from to None
  = mkLineSegment from to (calculateSnapAngle from to)
      (calculateSnapAngle from to)
      [stationStart from (calculateSnapAngle from to);
       stationEnd to (calculateSnapAngle from to)].
Proof.
  unfold calculateSegmentPath. now rewrite generateWaypoints_straight.
Qed.

(** What [snapVector] answers tells where the vector lies. *)
Lemma snapVector_region (dx dy : Z) :
  match snapVector dx dy with
  | EAST => (dx = 0 /\ dy = 0) \/ (0 < dx /\ Z.abs dy < dx)
  | WEST => dx < 0 /\ Z.abs dy < - dx
  | SOUTH => 0 < dy /\ Z.abs dx < dy
  | NORTH => dy < 0 /\ Z.abs dx < - dy
  | SOUTHEAST => 0 < dx /\ 0 < dy
  | NORTHEAST => 0 < dx /\ dy < 0
  | SOUTHWEST => dx < 0 /\ 0 < dy
  | NORTHWEST => dx < 0 /\ dy < 0
  end%Z.
Proof.
  unfold snapVector.
  repeat match goal with
         | |- context [Z.ltb ?a ?b] => destruct (Z.ltb_spec a b)
         end; nia.
Qed.

(** On a row, a column or a diagonal the snapped direction is the
    direction of the vector itself. *)
Lemma snapVector_aligned (dx dy : Z) :
  (dx <> 0 \/ dy <> 0)%Z ->
  (dx = 0 \/ dy = 0 \/ Z.abs dx = Z.abs dy)%Z ->
  exists k : Z,
    (0 < k)%Z /\
    dx = (k * LinePath.dx (DIRECTION_VECTORS (snapVector dx dy)))%Z /\
    dy = (k * LinePath.dy (DIRECTION_VECTORS (snapVector dx dy)))%Z.
Proof.
  intros Hnz Hal. exists (Z.max (Z.abs dx) (Z.abs dy)).
  unfold snapVector.
  repeat match goal with
         | |- context [Z.ltb ?a ?b] => destruct (Z.ltb_spec a b)
         end; simpl; nia.
Qed.

(** *** Totality *)

(** C1, as amended: [routeSegment] never raises.  For every pair of
    stations, distinct or identical, and every entry direction the call
    returns the segment computed by [calculateSegmentPath], whose endpoints
    are the two stations and whose exit angle is the snapped direct angle;
    there is no [DegenerateInputError].  For identical stations the direct
    angle is EAST (the raw angle of the null vector is 0), and without an
    entry constraint the result is the two STATION waypoints at that
    point. *)
Theorem routeSegment_always_returns (from to : Station) (entry : option Direction) :
  routeSegment from to entry = Returns (calculateSegmentPath from to entry) /\
  routeSegment from to entry <> Raises DegenerateInputError /\
  fromStation (calculateSegmentPath from to entry) = from /\
  toStation (calculateSegmentPath from to entry) = to /\
  exitAngle (calculateSegmentPath from to entry) = calculateSnapAngle from to /\
  calculateSegmentPath from from None
  = mkLineSegment from from EAST EAST
      [stationStart from EAST; stationEnd from EAST].
Proof.
  repeat split; try reflexivity; try discriminate.
  rewrite segment_without_entry.
  assert (Hs : calculateSnapAngle from from = EAST).
  { rewrite calculateSnapAngle_exact, !Z.sub_diag. reflexivity. }
  now rewrite Hs.
Qed.

(** C1, the claim as stated fails: routing a station to itself returns a
    segment, it does not raise [DegenerateInputError]. *)
Lemma routeSegment_same_station_returns :
  routeSegment (mkStation 3 3) (mkStation 3 3) None
  = Returns (mkLineSegment (mkStation 3 3) (mkStation 3 3) EAST EAST
               [stationStart (mkStation 3 3) EAST;
                stationEnd (mkStation 3 3) EAST]) /\
  ~ (routeSegment (mkStation 3 3) (mkStation 3 3) None
     = Raises DegenerateInputError).
Proof.
  split; [|discriminate].
  unfold routeSegment. f_equal.
  rewrite segment_without_entry, calculateSnapAngle_exact. reflexivity.
Qed.

(** *** Translation *)

(** C10: the snapped direction of a pair of stations does not change when
    both stations are moved by the same vector. *)
Theorem calculateSnapAngle_translation (a b : Station) (vx vy : Z) :
  calculateSnapAngle (translate a vx vy) (translate b vx vy)
  = calculateSnapAngle a b.
Proof.
  unfold calculateSnapAngle, translate. simpl.
  replace (vertexX b + vx - (vertexX a + vx))%Z
    with (vertexX b - vertexX a)%Z by ring.
  replace (vertexY b + vy - (vertexY a + vy))%Z
    with (vertexY b - vertexY a)%Z by ring.
  reflexivity.
Qed.

(** Between distinct aligned stations the step points along the snapped
    direction. *)
Lemma aligned_step_along_snap (from to : Station) :
  from <> to -> aligned from to ->
  alongDirection (calculateSnapAngle from to)
    (stationStart from (calculateSnapAngle from to))
    (stationEnd to (calculateSnapAngle from to)).
Proof.
  intros Hne Hal. rewrite calculateSnapAngle_exact.
  destruct (snapVector_aligned (vertexX to - vertexX from)
                               (vertexY to - vertexY from))
    as (k & Hk & Hx & Hy).
  - destruct from as [fx fy], to as [tx ty]. simpl.
    destruct (Z.eq_dec tx fx) as [->|]; [|lia].
    destruct (Z.eq_dec ty fy) as [->|]; [|lia].
    now contradiction Hne.
  - unfold aligned in Hal. lia.
  - exists (IZR k). split; [apply IZR_lt; exact Hk|].
    simpl x. simpl y.
    rewrite <- !minus_IZR, <- !mult_IZR. now rewrite <- Hx, <- Hy.
Qed.

(** *** Aligned stations *)

(** C3: two distinct stations on a common column, row or diagonal, routed
    without an entry constraint, give exactly two waypoints, both STATION
    and no BEND; the direction recorded on both is the direction of the
    step from the first station to the second.  For (0,0) and (0,5) the
    segment is straight with direction SOUTH throughout. *)
Theorem aligned_route_is_straight :
  (forall from to : Station,
     from <> to -> aligned from to ->
     exists d : Direction,
       calculateSegmentPath from to None
       = mkLineSegment from to d d [stationStart from d; stationEnd to d] /\
       length (waypoints (calculateSegmentPath from to None)) = 2%nat /\
       Forall (fun w => type w = STATION)
              (waypoints (calculateSegmentPath from to None)) /\
       alongDirection d (stationStart from d) (stationEnd to d)) /\
  calculateSegmentPath (mkStation 0 0) (mkStation 0 5) None
  = mkLineSegment (mkStation 0 0) (mkStation 0 5) SOUTH SOUTH
      [stationStart (mkStation 0 0) SOUTH; stationEnd (mkStation 0 5) SOUTH].
Proof.
  split.
  - intros from to Hne Hal.
    exists (calculateSnapAngle from to).
    rewrite segment_without_entry. simpl waypoints.
    split; [reflexivity|]. split; [reflexivity|].
    split; [repeat constructor|].
    apply aligned_step_along_snap; assumption.
  - rewrite segment_without_entry, calculateSnapAngle_exact. reflexivity.
Qed.

Lemma aligned_route_is_straight_witness :
  exists d : Direction,
    calculateSegmentPath (mkStation 2 7) (mkStation 5 4) None
    = mkLineSegment (mkStation 2 7) (mkStation 5 4) d d
        [stationStart (mkStation 2 7) d; stationEnd (mkStation 5 4) d] /\
    length (waypoints (calculateSegmentPath (mkStation 2 7) (mkStation 5 4) None))
    = 2%nat /\
    Forall (fun w => type w = STATION)
           (waypoints (calculateSegmentPath (mkStation 2 7) (mkStation 5 4) None)) /\
    alongDirection d (stationStart (mkStation 2 7) d)
                   (stationEnd (mkStation 5 4) d).
Proof.
  apply (proj1 aligned_route_is_straight (mkStation 2 7) (mkStation 5 4)).
  - discriminate.
  - unfold aligned. simpl. right. right. reflexivity.
Defined.

(** *** The worked example of the routing notes *)

Lemma not_along_EAST_with_rise (a b : Waypoint) :
  y b - y a <> 0 -> ~ alongDirection EAST a b.
Proof.
  intros Hy (k & _ & _ & Hky). simpl in Hky. lra.
Qed.

(** C4, what the code does at the worked example: stations (0,10) and
    (14,14) without an entry constraint are joined by two STATION waypoints
    with direction EAST on both and no BEND, although the step from the
    first to the second is not along EAST; the route of the claim, through
    the knee (4,14) with SOUTHEAST then EAST, is the one whose pieces run
    along their directions. *)
Theorem worked_example_has_no_knee :
  calculateSegmentPath (mkStation 0 10) (mkStation 14 14) None
  = mkLineSegment (mkStation 0 10) (mkStation 14 14) EAST EAST
      [stationStart (mkStation 0 10) EAST; stationEnd (mkStation 14 14) EAST] /\
  Forall (fun w => type w <> BEND)
         (waypoints (calculateSegmentPath (mkStation 0 10) (mkStation 14 14) None)) /\
  ~ consecutiveColinear
      (waypoints (calculateSegmentPath (mkStation 0 10) (mkStation 14 14) None)) /\
  consecutiveColinear
    [stationStart (mkStation 0 10) SOUTHEAST;
     mkWaypoint 4 14 BEND (Some SOUTHEAST) (Some EAST);
     stationEnd (mkStation 14 14) EAST].
Proof.
  assert (Hseg : calculateSegmentPath (mkStation 0 10) (mkStation 14 14) None
                 = mkLineSegment (mkStation 0 10) (mkStation 14 14) EAST EAST
                     [stationStart (mkStation 0 10) EAST;
                      stationEnd (mkStation 14 14) EAST]).
  { rewrite segment_without_entry, calculateSnapAngle_exact. reflexivity. }
  split; [exact Hseg|]. rewrite Hseg. simpl waypoints.
  split; [|split].
  - repeat constructor; discriminate.
  - intros Hcol.
    destruct (Hcol 0%nat _ _ eq_refl eq_refl) as (d & Hout & _ & Halong).
    inversion Hout; subst d.
    revert Halong. apply not_along_EAST_with_rise. simpl. lra.
  - intros i a b Ha Hb.
    destruct i as [|[|[|i]]]; cbn [nth_error] in Ha, Hb; try discriminate;
      try (destruct i; discriminate);
      inversion Ha; inversion Hb; subst a b.
    + exists SOUTHEAST. split; [reflexivity|]. split; [reflexivity|].
      exists 4. simpl. repeat split; lra.
    + exists EAST. split; [reflexivity|]. split; [reflexivity|].
      exists 10. simpl. repeat split; lra.
Qed.

(** *** Turning angles *)

(** The normalised difference of two distinct direction values is a
    non-zero multiple of 45 degrees between -180 and 180. *)
Lemma angleDifference_of_directions (o i : Direction) :
  o <> i ->
  let t := angleDifference (angleOf o) (angleOf i) in
  t = 45 \/ t = -45 \/ t = 90 \/ t = -90 \/
  t = 135 \/ t = -135 \/ t = 180 \/ t = -180.
Proof.
  intros Hne t. subst t.
  destruct o, i; try congruence; unfold angleOf, degrees;
    first [ rewrite angleDifference_plain by lra
          | rewrite angleDifference_wrap_up by lra
          | rewrite angleDifference_wrap_down by lra ];
    lra.
Qed.

(** C2, as amended: a BEND waypoint is emitted only when an entry direction
    is given that differs from the snapped direct direction; it is then the
    only waypoint between the two stations (turns are not decomposed into
    several knees), its incoming direction is the entry direction and its
    outgoing direction the direct one, and its normalised turning angle is
    a non-zero multiple of 45 degrees of magnitude at most 180: 45, -45, 90,
    -90, 135, -135, 180 or -180. *)
Theorem bend_turns_from_entry_to_direct
  (from to : Station) (entry : option Direction) (w : Waypoint) :
  In w (waypoints (calculateSegmentPath from to entry)) ->
  type w = BEND ->
  exists e : Direction,
    entry = Some e /\
    e <> calculateSnapAngle from to /\
    incomingAngle w = Some e /\
    outgoingAngle w = Some (calculateSnapAngle from to) /\
    waypoints (calculateSegmentPath from to entry)
    = [stationStart from e; w; stationEnd to (calculateSnapAngle from to)] /\
    exists t : R,
      turningAngle w = Some t /\
      (t = 45 \/ t = -45 \/ t = 90 \/ t = -90 \/
       t = 135 \/ t = -135 \/ t = 180 \/ t = -180).
Proof.
  intros Hin Hbend. unfold calculateSegmentPath in *. simpl waypoints in *.
  set (direct := calculateSnapAngle from to) in *.
  destruct entry as [e|].
  - destruct (Direction_eq_dec e direct) as [Heq|Hne].
    + subst e. rewrite generateWaypoints_straight in Hin.
      destruct Hin as [<-|[<-|[]]]; discriminate.
    + rewrite generateWaypoints_bend in * by exact Hne.
      destruct Hin as [<-|[<-|[<-|[]]]]; try discriminate.
      exists e. repeat split; try assumption.
      eexists. split; [reflexivity|].
      apply angleDifference_of_directions. congruence.
  - rewrite generateWaypoints_straight in Hin.
    destruct Hin as [<-|[<-|[]]]; discriminate.
Qed.

Lemma bend_turns_from_entry_to_direct_witness :
  exists e : Direction,
    Some SOUTH = Some e /\
    e <> calculateSnapAngle (mkStation 0 0) (mkStation 6 0) /\
    incomingAngle
      (nth 1 (waypoints (calculateSegmentPath (mkStation 0 0) (mkStation 6 0)
                           (Some SOUTH)))
           (stationStart (mkStation 0 0) SOUTH)) = Some e /\
    outgoingAngle
      (nth 1 (waypoints (calculateSegmentPath (mkStation 0 0) (mkStation 6 0)
                           (Some SOUTH)))
           (stationStart (mkStation 0 0) SOUTH))
    = Some (calculateSnapAngle (mkStation 0 0) (mkStation 6 0)) /\
    waypoints (calculateSegmentPath (mkStation 0 0) (mkStation 6 0) (Some SOUTH))
    = [stationStart (mkStation 0 0) e;
       nth 1 (waypoints (calculateSegmentPath (mkStation 0 0) (mkStation 6 0)
                           (Some SOUTH)))
           (stationStart (mkStation 0 0) SOUTH);
       stationEnd (mkStation 6 0)
                  (calculateSnapAngle (mkStation 0 0) (mkStation 6 0))] /\
    exists t : R,
      turningAngle
        (nth 1 (waypoints (calculateSegmentPath (mkStation 0 0) (mkStation 6 0)
                             (Some SOUTH)))
             (stationStart (mkStation 0 0) SOUTH)) = Some t /\
      (t = 45 \/ t = -45 \/ t = 90 \/ t = -90 \/
       t = 135 \/ t = -135 \/ t = 180 \/ t = -180).
Proof.
  assert (Hs : calculateSnapAngle (mkStation 0 0) (mkStation 6 0) = EAST)
    by (rewrite calculateSnapAngle_exact; reflexivity).
  apply (bend_turns_from_entry_to_direct (mkStation 0 0) (mkStation 6 0)
           (Some SOUTH)).
  - unfold calculateSegmentPath. rewrite Hs. simpl. right. left. reflexivity.
  - unfold calculateSegmentPath. rewrite Hs. reflexivity.
Defined.

(** C2, the claim as stated fails: entering (0,0) eastwards with the next
    station due west at (-5,0), the one BEND emitted turns from EAST to
    WEST, a turning angle of 180 degrees in a single knee. *)
Lemma single_knee_reversal :
  exists w : Waypoint,
    In w (waypoints (calculateSegmentPath (mkStation 0 0) (mkStation (-5) 0)
                       (Some EAST))) /\
    type w = BEND /\
    turningAngle w = Some 180 /\
    length (waypoints (calculateSegmentPath (mkStation 0 0) (mkStation (-5) 0)
                         (Some EAST))) = 3%nat /\
    ~ (exists t : R,
         turningAngle w = Some t /\
         (t = 45 \/ t = -45 \/ t = 90 \/ t = -90)).
Proof.
  assert (Hs : calculateSnapAngle (mkStation 0 0) (mkStation (-5) 0) = WEST)
    by (rewrite calculateSnapAngle_exact; reflexivity).
  unfold calculateSegmentPath. rewrite Hs.
  rewrite generateWaypoints_bend by discriminate. simpl waypoints.
  eexists. split; [right; left; reflexivity|].
  assert (Ht : angleDifference (angleOf WEST) (angleOf EAST) = 180).
  { unfold angleOf, degrees. rewrite angleDifference_plain by lra. lra. }
  split; [reflexivity|].
  change (turningAngle _)
    with (Some (angleDifference (angleOf WEST) (angleOf EAST))).
  rewrite Ht.
  split; [reflexivity|]. split; [reflexivity|].
  intros (t & Heq & Hcases). inversion Heq as [Ht']. lra.
Qed.

End RouterFacts.

(** ** The angle snapper *)

Module SnapperFacts.

Import JsMath LinePath Notions AngleFacts SnapFacts EighthTurn RawAngleFacts
       GridFacts.

(** The raw angles at distance 22.5 from a direction. *)
Lemma tie_raw_angles (raw : R) (d : Direction) :
  -180 <= raw <= 180 ->
  wrapDistance raw d = 45 / 2 ->
  match d with
  | EAST => raw = - (45 / 2) \/ raw = 45 / 2
  | SOUTHEAST => raw = 45 / 2 \/ raw = 135 / 2
  | SOUTH => raw = 135 / 2 \/ raw = 225 / 2
  | SOUTHWEST => raw = 225 / 2 \/ raw = 315 / 2
  | WEST => raw = 315 / 2 \/ raw = - (315 / 2)
  | NORTHWEST => raw = - (315 / 2) \/ raw = - (225 / 2)
  | NORTH => raw = - (225 / 2) \/ raw = - (135 / 2)
  | NORTHEAST => raw = - (135 / 2) \/ raw = - (45 / 2)
  end.
Proof.
  intros Hr Ht.
  destruct (wrapDistance_cases raw d Hr) as [[Hc Hw]|[Hc Hw]];
    rewrite Hw in Ht; clear Hw;
    unfold Rabs in Ht; destruct (Rcase_abs _) as [Hs|Hs] in Ht;
    destruct d; unfold angleOf, degrees in *;
    first [ left; lra | right; lra | exfalso; lra ].
Qed.

(** C5: the snapped direction of a vector between two distinct stations is
    at the least angular distance from the raw angle of the vector (its
    polar angle in degrees, in (-180, 180]), the distance being the
    difference wrapped into [[-180, 180]] by whole turns;
    and whenever the raw angle is at exactly 22.5 degrees from two
    directions, the loop answers the one with the lower value. *)
Theorem snap_nearest_with_lowest_tie :
  (forall from to : Station,
     from <> to ->
     let rawAngle := rawAngleOf (vertexX to - vertexX from)
                                (vertexY to - vertexY from) in
     calculateSnapAngle from to = snapRawAngle rawAngle /\
     -180 < rawAngle <= 180 /\
     IZR (vertexX to - vertexX from)
     = directDistance from to * cos (rawAngle * PI / 180) /\
     IZR (vertexY to - vertexY from)
     = directDistance from to * sin (rawAngle * PI / 180) /\
     forall d : Direction,
       wrapDistance rawAngle (calculateSnapAngle from to)
       <= wrapDistance rawAngle d) /\
  (forall (rawAngle : R) (d : Direction),
     -180 <= angleDifference rawAngle (angleOf d) <= 180 /\
     exists k : Z,
       angleDifference rawAngle (angleOf d)
       = rawAngle - angleOf d + 360 * IZR k) /\
  (forall (rawAngle : R) (d1 d2 : Direction),
     -180 <= rawAngle <= 180 ->
     d1 <> d2 ->
     wrapDistance rawAngle d1 = 45 / 2 ->
     wrapDistance rawAngle d2 = 45 / 2 ->
     snapRawAngle rawAngle
     = if (degrees d1 <? degrees d2)%Z then d1 else d2).
Proof.
  split; [|split].
  - intros from to _ rawAngle. split; [reflexivity|].
    split; [apply rawAngleOf_bound|].
    assert (Hrad : rawAngle * PI / 180
                   = atan2 (IZR (vertexY to - vertexY from))
                           (IZR (vertexX to - vertexX from))).
    { subst rawAngle. unfold rawAngleOf. field. apply Rgt_not_eq, PI_RGT_0. }
    rewrite Hrad. unfold directDistance. rewrite <- !minus_IZR.
    split; [apply atan2_polar|]. split; [apply atan2_polar|].
    intros d. apply snapRawAngle_least.
  - intros rawAngle d. split.
    + apply angleDifference_range.
    + apply angleDifference_turns.
  - intros rawAngle d1 d2 Hr Hne H1 H2.
    pose proof (tie_raw_angles rawAngle d1 Hr H1) as T1.
    pose proof (tie_raw_angles rawAngle d2 Hr H2) as T2.
    destruct d1, d2; try congruence; simpl;
      destruct T1 as [T1|T1], T2 as [T2|T2]; try (exfalso; lra);
      first [ apply snapRawAngle_EAST; lra
            | apply snapRawAngle_SOUTHEAST; lra
            | apply snapRawAngle_SOUTH; lra
            | apply snapRawAngle_SOUTHWEST; lra
            | apply snapRawAngle_WEST_upper; lra
            | apply snapRawAngle_WEST_lower; lra
            | apply snapRawAngle_NORTHWEST; lra
            | apply snapRawAngle_NORTH; lra
            | apply snapRawAngle_NORTHEAST; lra ].
Qed.

Lemma snap_nearest_with_lowest_tie_witness :
  snapRawAngle (45 / 2) = EAST /\
  snapRawAngle (- (45 / 2)) = EAST /\
  forall d : Direction,
    wrapDistance (rawAngleOf (3 - 0) (2 - 0))
                 (calculateSnapAngle (mkStation 0 0) (mkStation 3 2))
    <= wrapDistance (rawAngleOf (3 - 0) (2 - 0)) d.
Proof.
  destruct snap_nearest_with_lowest_tie as (Hnear & _ & Htie).
  assert (He : forall r, -180 <= r <= 180 -> wrapDistance r EAST = Rabs r).
  { intros r Hr. unfold wrapDistance, angleOf, degrees.
    rewrite angleDifference_plain by lra. f_equal. lra. }
  split; [|split].
  - apply (Htie (45 / 2) EAST SOUTHEAST).
    + lra.
    + discriminate.
    + rewrite He by lra. apply Rabs_pos_eq. lra.
    + unfold wrapDistance, angleOf, degrees.
      rewrite angleDifference_plain by lra. rewrite Rabs_left by lra. lra.
  - apply (Htie (- (45 / 2)) EAST NORTHEAST).
    + lra.
    + discriminate.
    + rewrite He by lra. rewrite Rabs_left by lra. lra.
    + unfold wrapDistance, angleOf, degrees.
      rewrite angleDifference_wrap_up by lra. rewrite Rabs_pos_eq by lra. lra.
  - apply (Hnear (mkStation 0 0) (mkStation 3 2)). discriminate.
Defined.

End SnapperFacts.

(** ** The knee of a single bend *)

Module BendFacts.

Import JsMath LinePath Notions AngleFacts SnapFacts EighthTurn RawAngleFacts
       GridFacts.

Lemma sum_of_squares_nonneg (p q : R) : 0 <= p * p + q * q.
Proof. nra. Qed.

(** Squaring [a + b = 2 c]. *)
Lemma double_sum_squared (A B C : R) :
  0 <= A -> 0 <= B -> 0 <= C ->
  sqrt A + sqrt B = 2 * sqrt C ->
  2 * (sqrt A * sqrt B) = 4 * C - A - B.
Proof.
  intros HA HB HC H.
  pose proof (sqrt_sqrt A HA). pose proof (sqrt_sqrt B HB).
  pose proof (sqrt_sqrt C HC).
  assert ((sqrt A + sqrt B) * (sqrt A + sqrt B) = (2 * sqrt C) * (2 * sqrt C))
    by (now rewrite H).
  nra.
Qed.

Section Detour.
Variables T S D n1 n2 k : Z.
Hypothesis HD : D <> 0%Z.
Hypothesis Hn1 : (1 <= n1)%Z.
Hypothesis Hn2 : (1 <= n2)%Z.

Let t1 := IZR T / IZR D.
Let t2 := IZR S / IZR D.
Let A := t1 * t1 * IZR n1.
Let B := t2 * t2 * IZR n2.
Let C := A + B + 2 * (t1 * t2 * IZR k).

Hypothesis HC : 0 <= C.
Hypothesis Ht1 : 1 / 2 <= t1.

Lemma squares_nonneg : 0 <= A /\ 0 <= B.
Proof.
  apply IZR_le in Hn1, Hn2. subst A B. split; apply Rmult_le_pos; nra.
Qed.

Lemma detour_not_double_perpendicular :
  k = 0%Z -> sqrt A + sqrt B <> 2 * sqrt C.
Proof.
  intros Hk Heq. destruct squares_nonneg as [HA HB].
  pose proof (double_sum_squared A B C HA HB HC Heq) as Hsq.
  assert (HCeq : C = A + B) by (subst C; rewrite Hk; lra).
  pose proof (sqrt_sqrt A HA). pose proof (sqrt_sqrt B HB).
  pose proof (sqrt_pos A). pose proof (sqrt_pos B).
  assert (HA0 : A = 0) by nra.
  apply IZR_le in Hn1. subst A. nra.
Qed.

Lemma detour_not_double_mixed :
  (n1 * n2 = 2)%Z -> sqrt A + sqrt B <> 2 * sqrt C.
Proof.
  intros Hmix Heq. destruct squares_nonneg as [HA HB].
  pose proof (double_sum_squared A B C HA HB HC Heq) as Hsq.
  assert (HDr : IZR D <> 0) by (now apply not_0_IZR).
  assert (Hprod : sqrt A * sqrt B = Rabs (t1 * t2) * sqrt 2).
  { rewrite <- sqrt_mult by assumption.
    replace (A * B) with ((t1 * t2) * (t1 * t2) * IZR (n1 * n2))
      by (subst A B; rewrite mult_IZR; ring).
    rewrite Hmix, sqrt_mult; [|nra|lra].
    f_equal. apply sqrt_Rsqr_abs. }
  rewrite Hprod in Hsq.
  set (M := (3 * (T * T * n1) + 3 * (S * S * n2) + 8 * (T * S * k))%Z).
  assert (HM : 2 * IZR (Z.abs (T * S)) * sqrt 2 = IZR M).
  { subst M. rewrite !plus_IZR, !mult_IZR, abs_IZR, mult_IZR.
    assert (Hq : Rabs (t1 * t2) * (IZR D * IZR D) = Rabs (IZR T * IZR S)).
    { replace (IZR D * IZR D) with (Rabs (IZR D * IZR D))
        by (apply Rabs_pos_eq; nra).
      rewrite <- Rabs_mult. f_equal. subst t1 t2. field. exact HDr. }
    rewrite <- Hq.
    replace (2 * (Rabs (t1 * t2) * (IZR D * IZR D)) * sqrt 2)
      with (2 * (Rabs (t1 * t2) * sqrt 2) * (IZR D * IZR D)) by ring.
    rewrite Hsq. subst C A B t1 t2. field. exact HDr. }
  assert (HZ : (M * M = 2 * ((2 * Z.abs (T * S)) * (2 * Z.abs (T * S))))%Z).
  { apply eq_IZR. rewrite !mult_IZR, <- HM.
    pose proof (sqrt_sqrt 2 ltac:(lra)). nra. }
  apply no_square_is_twice_a_square in HZ.
  assert (HTS : (T * S = 0)%Z) by lia.
  assert (HM0 : IZR M = 0).
  { rewrite <- HM, HTS. simpl. lra. }
  apply eq_IZR in HM0. unfold M in HM0. rewrite HTS in HM0.
  assert (T * T <= T * T * n1)%Z by nia.
  assert (0 <= S * S * n2)%Z by nia.
  assert (HT : T = 0%Z) by nia.
  subst t1. rewrite HT in Ht1. unfold Rdiv in Ht1. rewrite Rmult_0_l in Ht1. lra.
Qed.
End Detour.

Lemma calculateOptimalBendPosition_tests
  (from to : Station) (angle1 angle2 : Direction) :
  calculateOptimalBendPosition from to angle1 angle2
  = if Rlt_dec (Rabs (bendDeterminant angle1 angle2)) (1 / 10000)
    then midpoint from to
    else if Rlt_dec (forwardParameter from to angle1 angle2) (1 / 2)
         then midpoint from to
         else if Rlt_dec
                   (detour from to (rayIntersection from to angle1 angle2))
                   (directDistance from to * 2)
              then rayIntersection from to angle1 angle2
              else midpoint from to.
Proof.
  unfold calculateOptimalBendPosition, solveLineIntersection.
  fold (bendDeterminant angle1 angle2).
  destruct (Rlt_dec (Rabs (bendDeterminant angle1 angle2)) (1 / 10000));
    [reflexivity|].
  fold (forwardParameter from to angle1 angle2).
  destruct (Rlt_dec (forwardParameter from to angle1 angle2) (1 / 2));
    reflexivity.
Qed.

(** The integer quantities behind the reals of the knee computation. *)
Section KneeIntegers.
Variables (from to : Station) (angle1 angle2 : Direction).

Let a := dx (DIRECTION_VECTORS angle1).
Let b := dy (DIRECTION_VECTORS angle1).
Let c := dx (DIRECTION_VECTORS angle2).
Let d := dy (DIRECTION_VECTORS angle2).
Let u := (vertexX to - vertexX from)%Z.
Let v := (vertexY to - vertexY from)%Z.

Let D := (a * - d - b * - c)%Z.
Let T := (u * - d - v * - c)%Z.
Let S := (u * b - v * a)%Z.

Lemma bendDeterminant_integer : bendDeterminant angle1 angle2 = IZR D.
Proof.
  unfold bendDeterminant. subst D a b c d.
  rewrite minus_IZR, !mult_IZR, !opp_IZR. reflexivity.
Qed.

Lemma forwardParameter_quotient :
  forwardParameter from to angle1 angle2 = IZR T / IZR D.
Proof.
  unfold forwardParameter. rewrite bendDeterminant_integer.
  subst T u v c d. rewrite !minus_IZR, !mult_IZR, !opp_IZR, !minus_IZR.
  reflexivity.
Qed.

Lemma backwardParameter_quotient :
  backwardParameter from to angle1 angle2 = IZR S / IZR D.
Proof.
  unfold backwardParameter. rewrite bendDeterminant_integer.
  subst S u v a b. rewrite !minus_IZR, !mult_IZR, !minus_IZR.
  reflexivity.
Qed.

(** Directions that are not parallel are perpendicular, or one of them is
    an axis and the other a diagonal. *)
Lemma direction_pair_class :
  (1 <= a * a + b * b)%Z /\ (1 <= c * c + d * d)%Z /\
  (D = 0 \/ a * c + b * d = 0 \/ (a * a + b * b) * (c * c + d * d) = 2)%Z.
Proof.
  subst D a b c d. destruct angle1, angle2; simpl; lia.
Qed.

Hypothesis Hdet : ~ Rabs (bendDeterminant angle1 angle2) < 1 / 10000.

Lemma determinant_not_null : D <> 0%Z.
Proof.
  intros H0. apply Hdet. rewrite bendDeterminant_integer, H0, Rabs_R0. lra.
Qed.

(** The intersection lies on both lines. *)
Lemma rayIntersection_on_backward_line :
  rayIntersection from to angle1 angle2
  = backwardPoint to angle2 (backwardParameter from to angle1 angle2).
Proof.
  pose proof determinant_not_null as HD. apply not_0_IZR in HD.
  unfold rayIntersection, backwardPoint.
  rewrite forwardParameter_quotient, backwardParameter_quotient.
  fold a b c d. subst T S D u v.
  rewrite !minus_IZR, !mult_IZR, !opp_IZR, !minus_IZR in *.
  f_equal; field; exact HD.
Qed.

Lemma detour_as_roots :
  detour from to (rayIntersection from to angle1 angle2)
  = sqrt (IZR T / IZR D * (IZR T / IZR D) * IZR (a * a + b * b))
    + sqrt (IZR S / IZR D * (IZR S / IZR D) * IZR (c * c + d * d)).
Proof.
  unfold detour. rewrite rayIntersection_on_backward_line at 3 4.
  unfold rayIntersection, backwardPoint, hypot. simpl fst. simpl snd.
  rewrite forwardParameter_quotient, backwardParameter_quotient.
  fold a b c d. rewrite !plus_IZR, !mult_IZR.
  f_equal; f_equal; ring.
Qed.

Lemma direct_square_as_sum :
  (IZR (vertexX to) - IZR (vertexX from))
  * (IZR (vertexX to) - IZR (vertexX from))
  + (IZR (vertexY to) - IZR (vertexY from))
    * (IZR (vertexY to) - IZR (vertexY from))
  = IZR T / IZR D * (IZR T / IZR D) * IZR (a * a + b * b)
    + IZR S / IZR D * (IZR S / IZR D) * IZR (c * c + d * d)
    + 2 * (IZR T / IZR D * (IZR S / IZR D) * IZR (a * c + b * d)).
Proof.
  pose proof determinant_not_null as HD. apply not_0_IZR in HD.
  subst T S D u v.
  rewrite !plus_IZR, !minus_IZR, !mult_IZR, !opp_IZR, !minus_IZR in *.
  field. exact HD.
Qed.

Lemma directDistance_as_root :
  directDistance from to
  = sqrt (IZR T / IZR D * (IZR T / IZR D) * IZR (a * a + b * b)
          + IZR S / IZR D * (IZR S / IZR D) * IZR (c * c + d * d)
          + 2 * (IZR T / IZR D * (IZR S / IZR D) * IZR (a * c + b * d))).
Proof.
  unfold directDistance, hypot. f_equal. apply direct_square_as_sum.
Qed.

Hypothesis Hfar : ~ forwardParameter from to angle1 angle2 < 1 / 2.

(** The detour through the intersection is never exactly twice the
    direct distance: on the grid that would make [sqrt 2] rational. *)
Lemma detour_not_double :
  detour from to (rayIntersection from to angle1 angle2)
  <> 2 * directDistance from to.
Proof.
  pose proof determinant_not_null as HD.
  destruct direction_pair_class as (Hn1 & Hn2 & [H0|[Hk|Hmix]]);
    [contradiction| |];
    rewrite detour_as_roots, directDistance_as_root.
  - apply detour_not_double_perpendicular; try assumption.
    + rewrite <- direct_square_as_sum. apply sum_of_squares_nonneg.
    + rewrite <- forwardParameter_quotient. lra.
  - apply detour_not_double_mixed; try assumption.
    + rewrite <- direct_square_as_sum. apply sum_of_squares_nonneg.
    + rewrite <- forwardParameter_quotient. lra.
Qed.
End KneeIntegers.

(** Where the vector between the stations lies, from the snapped
    direction. *)
Lemma calculateSnapAngle_region (from to : Station) :
  let U := IZR (vertexX to) - IZR (vertexX from) in
  let V := IZR (vertexY to) - IZR (vertexY from) in
  match calculateSnapAngle from to with
  | EAST => (U = 0 /\ V = 0) \/ (0 < U /\ - U < V < U)
  | WEST => U < 0 /\ U < V < - U
  | SOUTH => 0 < V /\ - V < U < V
  | NORTH => V < 0 /\ V < U < - V
  | SOUTHEAST => 0 < U /\ 0 < V
  | NORTHEAST => 0 < U /\ V < 0
  | SOUTHWEST => U < 0 /\ 0 < V
  | NORTHWEST => U < 0 /\ V < 0
  end.
Proof.
  intros U V. subst U V. rewrite <- !minus_IZR.
  rewrite calculateSnapAngle_exact.
  pose proof (RouterFacts.snapVector_region
                (vertexX to - vertexX from) (vertexY to - vertexY from)) as H.
  set (u := (vertexX to - vertexX from)%Z) in *.
  set (v := (vertexY to - vertexY from)%Z) in *.
  destruct (snapVector u v);
    rewrite <- ?opp_IZR;
    repeat match goal with
           | H : _ \/ _ |- _ => destruct H as [H|H]
           | H : _ /\ _ |- _ => destruct H
           end;
    try (left; split; apply IZR_eq; lia);
    try right; repeat split; apply IZR_lt; lia.
Qed.

(** Inside a routed segment the knee that is kept lies ahead of [to] on
    the backward ray: the direct direction is the snapped one, which rules
    out an intersection behind [to]. *)
Lemma backwardParameter_positive (from to : Station) (entry : Direction) :
  ~ Rabs (bendDeterminant entry (calculateSnapAngle from to)) < 1 / 10000 ->
  ~ forwardParameter from to entry (calculateSnapAngle from to) < 1 / 2 ->
  0 < backwardParameter from to entry (calculateSnapAngle from to).
Proof.
  intros Hdet Hfar.
  pose proof (calculateSnapAngle_region from to) as Hreg. simpl in Hreg.
  assert (Hne : bendDeterminant entry (calculateSnapAngle from to) <> 0).
  { rewrite bendDeterminant_integer. apply not_0_IZR.
    apply determinant_not_null. exact Hdet. }
  clear Hdet.
  set (t1 := forwardParameter from to entry (calculateSnapAngle from to)) in *.
  set (t2 := backwardParameter from to entry (calculateSnapAngle from to)).
  assert (E1 : t1 * bendDeterminant entry (calculateSnapAngle from to)
               = (IZR (vertexX to) - IZR (vertexX from))
                 * (- IZR (dy (DIRECTION_VECTORS (calculateSnapAngle from to))))
                 - (IZR (vertexY to) - IZR (vertexY from))
                   * (- IZR (dx (DIRECTION_VECTORS (calculateSnapAngle from to))))).
  { subst t1. unfold forwardParameter. field. exact Hne. }
  assert (E2 : t2 * bendDeterminant entry (calculateSnapAngle from to)
               = (IZR (vertexX to) - IZR (vertexX from))
                 * IZR (dy (DIRECTION_VECTORS entry))
                 - (IZR (vertexY to) - IZR (vertexY from))
                   * IZR (dx (DIRECTION_VECTORS entry))).
  { subst t2. unfold backwardParameter. field. exact Hne. }
  clearbody t1 t2. unfold bendDeterminant in *.
  set (U := IZR (vertexX to) - IZR (vertexX from)) in *.
  set (V := IZR (vertexY to) - IZR (vertexY from)) in *.
  clearbody U V.
  destruct (calculateSnapAngle from to), entry; simpl in *;
    try (exfalso; apply Hne; lra);
    repeat match goal with
           | H : _ \/ _ |- _ => destruct H
           | H : _ /\ _ |- _ => destruct H
           end;
    lra.
Qed.

Lemma sqrt_below (r bound : R) : 0 <= r -> 0 <= bound -> r < bound * bound -> sqrt r < bound.
Proof.
  intros Hr Hb Hlt. rewrite <- (sqrt_square bound Hb).
  apply sqrt_lt_1_alt. lra.
Qed.

Lemma sqrt_above (r bound : R) : 0 <= bound -> bound * bound < r -> bound < sqrt r.
Proof.
  intros Hb Hlt. rewrite <- (sqrt_square bound Hb) at 1.
  apply sqrt_lt_1_alt. split; [nra | exact Hlt].
Qed.

(** The worked case of the rendering notes: from (0,0) to (3,2), entered
    eastwards. *)
Lemma example_forwardParameter :
  forwardParameter (mkStation 0 0) (mkStation 3 2) EAST SOUTHEAST = 1.
Proof. unfold forwardParameter, bendDeterminant. simpl. field. Qed.

Lemma example_keeps_intersection :
  ~ midpointUsed (mkStation 0 0) (mkStation 3 2) EAST SOUTHEAST.
Proof.
  unfold midpointUsed. intros [H|[H|H]].
  - unfold bendDeterminant in H. simpl in H.
    replace (1 * - (1) - 0 * - (1)) with (-1) in H by lra.
    rewrite Rabs_left in H by lra. lra.
  - rewrite example_forwardParameter in H. lra.
  - unfold detour, directDistance, rayIntersection, hypot in H.
    rewrite example_forwardParameter in H. simpl in H.
    assert (H1 : sqrt ((0 + 1 * 1 - 0) * (0 + 1 * 1 - 0)
                       + (0 + 1 * 0 - 0) * (0 + 1 * 0 - 0)) < 2)
      by (apply sqrt_below; lra).
    assert (H2 : sqrt ((0 + 1 * 1 - 3) * (0 + 1 * 1 - 3)
                       + (0 + 1 * 0 - 2) * (0 + 1 * 0 - 2)) < 3)
      by (apply sqrt_below; lra).
    assert (H3 : 3 < sqrt ((3 - 0) * (3 - 0) + (2 - 0) * (2 - 0)))
      by (apply sqrt_above; lra).
    lra.
Qed.

Lemma example_knee :
  calculateOptimalBendPosition (mkStation 0 0) (mkStation 3 2) EAST SOUTHEAST
  = (1, 0).
Proof.
  pose proof example_keeps_intersection as Hkeep. unfold midpointUsed in Hkeep.
  rewrite calculateOptimalBendPosition_tests.
  destruct (Rlt_dec _ _) as [Hd|Hd]; [tauto|].
  destruct (Rlt_dec _ _) as [Hf|Hf]; [tauto|].
  destruct (Rlt_dec _ _) as [Hs|Hs].
  - unfold rayIntersection. rewrite example_forwardParameter.
    simpl. f_equal; lra.
  - exfalso.
    pose proof (detour_not_double _ _ _ _ Hd Hf). apply Hkeep. right. right. lra.
Qed.

Lemma example_segment :
  waypoints (calculateSegmentPath (mkStation 0 0) (mkStation 3 2) (Some EAST))
  = [stationStart (mkStation 0 0) EAST;
     mkWaypoint 1 0 BEND (Some EAST) (Some SOUTHEAST);
     stationEnd (mkStation 3 2) SOUTHEAST].
Proof.
  unfold calculateSegmentPath. simpl waypoints.
  replace (calculateSnapAngle (mkStation 0 0) (mkStation 3 2)) with SOUTHEAST
    by (rewrite calculateSnapAngle_exact; reflexivity).
  rewrite RouterFacts.generateWaypoints_bend by discriminate.
  now rewrite example_knee.
Qed.

(** The intersection of two rays that are not parallel, found ahead of
    [from], is not the mean of the two stations. *)
Lemma rayIntersection_not_mean
  (from to : Station) (angle1 angle2 : Direction) :
  ~ Rabs (bendDeterminant angle1 angle2) < 1 / 10000 ->
  ~ forwardParameter from to angle1 angle2 < 1 / 2 ->
  rayIntersection from to angle1 angle2
  <> ((IZR (vertexX from) + IZR (vertexX to)) / 2,
      (IZR (vertexY from) + IZR (vertexY to)) / 2).
Proof.
  intros Hd Hf Heq.
  pose proof (rayIntersection_on_backward_line from to angle1 angle2 Hd) as Hb.
  rewrite Heq in Hb. unfold rayIntersection in Heq.
  unfold backwardPoint in Hb.
  inversion Heq as [[Hx Hy]]. inversion Hb as [[Hbx Hby]]. clear Heq Hb.
  set (t1 := forwardParameter from to angle1 angle2) in *.
  set (t2 := backwardParameter from to angle1 angle2) in *.
  apply Hd. unfold bendDeterminant.
  set (a := IZR (dx (DIRECTION_VECTORS angle1))) in *.
  set (b := IZR (dy (DIRECTION_VECTORS angle1))) in *.
  set (c := IZR (dx (DIRECTION_VECTORS angle2))) in *.
  set (d := IZR (dy (DIRECTION_VECTORS angle2))) in *.
  assert (E1 : t1 * a = t2 * c) by lra.
  assert (E2 : t1 * b = t2 * d) by lra.
  assert (E : t1 * (a * - d - b * - c) = 0).
  { replace (t1 * (a * - d - b * - c)) with (- (t1 * a) * d + (t1 * b) * c) by ring.
    rewrite E1, E2. ring. }
  assert (Hz : a * - d - b * - c = 0).
  { apply Rmult_integral in E. destruct E as [E|E]; [lra | exact E]. }
  rewrite Hz, Rabs_R0. lra.
Qed.

(** From (0,0) to (0,5) entered eastwards the rays meet at the first
    station itself. *)
Lemma column_forwardParameter :
  forwardParameter (mkStation 0 0) (mkStation 0 5) EAST SOUTH = 0.
Proof. unfold forwardParameter, bendDeterminant. simpl. field. Qed.

(** C6: in the single-knee case the BEND waypoint is placed at
    [calculateOptimalBendPosition]; that point is the midpoint of the two
    stations, the mean of their coordinates, exactly when the determinant
    is below the epsilon in absolute value, or the parameter along the
    forward ray is below one half, or the detour through the intersection
    exceeds twice the direct distance; in every other case it is the
    intersection, which is not that midpoint and lies on the forward ray
    from [from] along the entry direction at parameter at least one half and
    on the line through [to] along the direct direction - on the backward
    ray itself when the direct direction is the snapped one, as in every
    routed segment. *)
Theorem knee_is_intersection_or_midpoint
  (from to : Station) (entryAngle targetAngle : Direction) :
  entryAngle <> targetAngle ->
  generateWaypoints from to entryAngle targetAngle
  = [stationStart from entryAngle;
     mkWaypoint
       (fst (calculateOptimalBendPosition from to entryAngle targetAngle))
       (snd (calculateOptimalBendPosition from to entryAngle targetAngle))
       BEND (Some entryAngle) (Some targetAngle);
     stationEnd to targetAngle] /\
  (midpointUsed from to entryAngle targetAngle ->
   calculateOptimalBendPosition from to entryAngle targetAngle
   = ((IZR (vertexX from) + IZR (vertexX to)) / 2,
      (IZR (vertexY from) + IZR (vertexY to)) / 2)) /\
  (~ midpointUsed from to entryAngle targetAngle ->
   calculateOptimalBendPosition from to entryAngle targetAngle
   = rayIntersection from to entryAngle targetAngle /\
   calculateOptimalBendPosition from to entryAngle targetAngle
   <> ((IZR (vertexX from) + IZR (vertexX to)) / 2,
       (IZR (vertexY from) + IZR (vertexY to)) / 2) /\
   1 / 2 <= forwardParameter from to entryAngle targetAngle /\
   rayIntersection from to entryAngle targetAngle
   = backwardPoint to targetAngle
       (backwardParameter from to entryAngle targetAngle)) /\
  (targetAngle = calculateSnapAngle from to ->
   ~ midpointUsed from to entryAngle targetAngle ->
   0 < backwardParameter from to entryAngle targetAngle).
Proof.
  intros Hne. split; [apply RouterFacts.generateWaypoints_bend; exact Hne|].
  rewrite calculateOptimalBendPosition_tests. unfold midpointUsed.
  split; [|split].
  - intros Hmid.
    destruct (Rlt_dec _ _) as [Hd|Hd]; [reflexivity|].
    destruct (Rlt_dec _ _) as [Hf|Hf]; [reflexivity|].
    destruct (Rlt_dec _ _) as [Hs|Hs]; [|reflexivity].
    destruct Hmid as [Hmid|[Hmid|Hmid]]; [contradiction|contradiction|lra].
  - intros Hkeep.
    destruct (Rlt_dec _ _) as [Hd|Hd]; [tauto|].
    destruct (Rlt_dec _ _) as [Hf|Hf]; [tauto|].
    pose proof (detour_not_double from to entryAngle targetAngle Hd Hf) as Hneq.
    destruct (Rlt_dec _ _) as [Hs|Hs].
    + split; [reflexivity|].
      split; [apply rayIntersection_not_mean; assumption|].
      split; [lra|].
      apply rayIntersection_on_backward_line. exact Hd.
    + exfalso. apply Hkeep. right. right. lra.
  - intros -> Hkeep. apply backwardParameter_positive; tauto.
Qed.

Lemma knee_is_intersection_or_midpoint_witness :
  EAST <> SOUTHEAST /\
  calculateOptimalBendPosition (mkStation 0 0) (mkStation 3 2) EAST SOUTHEAST
  = (1, 0) /\
  0 < backwardParameter (mkStation 0 0) (mkStation 3 2) EAST SOUTHEAST /\
  EAST <> SOUTH /\
  calculateOptimalBendPosition (mkStation 0 0) (mkStation 0 5) EAST SOUTH
  = (0, 5 / 2).
Proof.
  assert (Hne : EAST <> SOUTHEAST) by discriminate.
  assert (Hne' : EAST <> SOUTH) by discriminate.
  assert (Hs : SOUTHEAST = calculateSnapAngle (mkStation 0 0) (mkStation 3 2))
    by (rewrite calculateSnapAngle_exact; reflexivity).
  destruct (knee_is_intersection_or_midpoint
              (mkStation 0 0) (mkStation 3 2) EAST SOUTHEAST Hne)
    as (_ & _ & Hkeep & Hray).
  destruct (knee_is_intersection_or_midpoint
              (mkStation 0 0) (mkStation 0 5) EAST SOUTH Hne')
    as (_ & Hmid & _ & _).
  split; [exact Hne|]. split; [|split; [|split; [exact Hne'|]]].
  - destruct (Hkeep example_keeps_intersection) as (-> & _ & _ & _).
    unfold rayIntersection. rewrite example_forwardParameter.
    simpl. f_equal; lra.
  - exact (Hray Hs example_keeps_intersection).
  - rewrite Hmid.
    + simpl. f_equal; lra.
    + unfold midpointUsed. right. left. rewrite column_forwardParameter. lra.
Defined.

End BendFacts.

(** ** Corner rounding *)

Module CornerFacts.

Import JsMath LinePath CornerRounding Notions AngleFacts GridFacts BendFacts.

Lemma bendRadius_formula
  (incoming outgoing : Direction) (config : BendRenderConfig) :
  bendRadius incoming outgoing config
  = lineWidth config * 2
    * (1 + Rabs (angleOf outgoing - angleOf incoming) / 90 * (1 / 2)).
Proof. reflexivity. Qed.

(** When the plain difference of the two direction values already lies in
    [[-180, 180]] the radius of [createBendCurve] is the one the
    specification words. *)
Lemma bendRadius_without_wrap
  (incoming outgoing : Direction) (config : BendRenderConfig) :
  -180 <= angleOf outgoing - angleOf incoming <= 180 ->
  bendRadius incoming outgoing config
  = specEffectiveRadius (lineWidth config * 2) incoming outgoing.
Proof.
  intros H. unfold specEffectiveRadius.
  now rewrite angleDifference_plain by exact H.
Qed.

(** Along [buildSVGPath] the two angles handed to [createBendCurve] are the
    outgoing angle of one waypoint and the incoming angle of the next: on
    every piece of a routed segment they are the same direction, and the
    radius is twice the line width whatever the turn at the knee. *)
Lemma bendRadius_same_direction (d : Direction) (config : BendRenderConfig) :
  bendRadius d d config = lineWidth config * 2.
Proof.
  rewrite bendRadius_formula.
  replace (angleOf d - angleOf d) with 0 by ring. rewrite Rabs_R0. lra.
Qed.

Lemma segmentCommands_of_bend
  (from to : Station) (e t : Direction) (config : BendRenderConfig) :
  e <> t ->
  let knee :=
    mkWaypoint (fst (calculateOptimalBendPosition from to e t))
               (snd (calculateOptimalBendPosition from to e t))
               BEND (Some e) (Some t) in
  segmentCommands (generateWaypoints from to e t) config
  = Some [LineTo (start (createBendCurve knee e e config));
          CurveTo (control1 (createBendCurve knee e e config))
                  (control2 (createBendCurve knee e e config))
                  (end_ (createBendCurve knee e e config));
          LineTo (start (createBendCurve knee t t config));
          CurveTo (control1 (createBendCurve knee t t config))
                  (control2 (createBendCurve knee t t config))
                  (end_ (createBendCurve knee t t config))].
Proof.
  intros Hne knee.
  rewrite RouterFacts.generateWaypoints_bend by exact Hne. reflexivity.
Qed.

(** C7, what the code does at the bend of the claim: from incoming
    NORTHEAST (315) to outgoing EAST (0) [createBendCurve] passes the plain
    difference -315 to [calculateCornerRadius], so that the radius is
    [lineWidth * 2 * (1 + 3.5 * 0.5)], 16.5 for a line width of 3, where the
    normalised turn of 45 degrees gives 7.5 - the radius the code itself
    uses for the 45 degree turn from EAST to SOUTHEAST, and the turn
    [createBendArc] would compute with [normalizeAngle]. *)
Theorem wrapped_turn_radius_is_not_normalised :
  (forall config : BendRenderConfig,
     bendRadius NORTHEAST EAST config
     = lineWidth config * 2 * (1 + 315 / 90 * (1 / 2))) /\
  angleDifference (angleOf EAST) (angleOf NORTHEAST) = 45 /\
  normalizeAngle (degrees EAST - degrees NORTHEAST) = 45%Z /\
  bendRadius NORTHEAST EAST exampleConfig = 33 / 2 /\
  specEffectiveRadius (lineWidth exampleConfig * 2) NORTHEAST EAST = 15 / 2 /\
  bendRadius EAST SOUTHEAST exampleConfig = 15 / 2 /\
  start (createBendCurve (mkWaypoint 0 0 BEND (Some NORTHEAST) (Some EAST))
                         NORTHEAST EAST exampleConfig)
  = (- (33 / 2), 33 / 2).
Proof.
  assert (Hr : forall config,
             bendRadius NORTHEAST EAST config
             = lineWidth config * 2 * (1 + 315 / 90 * (1 / 2))).
  { intros config. rewrite bendRadius_formula. unfold angleOf, degrees.
    rewrite Rabs_left by lra. lra. }
  assert (Ha : angleDifference (angleOf EAST) (angleOf NORTHEAST) = 45).
  { unfold angleOf, degrees. rewrite angleDifference_wrap_up by lra. lra. }
  assert (H3 : bendRadius NORTHEAST EAST exampleConfig = 33 / 2).
  { rewrite Hr. simpl. lra. }
  split; [exact Hr|]. split; [exact Ha|]. split; [reflexivity|].
  split; [exact H3|].
  split; [|split].
  - unfold specEffectiveRadius. rewrite Ha, Rabs_pos_eq by lra. simpl. lra.
  - rewrite bendRadius_formula. unfold angleOf, degrees.
    rewrite Rabs_pos_eq by lra. simpl. lra.
  - unfold createBendCurve. simpl start. rewrite H3. simpl. f_equal; lra.
Qed.

(** Normalising never lengthens a turn. *)
Lemma angleDifference_not_longer (a b : R) :
  Rabs (angleDifference a b) <= Rabs (a - b).
Proof.
  pose proof (angleDifference_range a b) as Hr.
  destruct (Rle_dec (-180) (a - b)) as [Hl|Hl];
    [destruct (Rle_dec (a - b) 180) as [Hu|Hu]|].
  - rewrite angleDifference_plain by lra. lra.
  - rewrite (Rabs_pos_eq (a - b)) by lra. apply Rabs_le. lra.
  - rewrite (Rabs_left (a - b)) by lra. apply Rabs_le. lra.
Qed.

(** A point moved by [radius] times the vector of a direction is at the
    distance [radius] or more. *)
Lemma trim_distance (radius p q : R) (d : Direction) :
  0 <= radius ->
  p = - radius * IZR (dx (DIRECTION_VECTORS d)) \/
  p = radius * IZR (dx (DIRECTION_VECTORS d)) ->
  q = - radius * IZR (dy (DIRECTION_VECTORS d)) \/
  q = radius * IZR (dy (DIRECTION_VECTORS d)) ->
  radius <= hypot p q.
Proof.
  intros Hr Hp Hq. unfold hypot.
  rewrite <- (sqrt_square radius) at 1 by exact Hr.
  apply sqrt_le_1_alt.
  assert (Hn : 1 <= IZR (dx (DIRECTION_VECTORS d)) * IZR (dx (DIRECTION_VECTORS d))
                    + IZR (dy (DIRECTION_VECTORS d)) * IZR (dy (DIRECTION_VECTORS d)))
    by (destruct d; simpl; lra).
  assert (Hrr : 0 <= radius * radius) by nra.
  destruct Hp as [-> | ->], Hq as [-> | ->]; nra.
Qed.

(** C8, as amended: the fillet generator applies no clamp.  For a line
    width that is not negative, the trim points of [createBendCurve] are
    the knee moved by the effective radius times the vector of the table,
    back along the incoming direction and forward along the outgoing one,
    so at the distance of that radius or more from the knee; their offsets
    from the knee are the same wherever the knee lies, no length of an
    adjoining piece reaching them.  The effective radius is never below the
    radius scaled by the normalised turn, with twice the line width as
    radius, to which it is equal when the plain difference of the two
    directions lies between -180 and 180; so it is never below twice the
    line width, and exceeds any half-length of an adjoining piece that is
    below twice the line width. *)
Theorem bend_radius_is_never_clamped
  (waypoint : Waypoint) (incoming outgoing : Direction)
  (config : BendRenderConfig) (halfLength : R) :
  0 <= lineWidth config ->
  halfLength < lineWidth config * 2 ->
  let curve := createBendCurve waypoint incoming outgoing config in
  let radius := bendRadius incoming outgoing config in
  start curve
  = (x waypoint - radius * IZR (dx (DIRECTION_VECTORS incoming)),
     y waypoint - radius * IZR (dy (DIRECTION_VECTORS incoming))) /\
  end_ curve
  = (x waypoint + radius * IZR (dx (DIRECTION_VECTORS outgoing)),
     y waypoint + radius * IZR (dy (DIRECTION_VECTORS outgoing))) /\
  radius
  <= hypot (fst (start curve) - x waypoint) (snd (start curve) - y waypoint) /\
  radius
  <= hypot (fst (end_ curve) - x waypoint) (snd (end_ curve) - y waypoint) /\
  (forall other : Waypoint,
     let moved := createBendCurve other incoming outgoing config in
     fst (start moved) - x other = fst (start curve) - x waypoint /\
     snd (start moved) - y other = snd (start curve) - y waypoint /\
     fst (end_ moved) - x other = fst (end_ curve) - x waypoint /\
     snd (end_ moved) - y other = snd (end_ curve) - y waypoint) /\
  specEffectiveRadius (lineWidth config * 2) incoming outgoing <= radius /\
  (-180 <= angleOf outgoing - angleOf incoming <= 180 ->
   radius = specEffectiveRadius (lineWidth config * 2) incoming outgoing) /\
  lineWidth config * 2 <= radius /\
  halfLength < radius.
Proof.
  intros Hw Hhalf curve radius.
  assert (Hspec : specEffectiveRadius (lineWidth config * 2) incoming outgoing
                  <= radius).
  { subst radius. rewrite bendRadius_formula. unfold specEffectiveRadius.
    pose proof (angleDifference_not_longer (angleOf outgoing) (angleOf incoming)).
    apply Rmult_le_compat_l; lra. }
  assert (Hge : lineWidth config * 2 <= radius).
  { eapply Rle_trans; [|exact Hspec]. unfold specEffectiveRadius.
    pose proof (Rabs_pos (angleDifference (angleOf outgoing) (angleOf incoming)))
      as Hp.
    assert (0 <= Rabs (angleDifference (angleOf outgoing) (angleOf incoming))
                 / 90 * (1 / 2))
      by (apply Rmult_le_pos; lra).
    nra. }
  assert (Hr : 0 <= radius) by lra.
  subst curve. unfold createBendCurve. cbn [start end_ fst snd]. fold radius.
  split; [reflexivity|]. split; [reflexivity|].
  split; [apply (trim_distance radius _ _ incoming Hr); left; ring|].
  split; [apply (trim_distance radius _ _ outgoing Hr); right; ring|].
  split; [intros other; cbn [start end_ fst snd]; repeat split; ring|].
  split; [exact Hspec|].
  split; [intros Hin; apply bendRadius_without_wrap; exact Hin|].
  split; [exact Hge | lra].
Qed.

Lemma bend_radius_is_never_clamped_witness :
  start (createBendCurve (mkWaypoint 1 0 BEND (Some EAST) (Some SOUTHEAST))
                         EAST SOUTHEAST exampleConfig)
  = (1 - bendRadius EAST SOUTHEAST exampleConfig * 1,
     0 - bendRadius EAST SOUTHEAST exampleConfig * 0) /\
  1 / 2 < bendRadius EAST SOUTHEAST exampleConfig.
Proof.
  destruct (bend_radius_is_never_clamped
              (mkWaypoint 1 0 BEND (Some EAST) (Some SOUTHEAST))
              EAST SOUTHEAST exampleConfig (1 / 2))
    as (Hs & _ & _ & _ & _ & _ & _ & _ & Hlt).
  - simpl. lra.
  - simpl. lra.
  - split; [exact Hs | exact Hlt].
Defined.

Lemma pieceLength_horizontal (a b : Waypoint) :
  y b = y a -> x a <= x b -> pieceLength a b = x b - x a.
Proof.
  intros Hy Hx. unfold pieceLength, hypot. rewrite Hy.
  replace ((x b - x a) * (x b - x a) + (y a - y a) * (y a - y a))
    with ((x b - x a) * (x b - x a)) by ring.
  apply sqrt_square. lra.
Qed.

(** C8, the claim as stated fails: on the route from (0,0) to (3,2) entered
    eastwards the knee is at (1,0), one unit from the first station; with a
    line width of 3 the radius used at that knee is 7.5, above half the
    length of the shorter adjoining piece, and the trim start (-6.5, 0) lies
    beyond the first station. *)
Lemma short_piece_radius_not_clamped :
  exists a k b : Waypoint,
    waypoints (calculateSegmentPath (mkStation 0 0) (mkStation 3 2) (Some EAST))
    = [a; k; b] /\
    type k = BEND /\
    incomingAngle k = Some EAST /\ outgoingAngle k = Some SOUTHEAST /\
    halfShorterPiece a k b <= 1 / 2 /\
    bendRadius EAST SOUTHEAST exampleConfig = 15 / 2 /\
    ~ (bendRadius EAST SOUTHEAST exampleConfig <= halfShorterPiece a k b) /\
    start (createBendCurve k EAST SOUTHEAST exampleConfig) = (- (13 / 2), 0).
Proof.
  rewrite example_segment.
  do 3 eexists. split; [reflexivity|].
  assert (Hr : bendRadius EAST SOUTHEAST exampleConfig = 15 / 2).
  { rewrite bendRadius_formula. unfold angleOf, degrees.
    rewrite Rabs_pos_eq by lra. simpl. lra. }
  assert (Hh : halfShorterPiece (stationStart (mkStation 0 0) EAST)
                 (mkWaypoint 1 0 BEND (Some EAST) (Some SOUTHEAST))
                 (stationEnd (mkStation 3 2) SOUTHEAST) <= 1 / 2).
  { unfold halfShorterPiece.
    rewrite (pieceLength_horizontal (stationStart (mkStation 0 0) EAST))
      by (simpl; lra).
    simpl x. pose proof (Rmin_l (1 - 0) (pieceLength
       (mkWaypoint 1 0 BEND (Some EAST) (Some SOUTHEAST))
       (stationEnd (mkStation 3 2) SOUTHEAST))). lra. }
  repeat split; try reflexivity; try assumption.
  - rewrite Hr. lra.
  - unfold createBendCurve. simpl start. rewrite Hr. simpl. f_equal; lra.
Qed.

End CornerFacts.

(** ** Colinearity of consecutive waypoints *)

Module ColinearFacts.

Import JsMath LinePath Notions AngleFacts GridFacts BendFacts.

(** With an entry direction that differs from the direct one, and a knee
    that is the intersection, both pieces run along the recorded
    directions. *)
Lemma kept_intersection_is_colinear (from to : Station) (entry : Direction) :
  entry <> calculateSnapAngle from to ->
  ~ midpointUsed from to entry (calculateSnapAngle from to) ->
  consecutiveColinear (waypoints (calculateSegmentPath from to (Some entry))).
Proof.
  intros Hne Hkeep.
  assert (Hd : ~ Rabs (bendDeterminant entry (calculateSnapAngle from to))
                 < 1 / 10000) by (unfold midpointUsed in Hkeep; tauto).
  assert (Hf : ~ forwardParameter from to entry (calculateSnapAngle from to)
                 < 1 / 2) by (unfold midpointUsed in Hkeep; tauto).
  pose proof (backwardParameter_positive from to entry Hd Hf) as Hback.
  pose proof (rayIntersection_on_backward_line from to entry _ Hd) as Hline.
  assert (Hknee : calculateOptimalBendPosition from to entry
                    (calculateSnapAngle from to)
                  = rayIntersection from to entry (calculateSnapAngle from to)).
  { rewrite calculateOptimalBendPosition_tests.
    destruct (Rlt_dec _ _); [tauto|]. destruct (Rlt_dec _ _); [tauto|].
    destruct (Rlt_dec _ _) as [Hs|Hs]; [reflexivity|].
    exfalso. pose proof (detour_not_double _ _ _ _ Hd Hf).
    apply Hkeep. right. right. lra. }
  unfold calculateSegmentPath. simpl waypoints.
  rewrite RouterFacts.generateWaypoints_bend by exact Hne.
  rewrite Hknee.
  intros i a b Ha Hb.
  destruct i as [|[|[|i]]]; cbn [nth_error] in Ha, Hb; try discriminate;
    try (destruct i; discriminate);
    inversion Ha; inversion Hb; subst a b; clear Ha Hb.
  - exists entry. split; [reflexivity|]. split; [reflexivity|].
    exists (forwardParameter from to entry (calculateSnapAngle from to)).
    split; [lra|]. unfold rayIntersection. simpl. split; ring.
  - exists (calculateSnapAngle from to).
    split; [reflexivity|]. split; [reflexivity|].
    exists (backwardParameter from to entry (calculateSnapAngle from to)).
    split; [exact Hback|].
    unfold rayIntersection, backwardPoint in Hline.
    inversion Hline as [[Hx Hy]]. simpl. split; lra.
Qed.

(** The midpoint case of the run from (0,0) to (0,5) entered eastwards. *)
Lemma column_entered_eastwards :
  waypoints (calculateSegmentPath (mkStation 0 0) (mkStation 0 5) (Some EAST))
  = [stationStart (mkStation 0 0) EAST;
     mkWaypoint ((0 + 0) / 2) ((0 + 5) / 2) BEND (Some EAST) (Some SOUTH);
     stationEnd (mkStation 0 5) SOUTH].
Proof.
  unfold calculateSegmentPath. simpl waypoints.
  replace (calculateSnapAngle (mkStation 0 0) (mkStation 0 5)) with SOUTH
    by (rewrite calculateSnapAngle_exact; reflexivity).
  rewrite RouterFacts.generateWaypoints_bend by discriminate.
  rewrite calculateOptimalBendPosition_tests.
  destruct (Rlt_dec _ _) as [Hd|Hd]; [reflexivity|].
  destruct (Rlt_dec _ _) as [Hf|Hf]; [reflexivity|].
  exfalso. apply Hf.
  unfold forwardParameter, bendDeterminant. simpl.
  replace ((0 - 0) * - (1) - (5 - 0) * - 0) with 0 by ring.
  unfold Rdiv. rewrite Rmult_0_l. lra.
Qed.

(** C9, as amended: every route starts at [from] and ends at [to].
    Consecutive waypoints are colinear along the recorded direction when the
    route is a straight run between distinct aligned stations (no entry
    direction, or the direct one), and when it has a knee that is the ray
    intersection, the midpoint not being used. *)
Theorem route_colinear_unless_midpoint
  (from to : Station) (entry : option Direction) :
  (exists (e : Direction) (middle : list Waypoint),
     waypoints (calculateSegmentPath from to entry)
     = stationStart from e :: middle
       ++ [stationEnd to (calculateSnapAngle from to)]) /\
  (from <> to -> aligned from to ->
   entry = None \/ entry = Some (calculateSnapAngle from to) ->
   consecutiveColinear (waypoints (calculateSegmentPath from to entry))) /\
  (forall e : Direction,
     entry = Some e -> e <> calculateSnapAngle from to ->
     ~ midpointUsed from to e (calculateSnapAngle from to) ->
     consecutiveColinear (waypoints (calculateSegmentPath from to entry))).
Proof.
  split; [|split].
  - unfold calculateSegmentPath. simpl waypoints.
    set (direct := calculateSnapAngle from to).
    destruct entry as [e|].
    + destruct (Direction_eq_dec e direct) as [->|Hne].
      * exists direct, []. apply RouterFacts.generateWaypoints_straight.
      * exists e. eexists [_].
        apply RouterFacts.generateWaypoints_bend. exact Hne.
    + exists direct, []. apply RouterFacts.generateWaypoints_straight.
  - intros Hne Hal Hentry.
    assert (Hws : waypoints (calculateSegmentPath from to entry)
                  = [stationStart from (calculateSnapAngle from to);
                     stationEnd to (calculateSnapAngle from to)]).
    { unfold calculateSegmentPath. simpl waypoints.
      destruct Hentry as [->| ->];
        apply RouterFacts.generateWaypoints_straight. }
    rewrite Hws. intros i a b Ha Hb.
    destruct i as [|[|i]]; cbn [nth_error] in Ha, Hb; try discriminate;
      try (destruct i; discriminate).
    inversion Ha; inversion Hb; subst a b.
    exists (calculateSnapAngle from to).
    split; [reflexivity|]. split; [reflexivity|].
    apply RouterFacts.aligned_step_along_snap; assumption.
  - intros e -> Hne Hkeep. apply kept_intersection_is_colinear; assumption.
Qed.

Lemma route_colinear_unless_midpoint_witness :
  consecutiveColinear
    (waypoints (calculateSegmentPath (mkStation 0 0) (mkStation 3 2)
                  (Some EAST))) /\
  consecutiveColinear
    (waypoints (calculateSegmentPath (mkStation 2 7) (mkStation 5 4) None)).
Proof.
  split.
  - apply (proj2 (proj2 (route_colinear_unless_midpoint
                           (mkStation 0 0) (mkStation 3 2) (Some EAST)))
             EAST eq_refl).
    + rewrite calculateSnapAngle_exact. discriminate.
    + replace (calculateSnapAngle (mkStation 0 0) (mkStation 3 2))
        with SOUTHEAST by (rewrite calculateSnapAngle_exact; reflexivity).
      exact example_keeps_intersection.
  - apply (proj1 (proj2 (route_colinear_unless_midpoint
                           (mkStation 2 7) (mkStation 5 4) None))).
    + discriminate.
    + unfold aligned. simpl. right. right. reflexivity.
    + left. reflexivity.
Defined.

(** C9, the claim as stated fails: from (0,0) to (0,5) entered eastwards
    the rays do not meet ahead of the first station, the knee is the
    midpoint (0, 2.5), and the first piece, recorded as running EAST, runs
    due south. *)
Lemma midpoint_knee_is_not_colinear :
  waypoints (calculateSegmentPath (mkStation 0 0) (mkStation 0 5) (Some EAST))
  = [stationStart (mkStation 0 0) EAST;
     mkWaypoint ((0 + 0) / 2) ((0 + 5) / 2) BEND (Some EAST) (Some SOUTH);
     stationEnd (mkStation 0 5) SOUTH] /\
  ~ consecutiveColinear
      (waypoints (calculateSegmentPath (mkStation 0 0) (mkStation 0 5)
                    (Some EAST))).
Proof.
  split; [exact column_entered_eastwards|].
  rewrite column_entered_eastwards. intros Hcol.
  destruct (Hcol 0%nat _ _ eq_refl eq_refl) as (d & Hout & _ & Halong).
  inversion Hout; subst d.
  revert Halong. apply RouterFacts.not_along_EAST_with_rise. simpl. lra.
Qed.

End ColinearFacts.

(** * Further properties of the code *)

(** ** Angles *)

Module AngleMoreFacts.

Import JsMath JsNumber LinePath LinePathRest Notions AngleFacts.

Lemma remainder_nonneg (a : R) :
  0 <= a -> 0 <= remainder a 360 < 360.
Proof.
  intros Ha. unfold remainder, truncate.
  assert (Hq : 0 <= a / 360) by (apply Rmult_le_pos; lra).
  destruct (Rle_dec 0 (a / 360)); [|lra].
  pose proof (Zfloor_bound (a / 360)) as [Hl Hu]. lra.
Qed.

Lemma remainder_neg (a : R) :
  a < 0 -> -360 < remainder a 360 <= 0.
Proof.
  intros Ha. unfold remainder, truncate.
  destruct (Rle_dec 0 (a / 360)); [lra|].
  pose proof (Zceil_bound (a / 360)) as [Hl Hu]. lra.
Qed.

Lemma remainder_turns (a : R) :
  exists k : Z, remainder a 360 = a + 360 * IZR k.
Proof.
  exists (- truncate (a / 360))%Z. unfold remainder. rewrite opp_IZR. ring.
Qed.

Lemma normalizeAngle_range (a : R) : 0 <= normalizeAngle a < 360.
Proof.
  unfold normalizeAngle.
  destruct (Rle_dec 0 a) as [Hpos|Hneg].
  - pose proof (remainder_nonneg a Hpos).
    destruct (Rlt_dec (remainder a 360) 0); lra.
  - pose proof (remainder_neg a ltac:(lra)).
    destruct (Rlt_dec (remainder a 360) 0); lra.
Qed.

Lemma normalizeAngle_turns (a : R) :
  exists k : Z, normalizeAngle a = a + 360 * IZR k.
Proof.
  unfold normalizeAngle. destruct (remainder_turns a) as [k Hk].
  destruct (Rlt_dec (remainder a 360) 0).
  - exists (k + 1)%Z. rewrite plus_IZR. lra.
  - exists k. exact Hk.
Qed.

Lemma normalizeAngle_integer (z : Z) :
  normalizeAngle (IZR z) = IZR (z mod 360).
Proof.
  destruct (normalizeAngle_turns (IZR z)) as [k Hk].
  pose proof (normalizeAngle_range (IZR z)) as Hr.
  rewrite Hk in *. rewrite <- mult_IZR, <- plus_IZR in *.
  f_equal. destruct Hr as [Hl Hu]. apply le_IZR in Hl. apply lt_IZR in Hu.
  apply (Z.mod_unique z 360 (- k)); lia.
Qed.

(** X1: on a whole number of degrees [normalizeAngle] of LinePath.ts
    answers the remainder of the floored division by 360: a value from 0
    up to 360, 360 left out, that differs from the argument by a whole
    number of turns; a second application changes nothing, and the values
    of [Direction] are left as they are. *)
Theorem normalizeAngle_is_modulo :
  (forall z : Z, normalizeAngle (IZR z) = IZR (z mod 360)) /\
  (forall z : Z,
     0 <= normalizeAngle (IZR z) < 360 /\
     exists k : Z, normalizeAngle (IZR z) = IZR z + 360 * IZR k) /\
  (forall z : Z,
     normalizeAngle (normalizeAngle (IZR z)) = normalizeAngle (IZR z)) /\
  (forall d : Direction, normalizeAngle (angleOf d) = angleOf d).
Proof.
  split; [exact normalizeAngle_integer|]. split; [|split].
  - intros z. rewrite normalizeAngle_integer.
    pose proof (Z.mod_pos_bound z 360 ltac:(lia)) as [Hl Hu].
    split; [split; [apply IZR_le; exact Hl | apply IZR_lt; exact Hu]|].
    exists (- (z / 360))%Z. rewrite <- mult_IZR, <- plus_IZR. f_equal.
    pose proof (Z.div_mod z 360 ltac:(lia)). lia.
  - intros z. rewrite !normalizeAngle_integer. f_equal.
    apply Z.mod_mod. lia.
  - intros d. unfold angleOf. rewrite normalizeAngle_integer. f_equal.
    apply Z.mod_small. destruct d; simpl; lia.
Qed.

Lemma angleDifference_from_above (a b : R) :
  180 < a - b -> -180 < angleDifference a b <= 180.
Proof.
  intros Hgt. unfold angleDifference.
  destruct (lowerWhile_exit _ _ (loopRounds_upper (a - b)))
    as (k & Hk & Hub & Hlb).
  assert (Hlow : -180 < lowerWhile (loopRounds (a - b)) (a - b)).
  { destruct Hlb as [->|Hlb]; [|exact Hlb]. simpl in Hk. lra. }
  rewrite raiseWhile_plain by lra. lra.
Qed.

Lemma angleDifference_from_below (a b : R) :
  a - b < -180 -> -180 <= angleDifference a b < 180.
Proof.
  intros Hlt. unfold angleDifference.
  rewrite (lowerWhile_plain _ (a - b)) by lra.
  destruct (raiseWhile_exit _ _ (loopRounds_lower (a - b)))
    as (k & Hk & Hlb & Hub).
  destruct Hub as [->|Hub]; [simpl in Hk|]; lra.
Qed.

(** X2: [angleDifference] answers a value between -180 and 180 that
    differs from [angle1 - angle2] by a whole number of turns.  It answers
    180 only for a plain difference of 180 or more and -180 only for one of
    -180 or less, returns a plain difference that is in range as it is, and
    normalising its result once more changes nothing. *)
Theorem angleDifference_is_normalised (angle1 angle2 : R) :
  let diff := angleDifference angle1 angle2 in
  -180 <= diff <= 180 /\
  (exists k : Z, diff = angle1 - angle2 + 360 * IZR k) /\
  (diff = 180 -> 180 <= angle1 - angle2) /\
  (diff = -180 -> angle1 - angle2 <= -180) /\
  (-180 <= angle1 - angle2 <= 180 -> diff = angle1 - angle2) /\
  angleDifference diff 0 = diff.
Proof.
  intros diff. subst diff.
  pose proof (angleDifference_range angle1 angle2) as Hr.
  split; [exact Hr|]. split; [apply angleDifference_turns|].
  assert (Hcases : angle1 - angle2 < -180 \/ -180 <= angle1 - angle2 <= 180
                   \/ 180 < angle1 - angle2) by lra.
  split; [|split; [|split]].
  - intros H. destruct Hcases as [Hc|[Hc|Hc]].
    + pose proof (angleDifference_from_below angle1 angle2 Hc). lra.
    + rewrite angleDifference_plain in H by exact Hc. lra.
    + lra.
  - intros H. destruct Hcases as [Hc|[Hc|Hc]].
    + lra.
    + rewrite angleDifference_plain in H by exact Hc. lra.
    + pose proof (angleDifference_from_above angle1 angle2 Hc). lra.
  - apply angleDifference_plain.
  - rewrite angleDifference_plain; lra.
Qed.

(** The two loops mirror each other. *)
Lemma raiseWhile_opp (n : nat) :
  forall diff, raiseWhile n (- diff) = - lowerWhile n diff.
Proof.
  induction n as [|n IH]; intros diff; simpl; [reflexivity|].
  destruct (Rlt_dec (- diff) (-180)), (Rlt_dec 180 diff); try lra.
  replace (- diff + 360) with (- (diff - 360)) by ring. apply IH.
Qed.

Lemma lowerWhile_opp (n : nat) :
  forall diff, lowerWhile n (- diff) = - raiseWhile n diff.
Proof.
  induction n as [|n IH]; intros diff; simpl; [reflexivity|].
  destruct (Rlt_dec 180 (- diff)), (Rlt_dec diff (-180)); try lra.
  replace (- diff - 360) with (- (diff + 360)) by ring. apply IH.
Qed.

Lemma loopRounds_opp (diff : R) : loopRounds (- diff) = loopRounds diff.
Proof. unfold loopRounds. now rewrite Rabs_Ropp. Qed.

(** X3: [angleDifference] is odd: exchanging the two angles changes the
    sign of the result, for all numbers, also at the ends -180 and 180 of
    the range. *)
Theorem angleDifference_swap (a b : R) :
  angleDifference b a = - angleDifference a b.
Proof.
  destruct (Rle_dec (-180) (a - b)) as [Hl|Hl];
    [destruct (Rle_dec (a - b) 180) as [Hu|Hu]|].
  - rewrite !angleDifference_plain by lra. ring.
  - (* above the range: only the first loop of the left side runs *)
    unfold angleDifference.
    replace (b - a) with (- (a - b)) by ring.
    set (d := a - b) in *.
    rewrite (lowerWhile_plain _ (- d)) by lra.
    rewrite raiseWhile_opp, !loopRounds_opp. f_equal.
    destruct (lowerWhile_exit _ _ (loopRounds_upper d)) as (k & Hk & _ & Hlow).
    symmetry. apply raiseWhile_plain.
    destruct Hlow as [->|Hlow]; [simpl in Hk; lra | lra].
  - (* below the range: only the second loop of the left side runs *)
    unfold angleDifference.
    replace (b - a) with (- (a - b)) by ring.
    set (d := a - b) in *.
    rewrite (lowerWhile_plain _ d) by lra.
    rewrite lowerWhile_opp, !loopRounds_opp.
    destruct (raiseWhile_exit _ _ (loopRounds_lower d)) as (k & Hk & _ & Hup).
    rewrite raiseWhile_plain; [reflexivity|].
    destruct Hup as [->|Hup]; [simpl in Hk; lra | lra].
Qed.

(** X4: turning by the normalised difference from the incoming direction
    and normalising with [normalizeAngle] of LinePath.ts gives the outgoing
    direction back, for every pair of directions. *)
Theorem turn_then_normalize (incoming outgoing : Direction) :
  normalizeAngle
    (angleOf incoming + angleDifference (angleOf outgoing) (angleOf incoming))
  = angleOf outgoing.
Proof.
  destruct (angleDifference_turns (angleOf outgoing) (angleOf incoming))
    as [k Hk].
  rewrite Hk.
  replace (angleOf incoming
           + (angleOf outgoing - angleOf incoming + 360 * IZR k))
    with (IZR (degrees outgoing + 360 * k))
    by (unfold angleOf; rewrite plus_IZR, mult_IZR; ring).
  rewrite normalizeAngle_integer.
  unfold angleOf. f_equal.
  rewrite (Z.mul_comm 360 k), Z.mod_add by lia.
  apply Z.mod_small. destruct outgoing; simpl; lia.
Qed.

End AngleMoreFacts.

(** ** The snapper on the grid *)

Module SnapMoreFacts.

Import JsMath LinePath RenderingNotes Notions MoreNotions GridFacts.

Lemma station_vector_not_null (from to : Station) :
  from <> to ->
  (vertexX to - vertexX from <> 0 \/ vertexY to - vertexY from <> 0)%Z.
Proof.
  intros Hne. destruct from as [fx fy], to as [tx ty]. simpl.
  destruct (Z.eq_dec tx fx) as [->|]; [|lia].
  destruct (Z.eq_dec ty fy) as [->|]; [|lia].
  now contradiction Hne.
Qed.

Ltac split_tests :=
  repeat match goal with
         | |- context [Z.ltb ?a ?b] => destruct (Z.ltb_spec a b)
         end.

Lemma snapVector_opposite (dx dy : Z) :
  (dx <> 0 \/ dy <> 0)%Z ->
  snapVector (- dx) (- dy) = opposite (snapVector dx dy).
Proof.
  intros Hnz. unfold snapVector. rewrite !Z.abs_opp.
  replace (- dx * - dx)%Z with (dx * dx)%Z by ring.
  replace (- dy * - dy)%Z with (dy * dy)%Z by ring.
  split_tests; try reflexivity; nia.
Qed.

Lemma snapVector_mirrorX (dx dy : Z) :
  (dx <> 0 \/ dy <> 0)%Z ->
  snapVector (- dx) dy = mirrorX (snapVector dx dy).
Proof.
  intros Hnz. unfold snapVector. rewrite !Z.abs_opp.
  replace (- dx * - dx)%Z with (dx * dx)%Z by ring.
  split_tests; try reflexivity; nia.
Qed.

Lemma snapVector_transpose (dx dy : Z) :
  (dx <> 0 \/ dy <> 0)%Z ->
  snapVector dy dx = transpose (snapVector dx dy).
Proof.
  intros Hnz. unfold snapVector.
  rewrite (Z.add_comm (Z.abs dy) (Z.abs dx)).
  split_tests; try reflexivity; nia.
Qed.

Lemma snapVector_scale (k dx dy : Z) :
  (0 < k)%Z -> snapVector (dx * k) (dy * k) = snapVector dx dy.
Proof.
  intros Hk. unfold snapVector.
  rewrite !Z.abs_mul, (Z.abs_eq k) by lia.
  replace ((Z.abs dx * k + Z.abs dy * k) * (Z.abs dx * k + Z.abs dy * k))%Z
    with ((k * k) * ((Z.abs dx + Z.abs dy) * (Z.abs dx + Z.abs dy)))%Z by ring.
  replace (2 * (dx * k * (dx * k)))%Z with ((k * k) * (2 * (dx * dx)))%Z by ring.
  replace (2 * (dy * k * (dy * k)))%Z with ((k * k) * (2 * (dy * dy)))%Z by ring.
  assert (Hkk : (0 < k * k)%Z) by nia.
  set (s2 := ((Z.abs dx + Z.abs dy) * (Z.abs dx + Z.abs dy))%Z).
  set (x2 := (2 * (dx * dx))%Z). set (y2 := (2 * (dy * dy))%Z).
  assert (Hlt : forall p q : Z, ((k * k * p <? k * k * q) = (p <? q))%Z).
  { intros p q. destruct (Z.ltb_spec p q), (Z.ltb_spec (k * k * p) (k * k * q));
      try reflexivity; nia. }
  assert (Hpos : forall p : Z, ((0 <? p * k) = (0 <? p))%Z).
  { intros p. destruct (Z.ltb_spec 0 p), (Z.ltb_spec 0 (p * k));
      try reflexivity; nia. }
  assert (Hneg : forall p : Z, ((p * k <? 0) = (p <? 0))%Z).
  { intros p. destruct (Z.ltb_spec p 0), (Z.ltb_spec (p * k) 0);
      try reflexivity; nia. }
  now rewrite !Hlt, !Hpos, !Hneg.
Qed.

(** X5: on the grid [calculateSnapAngle] is decided by integer
    arithmetic: the vector snaps to the axis of its longer coordinate when
    [(|dx| + |dy|)^2 < 2 * longer^2], that is when the shorter coordinate is
    below [sqrt 2 - 1] times the longer one, and to the diagonal of its
    quadrant otherwise; the null vector snaps to EAST. *)
Theorem calculateSnapAngle_by_integers (from to : Station) :
  calculateSnapAngle from to
  = snapVector (vertexX to - vertexX from) (vertexY to - vertexY from).
Proof. apply calculateSnapAngle_exact. Qed.

(** X6: between distinct stations the snapped direction follows the
    symmetries of the grid: the way back snaps to the opposite direction,
    and mirroring the two stations (left and right exchanged, or the two
    axes exchanged) mirrors the snapped direction. *)
Theorem calculateSnapAngle_symmetries (from to : Station) :
  from <> to ->
  calculateSnapAngle to from = opposite (calculateSnapAngle from to) /\
  calculateSnapAngle (mkStation (- vertexX from) (vertexY from))
                     (mkStation (- vertexX to) (vertexY to))
  = mirrorX (calculateSnapAngle from to) /\
  calculateSnapAngle (mkStation (vertexY from) (vertexX from))
                     (mkStation (vertexY to) (vertexX to))
  = transpose (calculateSnapAngle from to).
Proof.
  intros Hne. pose proof (station_vector_not_null from to Hne) as Hnz.
  rewrite !calculateSnapAngle_exact. simpl.
  split; [|split].
  - rewrite <- snapVector_opposite by exact Hnz. f_equal; lia.
  - rewrite <- snapVector_mirrorX by exact Hnz. f_equal; lia.
  - apply snapVector_transpose. exact Hnz.
Qed.

Lemma calculateSnapAngle_symmetries_witness :
  calculateSnapAngle (mkStation 14 14) (mkStation 0 10)
  = opposite (calculateSnapAngle (mkStation 0 10) (mkStation 14 14)).
Proof.
  apply (calculateSnapAngle_symmetries (mkStation 0 10) (mkStation 14 14)).
  discriminate.
Defined.

Lemma snap_toPixels (gridSize : Z) (from to : Station) :
  (0 < gridSize)%Z ->
  calculateSnapAngle (toPixels gridSize from) (toPixels gridSize to)
  = calculateSnapAngle from to.
Proof.
  intros Hg. rewrite !calculateSnapAngle_exact. unfold toPixels.
  cbn [vertexX vertexY].
  rewrite <- (snapVector_scale gridSize (vertexX to - vertexX from)
                (vertexY to - vertexY from) Hg).
  f_equal; ring.
Qed.

(** X7: the snapped direction does not depend on the scale: the pixel
    stations of [renderLine], the grid stations times a positive grid size,
    snap to the direction of the grid stations. *)
Theorem calculateSnapAngle_toPixels (gridSize : Z) (from to : Station) :
  (0 < gridSize)%Z ->
  calculateSnapAngle (toPixels gridSize from) (toPixels gridSize to)
  = calculateSnapAngle from to.
Proof. apply snap_toPixels. Qed.

Lemma calculateSnapAngle_toPixels_witness :
  calculateSnapAngle (toPixels 16 (mkStation 0 10)) (toPixels 16 (mkStation 14 14))
  = calculateSnapAngle (mkStation 0 10) (mkStation 14 14).
Proof. apply calculateSnapAngle_toPixels. reflexivity. Defined.

(** X8: the table of vectors and the snapper agree: a station reached
    from [from] by a positive number of steps along the vector
    [DIRECTION_VECTORS d] snaps to [d], for each of the eight directions. *)
Theorem calculateSnapAngle_along_direction
  (from : Station) (d : Direction) (k : Z) :
  (0 < k)%Z ->
  calculateSnapAngle
    from
    (translate from (k * dx (DIRECTION_VECTORS d)) (k * dy (DIRECTION_VECTORS d)))
  = d.
Proof.
  intros Hk. rewrite calculateSnapAngle_exact. unfold translate.
  cbn [vertexX vertexY].
  replace (vertexX from + k * dx (DIRECTION_VECTORS d) - vertexX from)%Z
    with (k * dx (DIRECTION_VECTORS d))%Z by ring.
  replace (vertexY from + k * dy (DIRECTION_VECTORS d) - vertexY from)%Z
    with (k * dy (DIRECTION_VECTORS d))%Z by ring.
  unfold snapVector.
  destruct d; cbn [DIRECTION_VECTORS dx dy];
    rewrite ?Z.mul_0_r, ?Z.mul_1_r;
    replace (k * -1)%Z with (- k)%Z by ring;
    rewrite ?Z.abs_opp, ?(Z.abs_eq k) by lia;
    cbn [Z.abs];
    repeat match goal with
           | |- context [Z.ltb ?a ?b] => destruct (Z.ltb_spec a b)
           end; try reflexivity; nia.
Qed.

Lemma calculateSnapAngle_along_direction_witness :
  calculateSnapAngle
    (mkStation 2 3)
    (translate (mkStation 2 3) (4 * dx (DIRECTION_VECTORS NORTHWEST))
               (4 * dy (DIRECTION_VECTORS NORTHWEST)))
  = NORTHWEST.
Proof.
  apply (calculateSnapAngle_along_direction (mkStation 2 3) NORTHWEST 4).
  reflexivity.
Defined.

End SnapMoreFacts.

(** ** The knee of a routed segment *)

Module KneeMoreFacts.

Import JsMath LinePath Notions MoreNotions EighthTurn GridFacts BendFacts.

(** A sum of two roots is below twice a third one when its square is. *)
Lemma sum_of_roots_below_double (A B C : R) :
  0 <= A -> 0 <= B ->
  A + B + 2 * sqrt (A * B) < 4 * C -> sqrt A + sqrt B < sqrt C * 2.
Proof.
  intros HA HB Hlt.
  pose proof (sqrt_pos A). pose proof (sqrt_pos B).
  assert (HC : 0 <= C).
  { pose proof (sqrt_pos (A * B)). lra. }
  replace (sqrt C * 2) with (sqrt (4 * C)).
  2:{ rewrite sqrt_mult by lra. replace 4 with (2 * 2) by lra.
      rewrite sqrt_square by lra. ring. }
  rewrite <- (sqrt_square (sqrt A + sqrt B)) by lra.
  apply sqrt_lt_1_alt. split; [nra|].
  rewrite sqrt_mult in Hlt by assumption.
  pose proof (sqrt_sqrt A HA). pose proof (sqrt_sqrt B HB). nra.
Qed.

Lemma abs_cases (z : Z) :
  (0 <= z /\ Z.abs z = z)%Z \/ (z < 0 /\ Z.abs z = - z)%Z.
Proof. lia. Qed.

(** The vector between the stations lies within an eighth of a turn of
    the vector of the snapped direction, on either side. *)
Lemma snapVector_cone (u v : Z) :
  (u <> 0 \/ v <> 0)%Z ->
  let c := IZR (dx (DIRECTION_VECTORS (snapVector u v))) in
  let d := IZR (dy (DIRECTION_VECTORS (snapVector u v))) in
  - ((sqrt 2 - 1) * (IZR u * c + IZR v * d))
  <= IZR u * d - IZR v * c
  <= (sqrt 2 - 1) * (IZR u * c + IZR v * d).
Proof.
  intros Hnz c d. subst c d.
  destruct sqrt2_bounds as [Hs Hss].
  assert (Hx : ((Z.abs u + Z.abs v) * (Z.abs u + Z.abs v) < 2 * (u * u))%Z ->
               IZR (Z.abs v) < (sqrt 2 - 1) * IZR (Z.abs u)).
  { intros H. apply below_eighth_Z; try lia. }
  assert (Hy : ((Z.abs u + Z.abs v) * (Z.abs u + Z.abs v) < 2 * (v * v))%Z ->
               IZR (Z.abs u) < (sqrt 2 - 1) * IZR (Z.abs v)).
  { intros H. apply below_eighth_Z; try lia. }
  assert (Hx' : ~ ((Z.abs u + Z.abs v) * (Z.abs u + Z.abs v) < 2 * (u * u))%Z ->
               (sqrt 2 - 1) * IZR (Z.abs u) < IZR (Z.abs v)).
  { intros H. apply above_eighth_Z; try lia. }
  assert (Hy' : ~ ((Z.abs u + Z.abs v) * (Z.abs u + Z.abs v) < 2 * (v * v))%Z ->
               (sqrt 2 - 1) * IZR (Z.abs v) < IZR (Z.abs u)).
  { intros H. apply above_eighth_Z; try lia. }
  unfold snapVector.
  repeat match goal with
         | |- context [Z.ltb ?a ?b] => destruct (Z.ltb_spec a b)
         end; simpl;
  repeat match goal with
         | H : (_ < _)%Z -> _, H' : (_ < _)%Z |- _ => specialize (H H')
         | H : ~ (_ < _)%Z -> _, H' : (_ <= _)%Z |- _ => specialize (H ltac:(lia))
         end.
  all: destruct (abs_cases u) as [[Hu Eu]|[Hu Eu]], (abs_cases v) as [[Hv Ev]|[Hv Ev]];
    rewrite Eu, Ev, ?opp_IZR in *.
  all: try lia.
  all: try (apply IZR_le in Hu); try (apply IZR_lt in Hu);
       try (apply IZR_le in Hv); try (apply IZR_lt in Hv).
  all: try nra. all: try lra.
Qed.

(** The inequality behind the test on the detour, on the two parameters
    of the intersection: [n1] and [n2] are the squared lengths of the two
    direction vectors, [k] their scalar product and [q] the product of
    their lengths. *)
Lemma detour_bound_core (t1 t2 n1 n2 k q : R) :
  0 < t1 -> 0 < t2 -> 1 <= n1 -> 1 <= n2 -> 0 <= q -> q * q = n1 * n2 ->
  (0 <= k \/
   (k = -1 /\ q = sqrt 2 /\ ((n1 = 1 /\ n2 = 2) \/ (n1 = 2 /\ n2 = 1)) /\
    t1 <= (sqrt 2 - 1) * (n2 * t2 - t1))) ->
  t1 * t1 * n1 + t2 * t2 * n2 + 2 * (t1 * t2 * q)
  < 4 * (t1 * t1 * n1 + t2 * t2 * n2 + 2 * (t1 * t2 * k)).
Proof.
  intros Ht1 Ht2 Hn1 Hn2 Hq Hqq [Hk|(Hk & Hs & Hn & Hcone)].
  - set (A := t1 * t1 * n1). set (B := t2 * t2 * n2).
    assert (HA : 0 < A) by (subst A; apply Rmult_lt_0_compat; nra).
    assert (HB : 0 < B) by (subst B; apply Rmult_lt_0_compat; nra).
    assert (Hprod : (t1 * t2 * q) * (t1 * t2 * q) = A * B).
    { subst A B. replace (t1 * t2 * q * (t1 * t2 * q))
        with (t1 * t1 * (t2 * t2) * (q * q)) by ring. rewrite Hqq. ring. }
    assert (Hp : 0 <= t1 * t2 * q).
    { apply Rmult_le_pos; [|exact Hq]. apply Rmult_le_pos; lra. }
    assert (Hge : 2 * (t1 * t2 * q) <= A + B).
    { destruct (Rle_dec (2 * (t1 * t2 * q)) (A + B)) as [H|H]; [exact H|].
      exfalso.
      assert ((A + B) * (A + B) < 2 * (t1 * t2 * q) * (2 * (t1 * t2 * q)))
        by (apply Rmult_le_0_lt_compat; lra).
      pose proof (sum_of_squares_nonneg (A - B) 0). nra. }
    assert (0 <= t1 * t2 * k).
    { apply Rmult_le_pos; [|exact Hk]. apply Rmult_le_pos; lra. }
    lra.
  - destruct sqrt2_bounds as [Hb Hss]. subst k q.
    assert (Hpos : 0 < t1 * t2) by (apply Rmult_lt_0_compat; lra).
    destruct Hn as [[-> ->]|[-> ->]].
    + assert (Hr : (2 + sqrt 2) * t1 <= 2 * t2) by nra.
      assert (Hr2 : 0 <= (2 * t2 - (2 + sqrt 2) * t1) * t1) by (apply Rmult_le_pos; lra).
      assert (Hr3 : 0 <= (2 * t2 - (2 + sqrt 2) * t1) * t2) by (apply Rmult_le_pos; lra).
      nra.
    + assert (Hr : (2 + sqrt 2) * t1 <= t2) by nra.
      assert (Hr2 : 0 <= (t2 - (2 + sqrt 2) * t1) * t1) by (apply Rmult_le_pos; lra).
      assert (Hr3 : 0 <= (t2 - (2 + sqrt 2) * t1) * t2) by (apply Rmult_le_pos; lra).
      nra.
Qed.

Lemma routed_detour_below_double (from to : Station) (entry : Direction) :
  ~ Rabs (bendDeterminant entry (calculateSnapAngle from to)) < 1 / 10000 ->
  ~ forwardParameter from to entry (calculateSnapAngle from to) < 1 / 2 ->
  detour from to (rayIntersection from to entry (calculateSnapAngle from to))
  < directDistance from to * 2.
Proof.
  intros Hdet Hfar.
  pose proof (backwardParameter_positive from to entry Hdet Hfar) as Hback.
  pose proof (determinant_not_null entry (calculateSnapAngle from to) Hdet) as HD.
  rewrite (detour_as_roots from to entry _ Hdet).
  rewrite (directDistance_as_root from to entry _ Hdet).
  rewrite <- !(forwardParameter_quotient from to entry (calculateSnapAngle from to)).
  rewrite <- !(backwardParameter_quotient from to entry (calculateSnapAngle from to)).
  assert (Hne : bendDeterminant entry (calculateSnapAngle from to) <> 0).
  { rewrite bendDeterminant_integer. apply not_0_IZR. exact HD. }
  clear HD Hdet.
  set (t1 := forwardParameter from to entry (calculateSnapAngle from to)) in *.
  set (t2 := backwardParameter from to entry (calculateSnapAngle from to)) in *.
  set (u := (vertexX to - vertexX from)%Z).
  set (v := (vertexY to - vertexY from)%Z).
  assert (E1 : t1 * bendDeterminant entry (calculateSnapAngle from to)
               = IZR u * (- IZR (dy (DIRECTION_VECTORS (calculateSnapAngle from to))))
                 - IZR v * (- IZR (dx (DIRECTION_VECTORS (calculateSnapAngle from to))))).
  { subst t1 u v. unfold forwardParameter. rewrite !minus_IZR. field. exact Hne. }
  assert (E2 : t2 * bendDeterminant entry (calculateSnapAngle from to)
               = IZR u * IZR (dy (DIRECTION_VECTORS entry))
                 - IZR v * IZR (dx (DIRECTION_VECTORS entry))).
  { subst t2 u v. unfold backwardParameter. rewrite !minus_IZR. field. exact Hne. }
  assert (Hnz : (u <> 0 \/ v <> 0)%Z).
  { destruct (Z.eq_dec u 0) as [Hu|Hu]; [|now left].
    destruct (Z.eq_dec v 0) as [Hv|Hv]; [|now right].
    exfalso. rewrite Hu, Hv in E1.
    assert (t1 = 0) by nra. lra. }
  pose proof (snapVector_cone u v Hnz) as Hcone. cbv zeta in Hcone.
  rewrite calculateSnapAngle_exact in *. fold u v in Hne, E1, E2 |- *.
  unfold bendDeterminant in *.
  set (direct := snapVector u v) in *.
  clearbody t1 t2 direct. clearbody u v.
  rewrite !plus_IZR, !mult_IZR.
  set (n1 := IZR (dx (DIRECTION_VECTORS entry)) * IZR (dx (DIRECTION_VECTORS entry))
             + IZR (dy (DIRECTION_VECTORS entry)) * IZR (dy (DIRECTION_VECTORS entry))).
  set (n2 := IZR (dx (DIRECTION_VECTORS direct)) * IZR (dx (DIRECTION_VECTORS direct))
             + IZR (dy (DIRECTION_VECTORS direct)) * IZR (dy (DIRECTION_VECTORS direct))).
  set (k := IZR (dx (DIRECTION_VECTORS entry)) * IZR (dx (DIRECTION_VECTORS direct))
            + IZR (dy (DIRECTION_VECTORS entry)) * IZR (dy (DIRECTION_VECTORS direct))).
  assert (Hn1 : 1 <= n1) by (subst n1; destruct entry; simpl; lra).
  assert (Hn2 : 1 <= n2) by (subst n2; destruct direct; simpl; lra).
  assert (Ht1 : 0 < t1) by lra.
  apply sum_of_roots_below_double.
  - apply Rmult_le_pos; nra.
  - apply Rmult_le_pos; nra.
  - replace (t1 * t1 * n1 * (t2 * t2 * n2))
      with ((t1 * t2) * (t1 * t2) * (n1 * n2)) by ring.
    rewrite sqrt_mult by nra. rewrite sqrt_square by nra.
    apply detour_bound_core; try assumption.
    + apply sqrt_pos.
    + apply sqrt_sqrt. nra.
    + subst n1 n2 k. clear Hn1 Hn2.
      destruct entry, direct; simpl in *;
        try (exfalso; apply Hne; lra);
        try (left; lra);
        right.
      all: pose proof (f_equal (Rmult (sqrt 2)) E1) as E1s;
        pose proof (f_equal (Rmult (sqrt 2)) E2) as E2s;
        split; [lra | split; [f_equal; lra | split; [first [left; lra | right; lra] | lra]]].
Qed.

(** The knee of a routed segment: the test on the detour never decides. *)
Lemma routed_knee (from to : Station) (entry : Direction) :
  calculateOptimalBendPosition from to entry (calculateSnapAngle from to)
  = if Rlt_dec (Rabs (bendDeterminant entry (calculateSnapAngle from to)))
               (1 / 10000)
    then midpoint from to
    else if Rlt_dec (forwardParameter from to entry (calculateSnapAngle from to))
                    (1 / 2)
         then midpoint from to
         else rayIntersection from to entry (calculateSnapAngle from to).
Proof.
  rewrite calculateOptimalBendPosition_tests.
  destruct (Rlt_dec _ _) as [Hd|Hd]; [reflexivity|].
  destruct (Rlt_dec _ _) as [Hf|Hf]; [reflexivity|].
  destruct (Rlt_dec _ _) as [Hs|Hs]; [reflexivity|].
  contradiction Hs. now apply routed_detour_below_double.
Qed.

Lemma notes_knee (from to : Station) (angle1 angle2 : Direction) :
  RenderingNotes.calculateOptimalBendPosition from to angle1 angle2
  = if Rlt_dec (Rabs (bendDeterminant angle1 angle2)) (1 / 10000)
    then midpoint from to
    else if Rlt_dec (forwardParameter from to angle1 angle2) (1 / 2)
         then midpoint from to
         else rayIntersection from to angle1 angle2.
Proof.
  unfold RenderingNotes.calculateOptimalBendPosition, solveLineIntersection.
  fold (bendDeterminant angle1 angle2).
  destruct (Rlt_dec (Rabs (bendDeterminant angle1 angle2)) (1 / 10000));
    [reflexivity|].
  fold (forwardParameter from to angle1 angle2).
  destruct (Rlt_dec (forwardParameter from to angle1 angle2) (1 / 2));
    reflexivity.
Qed.

(** X9: the test on the detour in [calculateOptimalBendPosition] never
    rejects an intersection when the second direction is the snapped one,
    as it is in every call [calculateSegmentPath] leads to: whatever point
    [solveLineIntersection] finds, the way over it is shorter than twice
    the direct distance. *)
Theorem detour_test_never_rejects
  (from to : Station) (entry : Direction) (p : R * R) :
  solveLineIntersection
    (IZR (vertexX from)) (IZR (vertexY from))
    (IZR (dx (DIRECTION_VECTORS entry))) (IZR (dy (DIRECTION_VECTORS entry)))
    (IZR (vertexX to)) (IZR (vertexY to))
    (- IZR (dx (DIRECTION_VECTORS (calculateSnapAngle from to))))
    (- IZR (dy (DIRECTION_VECTORS (calculateSnapAngle from to))))
  = Some p ->
  detour from to p < directDistance from to * 2.
Proof.
  unfold solveLineIntersection.
  fold (bendDeterminant entry (calculateSnapAngle from to)).
  destruct (Rlt_dec _ _) as [Hd|Hd]; [discriminate|].
  fold (forwardParameter from to entry (calculateSnapAngle from to)).
  destruct (Rlt_dec _ _) as [Hf|Hf]; [discriminate|].
  intros Hp. inversion Hp as [Hp']. clear Hp Hp'.
  fold (rayIntersection from to entry (calculateSnapAngle from to)).
  now apply routed_detour_below_double.
Qed.

Lemma detour_test_never_rejects_witness :
  detour (mkStation 0 0) (mkStation 3 2) (1, 0)
  < directDistance (mkStation 0 0) (mkStation 3 2) * 2.
Proof.
  apply (detour_test_never_rejects (mkStation 0 0) (mkStation 3 2) EAST (1, 0)).
  rewrite calculateSnapAngle_exact. cbn.
  unfold solveLineIntersection.
  destruct (Rlt_dec _ _) as [Hd|Hd].
  - exfalso. replace (1 * - (1) - 0 * - (1)) with (-1) in Hd by lra.
    rewrite Rabs_left in Hd by lra. lra.
  - destruct (Rlt_dec _ _) as [Hf|Hf].
    + exfalso. apply (Rmult_lt_compat_r 1) in Hf; [|lra].
      replace (((3 - 0) * - (1) - (2 - 0) * - (1)) / (1 * - (1) - 0 * - (1)))
        with 1 in Hf by (field; lra). lra.
    + f_equal. f_equal.
      * replace (((3 - 0) * - (1) - (2 - 0) * - (1)) / (1 * - (1) - 0 * - (1)))
          with 1 by (field; lra). lra.
      * lra.
Defined.

Lemma notes_segment
  (from to : Station) (previousAngle : option Direction)
  (nextSegment : option Station) :
  RenderingNotes.calculateSegmentPath from to previousAngle nextSegment
  = calculateSegmentPath from to previousAngle.
Proof.
  unfold RenderingNotes.calculateSegmentPath, calculateSegmentPath.
  set (direct := calculateSnapAngle from to).
  set (entry := match previousAngle with Some a => a | None => direct end).
  assert (Hw : RenderingNotes.generateWaypoints from to entry direct
               = generateWaypoints from to entry direct).
  { unfold RenderingNotes.generateWaypoints, generateWaypoints.
    destruct (Direction_eq_dec entry direct) as [He|He]; [reflexivity|].
    unfold RenderingNotes.calculateBendPoints, RenderingNotes.lastOutgoing.
    cbn [length Nat.sub nth_error outgoingAngle app].
    subst direct. now rewrite routed_knee, notes_knee. }
  rewrite Hw. f_equal.
  unfold generateWaypoints.
  destruct (Direction_eq_dec entry direct) as [He|He]; cbn.
  - now rewrite He.
  - reflexivity.
Qed.

(** X10: the segment router of the rendering notes, which keeps every
    intersection found and reads the exit direction off the waypoint
    before the last, returns the segment [calculateSegmentPath] of
    LinePath.ts returns, for all stations and every entry direction; its
    fourth argument has no effect. *)
Theorem notes_calculateSegmentPath_agrees
  (from to : Station) (previousAngle : option Direction)
  (nextSegment : option Station) :
  RenderingNotes.calculateSegmentPath from to previousAngle nextSegment
  = calculateSegmentPath from to previousAngle.
Proof. apply notes_segment. Qed.

(** *** solveLineIntersection *)

(** X11: a point answered by [solveLineIntersection] lies on both lines,
    at a parameter of one half or more on the first; it is the only point
    the two lines share. *)
Theorem solveLineIntersection_sound
  (x1 y1 dx1 dy1 x2 y2 dx2 dy2 : R) (p : R * R) :
  solveLineIntersection x1 y1 dx1 dy1 x2 y2 dx2 dy2 = Some p ->
  exists t1 t2 : R,
    1 / 2 <= t1 /\
    p = (x1 + t1 * dx1, y1 + t1 * dy1) /\
    p = (x2 + t2 * dx2, y2 + t2 * dy2) /\
    forall s1 s2 : R,
      x1 + s1 * dx1 = x2 + s2 * dx2 ->
      y1 + s1 * dy1 = y2 + s2 * dy2 ->
      s1 = t1 /\ s2 = t2.
Proof.
  unfold solveLineIntersection.
  set (det := dx1 * dy2 - dy1 * dx2).
  destruct (Rlt_dec (Rabs det) (1 / 10000)) as [Hd|Hd]; [discriminate|].
  assert (Hne : det <> 0).
  { intros H0. apply Hd. rewrite H0, Rabs_R0. lra. }
  set (t1 := ((x2 - x1) * dy2 - (y2 - y1) * dx2) / det).
  destruct (Rlt_dec t1 (1 / 2)) as [Hf|Hf]; [discriminate|].
  intros Hp. inversion Hp as [Hp']. clear Hp Hp'.
  set (t2 := ((x2 - x1) * dy1 - (y2 - y1) * dx1) / det).
  assert (E1 : t1 * det = (x2 - x1) * dy2 - (y2 - y1) * dx2)
    by (subst t1; field; exact Hne).
  assert (E2 : t2 * det = (x2 - x1) * dy1 - (y2 - y1) * dx1)
    by (subst t2; field; exact Hne).
  exists t1, t2. split; [lra|]. split; [reflexivity|]. split.
  - f_equal.
    + apply Rmult_eq_reg_r with (r := det); [|exact Hne].
      transitivity (x1 * det + (t1 * det) * dx1); [ring|].
      transitivity (x2 * det + (t2 * det) * dx2); [|ring].
      rewrite E1, E2. subst det. ring.
    + apply Rmult_eq_reg_r with (r := det); [|exact Hne].
      transitivity (y1 * det + (t1 * det) * dy1); [ring|].
      transitivity (y2 * det + (t2 * det) * dy2); [|ring].
      rewrite E1, E2. subst det. ring.
  - intros s1 s2 Hx Hy.
    split; apply Rmult_eq_reg_r with (r := det); try exact Hne.
    + rewrite E1. subst det.
      replace (x2 - x1) with (s1 * dx1 - s2 * dx2) by lra.
      replace (y2 - y1) with (s1 * dy1 - s2 * dy2) by lra. ring.
    + rewrite E2. subst det.
      replace (x2 - x1) with (s1 * dx1 - s2 * dx2) by lra.
      replace (y2 - y1) with (s1 * dy1 - s2 * dy2) by lra. ring.
Qed.

Lemma solveLineIntersection_sound_witness :
  exists t1 t2 : R,
    1 / 2 <= t1 /\
    (1, 0) = (0 + t1 * 1, 0 + t1 * 0) /\
    (1, 0) = (3 + t2 * - (1), 2 + t2 * - (1)) /\
    forall s1 s2 : R,
      0 + s1 * 1 = 3 + s2 * - (1) ->
      0 + s1 * 0 = 2 + s2 * - (1) ->
      s1 = t1 /\ s2 = t2.
Proof.
  apply (solveLineIntersection_sound 0 0 1 0 3 2 (- (1)) (- (1)) (1, 0)).
  unfold solveLineIntersection.
  destruct (Rlt_dec _ _) as [Hd|Hd].
  - exfalso. replace (1 * - (1) - 0 * - (1)) with (-1) in Hd by lra.
    rewrite Rabs_left in Hd by lra. lra.
  - destruct (Rlt_dec _ _) as [Hf|Hf].
    + exfalso. apply (Rmult_lt_compat_r 1) in Hf; [|lra].
      replace (((3 - 0) * - (1) - (2 - 0) * - (1)) / (1 * - (1) - 0 * - (1)))
        with 1 in Hf by (field; lra). lra.
    + f_equal. f_equal.
      * replace (((3 - 0) * - (1) - (2 - 0) * - (1)) / (1 * - (1) - 0 * - (1)))
          with 1 by (field; lra). lra.
      * lra.
Defined.

(** *** Knees on the half grid *)

Lemma onHalfGrid_integer (z : Z) : onHalfGrid (IZR z).
Proof. exists (2 * z)%Z. rewrite mult_IZR. lra. Qed.

Lemma onHalfGrid_plus (p q : R) : onHalfGrid p -> onHalfGrid q -> onHalfGrid (p + q).
Proof.
  intros [m ->] [n ->]. exists (m + n)%Z. rewrite plus_IZR. lra.
Qed.

Lemma onHalfGrid_times (p : R) (z : Z) : onHalfGrid p -> onHalfGrid (p * IZR z).
Proof.
  intros [m ->]. exists (m * z)%Z. rewrite mult_IZR. lra.
Qed.

Lemma onHalfGrid_midpoint (from to : Station) :
  onHalfGrid (fst (midpoint from to)) /\ onHalfGrid (snd (midpoint from to)).
Proof.
  unfold midpoint. simpl. split.
  - exists (vertexX from + vertexX to)%Z. now rewrite plus_IZR.
  - exists (vertexY from + vertexY to)%Z. now rewrite plus_IZR.
Qed.

(** The determinant of two directions is 0, 1 or 2 in absolute value, so
    the parameter of the intersection is a whole number of halves. *)
Lemma forwardParameter_onHalfGrid
  (from to : Station) (angle1 angle2 : Direction) :
  ~ Rabs (bendDeterminant angle1 angle2) < 1 / 10000 ->
  onHalfGrid (forwardParameter from to angle1 angle2).
Proof.
  intros Hdet.
  pose proof (determinant_not_null angle1 angle2 Hdet) as HD.
  rewrite forwardParameter_quotient.
  set (T := (_ - _)%Z) at 1. clearbody T.
  set (D := (_ - _)%Z) in *.
  assert (HDv : (D = 1 \/ D = -1 \/ D = 2 \/ D = -2)%Z).
  { subst D. destruct angle1, angle2; simpl in *; lia. }
  clearbody D. destruct HDv as [-> | [-> | [-> | ->]]].
  - exists (2 * T)%Z. rewrite mult_IZR. field.
  - exists (- 2 * T)%Z. rewrite mult_IZR. field.
  - exists T. reflexivity.
  - exists (- T)%Z. rewrite opp_IZR. field.
Qed.

(** X12: the knee [calculateOptimalBendPosition] answers has coordinates
    that are whole numbers of halves, for all stations and every pair of
    directions: the determinant of two directions is 1 or 2 in absolute
    value when it is not null, and the fallback is the midpoint. *)
Theorem knee_on_half_grid (from to : Station) (angle1 angle2 : Direction) :
  onHalfGrid (fst (calculateOptimalBendPosition from to angle1 angle2)) /\
  onHalfGrid (snd (calculateOptimalBendPosition from to angle1 angle2)).
Proof.
  rewrite calculateOptimalBendPosition_tests.
  destruct (Rlt_dec _ _) as [Hd|Hd]; [apply onHalfGrid_midpoint|].
  destruct (Rlt_dec _ _) as [Hf|Hf]; [apply onHalfGrid_midpoint|].
  destruct (Rlt_dec _ _) as [Hs|Hs]; [|apply onHalfGrid_midpoint].
  pose proof (forwardParameter_onHalfGrid from to angle1 angle2 Hd) as Ht.
  unfold rayIntersection. simpl.
  split; apply onHalfGrid_plus;
    auto using onHalfGrid_integer, onHalfGrid_times.
Qed.

(** *** Translation *)

Lemma forwardParameter_translate
  (from to : Station) (vx vy : Z) (angle1 angle2 : Direction) :
  forwardParameter (translate from vx vy) (translate to vx vy) angle1 angle2
  = forwardParameter from to angle1 angle2.
Proof.
  unfold forwardParameter, translate. cbn [vertexX vertexY].
  rewrite !plus_IZR. f_equal. ring.
Qed.

Lemma rayIntersection_translate
  (from to : Station) (vx vy : Z) (angle1 angle2 : Direction) :
  rayIntersection (translate from vx vy) (translate to vx vy) angle1 angle2
  = (fst (rayIntersection from to angle1 angle2) + IZR vx,
     snd (rayIntersection from to angle1 angle2) + IZR vy).
Proof.
  unfold rayIntersection. rewrite forwardParameter_translate.
  unfold translate. cbn [vertexX vertexY fst snd].
  rewrite !plus_IZR. f_equal; ring.
Qed.

Lemma midpoint_translate (from to : Station) (vx vy : Z) :
  midpoint (translate from vx vy) (translate to vx vy)
  = (fst (midpoint from to) + IZR vx, snd (midpoint from to) + IZR vy).
Proof.
  unfold midpoint, translate. cbn [vertexX vertexY fst snd].
  rewrite !plus_IZR. f_equal; field.
Qed.

Lemma knee_translate
  (from to : Station) (vx vy : Z) (angle1 angle2 : Direction) :
  calculateOptimalBendPosition (translate from vx vy) (translate to vx vy)
                               angle1 angle2
  = (fst (calculateOptimalBendPosition from to angle1 angle2) + IZR vx,
     snd (calculateOptimalBendPosition from to angle1 angle2) + IZR vy).
Proof.
  rewrite !calculateOptimalBendPosition_tests.
  rewrite forwardParameter_translate, rayIntersection_translate,
    midpoint_translate.
  replace (detour (translate from vx vy) (translate to vx vy)
             (fst (rayIntersection from to angle1 angle2) + IZR vx,
              snd (rayIntersection from to angle1 angle2) + IZR vy))
    with (detour from to (rayIntersection from to angle1 angle2)).
  2:{ unfold detour, translate. cbn [vertexX vertexY fst snd].
      rewrite !plus_IZR. f_equal; f_equal; ring. }
  replace (directDistance (translate from vx vy) (translate to vx vy))
    with (directDistance from to).
  2:{ unfold directDistance, translate. cbn [vertexX vertexY].
      rewrite !plus_IZR. f_equal; ring. }
  repeat destruct (Rlt_dec _ _); reflexivity.
Qed.

Lemma snap_translate (from to : Station) (vx vy : Z) :
  calculateSnapAngle (translate from vx vy) (translate to vx vy)
  = calculateSnapAngle from to.
Proof.
  rewrite !calculateSnapAngle_exact. unfold translate. cbn [vertexX vertexY].
  f_equal; lia.
Qed.

(** X13: [calculateSegmentPath] commutes with translations of the grid:
    moving both stations by an integer vector moves every waypoint by that
    vector and leaves the entry and exit directions and the kinds and
    directions of the waypoints as they are. *)
Theorem calculateSegmentPath_translation
  (from to : Station) (vx vy : Z) (previousAngle : option Direction) :
  let segment := calculateSegmentPath from to previousAngle in
  calculateSegmentPath (translate from vx vy) (translate to vx vy) previousAngle
  = mkLineSegment (translate from vx vy) (translate to vx vy)
                  (entryAngle segment) (exitAngle segment)
                  (map (shiftWaypoint vx vy) (waypoints segment)).
Proof.
  unfold calculateSegmentPath. rewrite snap_translate.
  cbn [entryAngle exitAngle waypoints]. f_equal.
  set (direct := calculateSnapAngle from to).
  set (entry := match previousAngle with Some a => a | None => direct end).
  unfold generateWaypoints.
  destruct (Direction_eq_dec entry direct) as [He|He];
    unfold shiftWaypoint, translate; cbn [map x y type incomingAngle outgoingAngle vertexX vertexY];
    rewrite !plus_IZR.
  - reflexivity.
  - fold (translate from vx vy). fold (translate to vx vy).
    rewrite knee_translate. reflexivity.
Qed.

(** *** Scale *)

Lemma forwardParameter_toPixels
  (g : Z) (from to : Station) (angle1 angle2 : Direction) :
  forwardParameter (RenderingNotes.toPixels g from) (RenderingNotes.toPixels g to)
                   angle1 angle2
  = forwardParameter from to angle1 angle2 * IZR g.
Proof.
  unfold forwardParameter, RenderingNotes.toPixels. cbn [vertexX vertexY].
  rewrite !mult_IZR. unfold Rdiv. ring.
Qed.

(** A whole number of halves is below one half when it is not positive,
    whatever positive whole number multiplies it. *)
Lemma half_test_scale (t : R) (g : Z) :
  (0 < g)%Z -> onHalfGrid t -> (t * IZR g < 1 / 2 <-> t < 1 / 2).
Proof.
  intros Hg [m ->].
  assert (H1 : IZR m / 2 < 1 / 2 <-> (m <= 0)%Z).
  { split; intros H.
    - assert (Hlt : IZR m < 1) by lra. apply lt_IZR in Hlt. lia.
    - apply IZR_le in H. lra. }
  assert (H2 : IZR m / 2 * IZR g < 1 / 2 <-> (m * g <= 0)%Z).
  { split; intros H.
    - assert (Hlt : IZR (m * g) < 1) by (rewrite mult_IZR; lra).
      apply lt_IZR in Hlt. lia.
    - apply IZR_le in H. rewrite mult_IZR in H. lra. }
  rewrite H1, H2. nia.
Qed.

Lemma knee_toPixels (g : Z) (from to : Station) (entry : Direction) :
  (0 < g)%Z ->
  calculateOptimalBendPosition
    (RenderingNotes.toPixels g from) (RenderingNotes.toPixels g to)
    entry (calculateSnapAngle from to)
  = (fst (calculateOptimalBendPosition from to entry (calculateSnapAngle from to))
     * IZR g,
     snd (calculateOptimalBendPosition from to entry (calculateSnapAngle from to))
     * IZR g).
Proof.
  intros Hg.
  rewrite <- (SnapMoreFacts.snap_toPixels g from to Hg) at 1.
  rewrite !routed_knee.
  rewrite (SnapMoreFacts.snap_toPixels g from to Hg).
  destruct (Rlt_dec _ _) as [Hd|Hd].
  - unfold midpoint, RenderingNotes.toPixels. cbn [vertexX vertexY fst snd].
    rewrite !mult_IZR. f_equal; field.
  - pose proof (half_test_scale _ g Hg
                  (forwardParameter_onHalfGrid from to entry _ Hd)) as Htest.
    rewrite forwardParameter_toPixels.
    destruct (Rlt_dec _ _) as [Hf|Hf], (Rlt_dec _ _) as [Hf'|Hf'];
      try tauto.
    + unfold midpoint, RenderingNotes.toPixels. cbn [vertexX vertexY fst snd].
      rewrite !mult_IZR. f_equal; field.
    + unfold rayIntersection. rewrite forwardParameter_toPixels.
      unfold RenderingNotes.toPixels. cbn [vertexX vertexY fst snd].
      rewrite !mult_IZR. f_equal; ring.
Qed.

(** X14: [calculateSegmentPath] commutes with the change to pixel
    coordinates of [renderLine]: for a positive whole grid size the segment
    between the pixel stations has the waypoints of the segment between
    the grid stations, scaled by the grid size, with the same directions.
    The threshold of one half in [solveLineIntersection] does not break
    this, because the parameter of the intersection is a whole number of
    halves. *)
Theorem calculateSegmentPath_toPixels
  (gridSize : Z) (from to : Station) (previousAngle : option Direction) :
  (0 < gridSize)%Z ->
  let segment := calculateSegmentPath from to previousAngle in
  calculateSegmentPath (RenderingNotes.toPixels gridSize from)
                       (RenderingNotes.toPixels gridSize to) previousAngle
  = mkLineSegment (RenderingNotes.toPixels gridSize from)
                  (RenderingNotes.toPixels gridSize to)
                  (entryAngle segment) (exitAngle segment)
                  (map (scaleWaypoint gridSize) (waypoints segment)).
Proof.
  intros Hg. unfold calculateSegmentPath.
  rewrite (SnapMoreFacts.snap_toPixels gridSize from to Hg).
  cbn [entryAngle exitAngle waypoints]. f_equal.
  set (entry := match previousAngle with
                | Some a => a
                | None => calculateSnapAngle from to
                end).
  unfold generateWaypoints.
  destruct (Direction_eq_dec entry (calculateSnapAngle from to)) as [He|He];
    unfold scaleWaypoint;
    cbn [map x y type incomingAngle outgoingAngle].
  - unfold RenderingNotes.toPixels. cbn [vertexX vertexY].
    rewrite !mult_IZR. reflexivity.
  - rewrite (knee_toPixels gridSize from to entry Hg).
    unfold RenderingNotes.toPixels. cbn [vertexX vertexY fst snd].
    rewrite !mult_IZR. reflexivity.
Qed.

Lemma calculateSegmentPath_toPixels_witness :
  calculateSegmentPath (RenderingNotes.toPixels 20 (mkStation 0 0))
                       (RenderingNotes.toPixels 20 (mkStation 3 2)) (Some EAST)
  = mkLineSegment
      (RenderingNotes.toPixels 20 (mkStation 0 0))
      (RenderingNotes.toPixels 20 (mkStation 3 2))
      (entryAngle (calculateSegmentPath (mkStation 0 0) (mkStation 3 2) (Some EAST)))
      (exitAngle (calculateSegmentPath (mkStation 0 0) (mkStation 3 2) (Some EAST)))
      (map (scaleWaypoint 20)
           (waypoints (calculateSegmentPath (mkStation 0 0) (mkStation 3 2) (Some EAST)))).
Proof.
  apply (calculateSegmentPath_toPixels 20 (mkStation 0 0) (mkStation 3 2) (Some EAST)).
  reflexivity.
Defined.

End KneeMoreFacts.

(** ** The renderer of the notes *)

Module RenderingFacts.

Import JsMath JsNumber LinePath CornerRounding Notions MoreNotions AngleFacts
       GridFacts.
Import AngleMoreFacts.

Lemma segmentsFrom_cons
  (previousAngle : option Direction) (a b : Station) (rest : list Station) :
  RenderingNotes.segmentsFrom previousAngle (a :: b :: rest)
  = RenderingNotes.calculateSegmentPath a b previousAngle (hd_error rest)
    :: RenderingNotes.segmentsFrom
         (Some (exitAngle (RenderingNotes.calculateSegmentPath a b previousAngle (hd_error rest))))
         (b :: rest).
Proof. reflexivity. Qed.

Lemma segmentsFrom_length (stations : list Station) :
  forall previousAngle,
    length (RenderingNotes.segmentsFrom previousAngle stations) = (length stations - 1)%nat.
Proof.
  induction stations as [|a [|b rest] IH]; intros prev; try reflexivity.
  rewrite segmentsFrom_cons. cbn [length]. rewrite IH. cbn [length]. lia.
Qed.

Lemma segmentsFrom_nth (stations : list Station) :
  forall previousAngle i segment,
    nth_error (RenderingNotes.segmentsFrom previousAngle stations) i = Some segment ->
    exists a b,
      nth_error stations i = Some a /\ nth_error stations (S i) = Some b /\
      fromStation segment = a /\ toStation segment = b /\
      exitAngle segment = calculateSnapAngle a b /\
      waypoints segment
      = generateWaypoints a b (entryAngle segment) (exitAngle segment).
Proof.
  induction stations as [|a [|b rest] IH]; intros prev i segment Hn;
    try (destruct i; discriminate).
  rewrite segmentsFrom_cons in Hn. destruct i as [|i].
  - cbn [nth_error] in Hn. inversion Hn as [Hs]. clear Hn Hs.
    exists a, b. rewrite KneeMoreFacts.notes_segment.
    repeat split; reflexivity.
  - cbn [nth_error] in Hn. apply IH in Hn.
    destruct Hn as (a' & b' & Ha & Hb & Hrest). exists a', b'.
    split; [exact Ha|]. split; [exact Hb|]. exact Hrest.
Qed.

Lemma segmentsFrom_first (stations : list Station) :
  forall previousAngle segment,
    nth_error (RenderingNotes.segmentsFrom previousAngle stations) 0 = Some segment ->
    entryAngle segment
    = match previousAngle with Some p => p | None => exitAngle segment end.
Proof.
  destruct stations as [|a [|b rest]]; intros prev segment Hn;
    try discriminate.
  rewrite segmentsFrom_cons in Hn. cbn [nth_error] in Hn. inversion Hn as [Hs]. clear Hn Hs.
  rewrite KneeMoreFacts.notes_segment. destruct prev; reflexivity.
Qed.

Lemma segmentsFrom_next (stations : list Station) :
  forall previousAngle i s1 s2,
    nth_error (RenderingNotes.segmentsFrom previousAngle stations) i = Some s1 ->
    nth_error (RenderingNotes.segmentsFrom previousAngle stations) (S i) = Some s2 ->
    entryAngle s2 = exitAngle s1 /\ fromStation s2 = toStation s1.
Proof.
  induction stations as [|a [|b rest] IH]; intros prev i s1 s2 H1 H2;
    try (destruct i; discriminate).
  rewrite segmentsFrom_cons in H1, H2. destruct i as [|i].
  - cbn [nth_error] in H1. inversion H1 as [Hs]. clear H1 Hs.
    assert (H2' : nth_error
                    (RenderingNotes.segmentsFrom
                       (Some (exitAngle (RenderingNotes.calculateSegmentPath a b prev (hd_error rest))))
                       (b :: rest)) 0 = Some s2) by exact H2.
    clear H2. rename H2' into H2.
    pose proof (segmentsFrom_first _ _ _ H2) as He.
    destruct (segmentsFrom_nth _ _ _ _ H2) as (a' & b' & Ha & _ & Hf & _).
    cbn [nth_error] in Ha. injection Ha as <-.
    split; [exact He|]. rewrite Hf. rewrite KneeMoreFacts.notes_segment. reflexivity.
  - exact (IH _ _ _ _ H1 H2).
Qed.

Lemma bendCount_generated (from to : Station) (e t : Direction) :
  (bendCount (generateWaypoints from to e t) <= 1)%nat /\
  (e = t -> bendCount (generateWaypoints from to e t) = 0%nat).
Proof.
  destruct (Direction_eq_dec e t) as [<-|Hne].
  - rewrite RouterFacts.generateWaypoints_straight. cbn. lia.
  - rewrite RouterFacts.generateWaypoints_bend by exact Hne. cbn. split; [lia|].
    intros H. contradiction.
Qed.

Lemma bendTotal_segmentsFrom (stations : list Station) :
  forall previousAngle,
    (bendTotal (RenderingNotes.segmentsFrom previousAngle stations)
     <= length stations - 1)%nat /\
    (previousAngle = None ->
     bendTotal (RenderingNotes.segmentsFrom previousAngle stations)
     <= length stations - 2)%nat.
Proof.
  induction stations as [|a [|b rest] IH]; intros prev;
    try (cbn; split; intros; lia).
  rewrite segmentsFrom_cons, KneeMoreFacts.notes_segment.
  destruct (IH (Some (exitAngle (calculateSegmentPath a b prev)))) as [IH1 _].
  unfold bendTotal in *. cbn [map list_sum fold_right length] in *.
  assert (Hw : waypoints (calculateSegmentPath a b prev)
               = generateWaypoints a b
                   match prev with Some p => p | None => calculateSnapAngle a b end
                   (calculateSnapAngle a b)) by reflexivity.
  rewrite Hw.
  destruct (bendCount_generated a b
              match prev with Some p => p | None => calculateSnapAngle a b end
              (calculateSnapAngle a b)) as [H1 H0].
  unfold list_sum in *. cbn [fold_right].
  split.
  - lia.
  - intros ->. specialize (H0 eq_refl). lia.
Qed.

(** X15: the segments [renderLine] computes for a line.  There is one
    segment per pair of consecutive stations, between their pixel
    positions, with the snapped direction of the pair as exit direction and
    the waypoints of [generateWaypoints] for its entry and exit direction;
    the first segment is entered in its own direction; every later segment
    starts where the one before ends and is entered in the exit direction of
    the one before; and the line has at most as many bends as it has
    stations between its first and its last. *)
Theorem lineSegments_chain (gridSize : Z) (stations : list Station) :
  let segments := RenderingNotes.lineSegments gridSize stations in
  length segments = (length stations - 1)%nat /\
  (forall i segment,
     nth_error segments i = Some segment ->
     exists a b,
       nth_error stations i = Some a /\ nth_error stations (S i) = Some b /\
       fromStation segment = RenderingNotes.toPixels gridSize a /\
       toStation segment = RenderingNotes.toPixels gridSize b /\
       exitAngle segment
       = calculateSnapAngle (RenderingNotes.toPixels gridSize a) (RenderingNotes.toPixels gridSize b) /\
       waypoints segment
       = generateWaypoints (fromStation segment) (toStation segment)
                           (entryAngle segment) (exitAngle segment)) /\
  (forall segment,
     nth_error segments 0 = Some segment ->
     entryAngle segment = exitAngle segment) /\
  (forall i s1 s2,
     nth_error segments i = Some s1 -> nth_error segments (S i) = Some s2 ->
     entryAngle s2 = exitAngle s1 /\ fromStation s2 = toStation s1) /\
  (bendTotal segments <= length stations - 2)%nat.
Proof.
  intros segments. subst segments. unfold RenderingNotes.lineSegments.
  destruct (Nat.ltb_spec (length stations) 2) as [Hshort|Hlong].
  - split; [cbn; lia|]. split; [|split; [|split]]; try (cbn; lia);
      intros; destruct i || idtac; discriminate.
  - split; [rewrite segmentsFrom_length, length_map; reflexivity|].
    split; [|split; [|split]].
    + intros i segment Hn.
      destruct (segmentsFrom_nth _ _ _ _ Hn) as (a & b & Ha & Hb & Hf & Ht & He & Hw).
      rewrite nth_error_map in Ha, Hb.
      destruct (nth_error stations i) as [a0|]; [|discriminate].
      destruct (nth_error stations (S i)) as [b0|]; [|discriminate].
      cbn in Ha, Hb. injection Ha as <-. injection Hb as <-.
      exists a0, b0. rewrite Hw, Hf, Ht.
      repeat split; try reflexivity; assumption.
    + intros segment Hn. exact (segmentsFrom_first _ _ _ Hn).
    + intros i s1 s2 H1 H2. exact (segmentsFrom_next _ _ _ _ _ H1 H2).
    + destruct (bendTotal_segmentsFrom
                  (map (RenderingNotes.toPixels gridSize) stations) None)
        as [_ Hb].
      rewrite length_map in Hb. exact (Hb eq_refl).
Qed.

(** *** buildSVGPath on the segments of a line *)

Lemma segmentCommands_generated
  (from to : Station) (e t : Direction) (config : BendRenderConfig) :
  exists commands,
    segmentCommands (generateWaypoints from to e t) config = Some commands /\
    length commands
    = (1 + 3 * bendCount (generateWaypoints from to e t))%nat.
Proof.
  destruct (Direction_eq_dec e t) as [<-|Hne].
  - rewrite RouterFacts.generateWaypoints_straight.
    eexists. split; reflexivity.
  - rewrite (CornerFacts.segmentCommands_of_bend from to e t config Hne).
    rewrite RouterFacts.generateWaypoints_bend by exact Hne.
    eexists. split; reflexivity.
Qed.

Lemma pathPieces_segmentsFrom (config : BendRenderConfig) (stations : list Station) :
  forall previousAngle,
    exists commands,
      RenderingNotes.pathPieces (RenderingNotes.segmentsFrom previousAngle stations) config = Some commands /\
      length commands
      = (length (RenderingNotes.segmentsFrom previousAngle stations)
         + 3 * bendTotal (RenderingNotes.segmentsFrom previousAngle stations))%nat.
Proof.
  induction stations as [|a [|b rest] IH]; intros prev;
    try (now exists []).
  rewrite segmentsFrom_cons. cbn [RenderingNotes.pathPieces].
  rewrite KneeMoreFacts.notes_segment.
  destruct (IH (Some (exitAngle (calculateSegmentPath a b prev))))
    as (after & -> & Hafter).
  unfold bendTotal in *. cbn [map list_sum length].
  assert (Hw : waypoints (calculateSegmentPath a b prev)
               = generateWaypoints a b
                   match prev with Some p => p | None => calculateSnapAngle a b end
                   (calculateSnapAngle a b)) by reflexivity.
  rewrite !Hw.
  destruct (segmentCommands_generated a b
              match prev with Some p => p | None => calculateSnapAngle a b end
              (calculateSnapAngle a b) config) as (here & -> & Hhere).
  exists (here ++ after). split; [reflexivity|].
  rewrite length_app, Hhere, Hafter. unfold list_sum. cbn [fold_right]. lia.
Qed.

(** X16: [buildSVGPath] never meets a missing angle or waypoint on the
    segments [renderLine] computes: for a line of two stations or more it
    answers a path that starts with a move to the first station in pixels,
    followed by one command per segment and three more per bend; for fewer
    stations the path is empty. *)
Theorem buildSVGPath_of_line
  (gridSize : Z) (stations : list Station) (config : BendRenderConfig) :
  match stations with
  | first :: _ :: _ =>
      exists commands,
        RenderingNotes.buildSVGPath (RenderingNotes.lineSegments gridSize stations) config
        = Some (MoveTo (IZR (vertexX first * gridSize),
                        IZR (vertexY first * gridSize)) :: commands) /\
        length commands
        = (length stations - 1
           + 3 * bendTotal (RenderingNotes.lineSegments gridSize stations))%nat
  | _ => RenderingNotes.buildSVGPath (RenderingNotes.lineSegments gridSize stations) config = Some []
  end.
Proof.
  destruct stations as [|first [|second rest]]; try reflexivity.
  unfold RenderingNotes.lineSegments. cbn [length Nat.ltb Nat.leb map].
  destruct (pathPieces_segmentsFrom config
              (RenderingNotes.toPixels gridSize first :: RenderingNotes.toPixels gridSize second
               :: map (RenderingNotes.toPixels gridSize) rest) None) as (commands & Hc & Hl).
  exists commands. split.
  - unfold RenderingNotes.buildSVGPath. rewrite Hc.
    rewrite segmentsFrom_cons, KneeMoreFacts.notes_segment.
    rewrite RouterFacts.segment_without_entry. reflexivity.
  - rewrite Hl, segmentsFrom_length. cbn [length]. rewrite length_map. lia.
Qed.

(** X17: what [buildSVGPath] draws for a segment with a knee.  Both
    pieces are drawn around the knee: a line to the point [lineWidth * 2]
    times the entry vector before the knee and a curve, with its control
    points on that same straight line through the knee, to the point
    [lineWidth * 2] times the entry vector past the knee; then the same
    along the target direction.  The last point drawn is the knee moved by
    [lineWidth * 2] times the target vector. *)
Theorem segmentCommands_through_knee
  (from to : Station) (e t : Direction) (config : BendRenderConfig) :
  e <> t ->
  let knee := calculateOptimalBendPosition from to e t in
  let reach := lineWidth config * 2 in
  let inner := reach * (1 - tightness config) in
  segmentCommands (generateWaypoints from to e t) config
  = Some [LineTo (alongFrom knee e (- reach));
          CurveTo (alongFrom knee e (- inner)) (alongFrom knee e inner)
                  (alongFrom knee e reach);
          LineTo (alongFrom knee t (- reach));
          CurveTo (alongFrom knee t (- inner)) (alongFrom knee t inner)
                  (alongFrom knee t reach)].
Proof.
  intros Hne knee reach inner.
  rewrite (CornerFacts.segmentCommands_of_bend from to e t config Hne).
  cbv zeta. unfold createBendCurve.
  rewrite !CornerFacts.bendRadius_same_direction.
  unfold alongFrom. subst knee reach inner.
  cbn [start control1 control2 end_ x y fst snd].
  repeat match goal with
         | |- Some _ = Some _ => apply f_equal
         | |- _ :: _ = _ :: _ => apply f_equal2
         | |- LineTo _ = LineTo _ => apply f_equal
         | |- CurveTo _ _ _ = CurveTo _ _ _ => apply f_equal3
         | |- (_, _) = (_, _) => apply f_equal2
         | |- [] = [] => reflexivity
         end; ring.
Qed.

Lemma segmentCommands_through_knee_witness :
  segmentCommands (generateWaypoints (mkStation 0 0) (mkStation 3 2) EAST SOUTHEAST)
                  exampleConfig
  = Some [LineTo (alongFrom (calculateOptimalBendPosition (mkStation 0 0) (mkStation 3 2) EAST SOUTHEAST) EAST (- (lineWidth exampleConfig * 2)));
          CurveTo (alongFrom (calculateOptimalBendPosition (mkStation 0 0) (mkStation 3 2) EAST SOUTHEAST) EAST (- (lineWidth exampleConfig * 2 * (1 - tightness exampleConfig))))
                  (alongFrom (calculateOptimalBendPosition (mkStation 0 0) (mkStation 3 2) EAST SOUTHEAST) EAST (lineWidth exampleConfig * 2 * (1 - tightness exampleConfig)))
                  (alongFrom (calculateOptimalBendPosition (mkStation 0 0) (mkStation 3 2) EAST SOUTHEAST) EAST (lineWidth exampleConfig * 2));
          LineTo (alongFrom (calculateOptimalBendPosition (mkStation 0 0) (mkStation 3 2) EAST SOUTHEAST) SOUTHEAST (- (lineWidth exampleConfig * 2)));
          CurveTo (alongFrom (calculateOptimalBendPosition (mkStation 0 0) (mkStation 3 2) EAST SOUTHEAST) SOUTHEAST (- (lineWidth exampleConfig * 2 * (1 - tightness exampleConfig))))
                  (alongFrom (calculateOptimalBendPosition (mkStation 0 0) (mkStation 3 2) EAST SOUTHEAST) SOUTHEAST (lineWidth exampleConfig * 2 * (1 - tightness exampleConfig)))
                  (alongFrom (calculateOptimalBendPosition (mkStation 0 0) (mkStation 3 2) EAST SOUTHEAST) SOUTHEAST (lineWidth exampleConfig * 2))].
Proof.
  apply (segmentCommands_through_knee (mkStation 0 0) (mkStation 3 2)
           EAST SOUTHEAST exampleConfig).
  discriminate.
Defined.

(** X18: the control points of [createBendCurve] lie on the incoming and
    on the outgoing direction through the knee, at [radius * (1 -
    tightness)] times the direction vector from it; the ends of the curve
    are at the distance [radius] from the knee on an axis direction and at
    [radius * sqrt 2] on a diagonal, the vectors of the table not being of
    length one. *)
Theorem createBendCurve_geometry
  (waypoint : Waypoint) (incoming outgoing : Direction)
  (config : BendRenderConfig) :
  0 <= lineWidth config ->
  let curve := createBendCurve waypoint incoming outgoing config in
  let knee := (x waypoint, y waypoint) in
  let radius := bendRadius incoming outgoing config in
  let inner := radius * (1 - tightness config) in
  let stretch (d : Direction) :=
    sqrt (IZR (dx (DIRECTION_VECTORS d) * dx (DIRECTION_VECTORS d)
               + dy (DIRECTION_VECTORS d) * dy (DIRECTION_VECTORS d))) in
  control1 curve = alongFrom knee incoming (- inner) /\
  control2 curve = alongFrom knee outgoing inner /\
  hypot (fst (start curve) - fst knee) (snd (start curve) - snd knee)
  = radius * stretch incoming /\
  hypot (fst (end_ curve) - fst knee) (snd (end_ curve) - snd knee)
  = radius * stretch outgoing /\
  (forall d : Direction,
     stretch d = if (degrees d mod 90 =? 0)%Z then 1 else sqrt 2).
Proof.
  intros Hw curve knee radius inner stretch.
  assert (Hr : 0 <= radius).
  { subst radius. rewrite CornerFacts.bendRadius_formula.
    pose proof (Rabs_pos (angleOf outgoing - angleOf incoming)).
    apply Rmult_le_pos; [lra|].
    assert (0 <= Rabs (angleOf outgoing - angleOf incoming) / 90 * (1 / 2))
      by (apply Rmult_le_pos; lra). lra. }
  assert (Hd : forall (d : Direction) (p q : R),
             p = - radius * IZR (dx (DIRECTION_VECTORS d)) \/
             p = radius * IZR (dx (DIRECTION_VECTORS d)) ->
             q = - radius * IZR (dy (DIRECTION_VECTORS d)) \/
             q = radius * IZR (dy (DIRECTION_VECTORS d)) ->
             hypot p q = radius * stretch d).
  { intros d p q Hp Hq. unfold hypot. subst stretch. cbv beta.
    rewrite plus_IZR, !mult_IZR.
    rewrite <- (sqrt_square radius) at 1 by exact Hr.
    rewrite <- sqrt_mult;
      [|nra|apply BendFacts.sum_of_squares_nonneg].
    f_equal. destruct Hp as [-> | ->], Hq as [-> | ->]; ring. }
  subst curve knee. unfold createBendCurve, alongFrom.
  cbn [start control1 control2 end_ fst snd].
  fold radius. subst inner.
  split; [f_equal; ring|]. split; [f_equal; ring|].
  split; [apply Hd; [left|left]; ring|].
  split; [apply Hd; [right|right]; ring|].
  intros d. subst stretch. destruct d; cbn; try apply sqrt_1; reflexivity.
Qed.

Lemma createBendCurve_geometry_witness :
  control1 (createBendCurve (mkWaypoint 1 0 BEND (Some EAST) (Some SOUTHEAST))
                            EAST SOUTHEAST exampleConfig)
  = alongFrom (1, 0) EAST
      (- (bendRadius EAST SOUTHEAST exampleConfig * (1 - tightness exampleConfig))).
Proof.
  apply (createBendCurve_geometry (mkWaypoint 1 0 BEND (Some EAST) (Some SOUTHEAST))
           EAST SOUTHEAST exampleConfig).
  cbn. lra.
Defined.

(** *** The configuration *)

Lemma pieceCommands_cornerRadius
  (current next : Waypoint) (config : BendRenderConfig) (radius : R) :
  pieceCommands current next
                (mkConfig (lineWidth config) radius (tightness config))
  = pieceCommands current next config.
Proof. reflexivity. Qed.

Lemma segmentCommands_cornerRadius
  (waypoints : list Waypoint) (config : BendRenderConfig) (radius : R) :
  segmentCommands waypoints
                  (mkConfig (lineWidth config) radius (tightness config))
  = segmentCommands waypoints config.
Proof.
  induction waypoints as [|current [|next rest] IH]; try reflexivity.
  change (segmentCommands (current :: next :: rest) ?c)
    with (match pieceCommands current next c,
                segmentCommands (next :: rest) c with
          | Some here, Some after => Some (here ++ after)
          | _, _ => None
          end).
  now rewrite IH, pieceCommands_cornerRadius.
Qed.

(** X19: the field [cornerRadius] of the configuration is never read:
    [buildSVGPath] draws the same path whatever its value, for any list of
    segments, as do [createBendCurve] and the loop over the pieces. *)
Theorem buildSVGPath_ignores_cornerRadius
  (segments : list LineSegment) (config : BendRenderConfig) (radius : R) :
  RenderingNotes.buildSVGPath
    segments (mkConfig (lineWidth config) radius (tightness config))
  = RenderingNotes.buildSVGPath segments config.
Proof.
  assert (Hp : RenderingNotes.pathPieces
                 segments (mkConfig (lineWidth config) radius (tightness config))
               = RenderingNotes.pathPieces segments config).
  { induction segments as [|segment rest IH]; [reflexivity|].
    cbn [RenderingNotes.pathPieces].
    now rewrite IH, segmentCommands_cornerRadius. }
  unfold RenderingNotes.buildSVGPath. now rewrite Hp.
Qed.

(** *** createBendArc *)

(** X20: [createBendArc] fails, reading a vector the table does not
    have, exactly for a clockwise turn (normalised difference above 0)
    coming in NORTH or NORTHEAST and for any other turn coming in EAST or
    SOUTHEAST; when it answers, the centre lies on the perpendicular to the
    incoming direction through the knee, the start angle is the incoming
    value plus 180 without normalisation and the end angle the outgoing
    value. *)
Theorem createBendArc_outcome
  (waypoint : Waypoint) (incoming outgoing : Direction) (radius : R) :
  let turn := normalizeAngle (degrees outgoing - degrees incoming) in
  (RenderingNotes.createBendArc waypoint incoming outgoing radius = None <->
   (0 < turn /\ 270 <= degrees incoming)%Z \/
   (turn <= 0 /\ degrees incoming < 90)%Z) /\
  (forall arc,
     RenderingNotes.createBendArc waypoint incoming outgoing radius = Some arc ->
     (RenderingNotes.centerX arc - x waypoint) * IZR (dx (DIRECTION_VECTORS incoming))
     + (RenderingNotes.centerY arc - y waypoint) * IZR (dy (DIRECTION_VECTORS incoming)) = 0 /\
     RenderingNotes.startAngle arc = (degrees incoming + 180)%Z /\
     RenderingNotes.endAngle arc = degrees outgoing /\
     RenderingNotes.radius arc = radius).
Proof.
  intros turn. subst turn. split.
  - destruct incoming, outgoing; vm_compute; split;
      solve [ intros; discriminate
            | intros _; (left + right); split; congruence
            | intros [[H1 H2]|[H1 H2]]; first [now contradiction H1 | now contradiction H2 | discriminate | reflexivity ] ].
  - intros arc. unfold RenderingNotes.createBendArc.
    destruct incoming, outgoing; cbn; intros H; inversion H; cbn;
      repeat split; ring.
Qed.

(** *** handleCloseStations *)

(** X21: [handleCloseStations] always answers the two STATION waypoints
    at [from] and [to] and never a bend, whatever the distance and the
    threshold: below the threshold the waypoints record no direction,
    otherwise both record EAST, wherever [to] lies. *)
Theorem handleCloseStations_straight
  (from to : Station) (minDistance : R) :
  exists recorded : option Direction,
    RenderingNotes.handleCloseStations from to minDistance
    = [mkWaypoint (IZR (vertexX from)) (IZR (vertexY from)) STATION None recorded;
       mkWaypoint (IZR (vertexX to)) (IZR (vertexY to)) STATION recorded None] /\
    (recorded = None <-> directDistance from to < minDistance) /\
    (recorded = Some EAST <-> ~ directDistance from to < minDistance).
Proof.
  unfold RenderingNotes.handleCloseStations. fold (directDistance from to).
  destruct (Rlt_dec (directDistance from to) minDistance) as [Hc|Hc].
  - exists None. split; [reflexivity|]. split; split; intros; try discriminate;
      tauto.
  - exists (Some EAST). split.
    + unfold RenderingNotes.generateWaypoints.
      destruct (Direction_eq_dec EAST EAST); [reflexivity | congruence].
    + split; split; intros; try discriminate; tauto.
Qed.

(** *** optimizeBendPlacement *)

Lemma midpoint_distance (fx fy tx ty : R) :
  hypot ((fx + tx) / 2 - fx) ((fy + ty) / 2 - fy) = hypot (tx - fx) (ty - fy) / 2 /\
  hypot ((fx + tx) / 2 - tx) ((fy + ty) / 2 - ty) = hypot (tx - fx) (ty - fy) / 2.
Proof.
  unfold hypot.
  assert (Hh : forall p q, sqrt (p / 2 * (p / 2) + q / 2 * (q / 2))
                           = sqrt (p * p + q * q) / 2).
  { intros p q.
    replace (p / 2 * (p / 2) + q / 2 * (q / 2))
      with ((p * p + q * q) * (/ 2 * / 2)) by field.
    rewrite sqrt_mult; [|nra|lra]. rewrite sqrt_square by lra. reflexivity. }
  split.
  - rewrite <- Hh. f_equal. field.
  - rewrite <- Hh. f_equal. field.
Qed.

(** X22: the waypoint [optimizeBendPlacement] answers is never closer to
    either station than three tenths of their distance; it is the given
    bend or the midpoint of the stations, keeps the kind and the directions
    of the given bend, and is left as it is by a second call. *)
Theorem optimizeBendPlacement_keeps_clear
  (bend : Waypoint) (from to : Station) :
  let placed := RenderingNotes.optimizeBendPlacement bend from to in
  let fromStart (w : Waypoint) :=
    hypot (x w - IZR (vertexX from)) (y w - IZR (vertexY from)) in
  let fromEnd (w : Waypoint) :=
    hypot (x w - IZR (vertexX to)) (y w - IZR (vertexY to)) in
  directDistance from to * (3 / 10) <= fromStart placed /\
  directDistance from to * (3 / 10) <= fromEnd placed /\
  (placed = bend \/
   (x placed, y placed) = midpoint from to) /\
  type placed = type bend /\
  incomingAngle placed = incomingAngle bend /\
  outgoingAngle placed = outgoingAngle bend /\
  RenderingNotes.optimizeBendPlacement placed from to = placed.
Proof.
  intros placed fromStart fromEnd.
  assert (Hlen : 0 <= directDistance from to) by apply sqrt_pos.
  destruct (midpoint_distance (IZR (vertexX from)) (IZR (vertexY from))
              (IZR (vertexX to)) (IZR (vertexY to))) as [Hm1 Hm2].
  fold (directDistance from to) in Hm1, Hm2.
  assert (Hcases :
    (placed = bend /\
     ~ fromStart bend < directDistance from to * (3 / 10) /\
     ~ fromEnd bend < directDistance from to * (3 / 10)) \/
    placed = mkWaypoint ((IZR (vertexX from) + IZR (vertexX to)) / 2)
                        ((IZR (vertexY from) + IZR (vertexY to)) / 2)
                        (type bend) (incomingAngle bend) (outgoingAngle bend)).
  { subst placed fromStart fromEnd. unfold RenderingNotes.optimizeBendPlacement.
    fold (directDistance from to).
    destruct (Rlt_dec _ _) as [H1|H1]; [now right|].
    destruct (Rlt_dec _ _) as [H2|H2]; [now right|].
    left. auto. }
  assert (Hfix : forall w,
            ~ fromStart w < directDistance from to * (3 / 10) ->
            ~ fromEnd w < directDistance from to * (3 / 10) ->
            RenderingNotes.optimizeBendPlacement w from to = w).
  { intros w H1 H2. subst fromStart fromEnd. unfold RenderingNotes.optimizeBendPlacement.
    fold (directDistance from to). cbv beta in H1, H2.
    destruct (Rlt_dec _ _); [contradiction|].
    destruct (Rlt_dec _ _); [contradiction|]. reflexivity. }
  destruct Hcases as [(Hp & H1 & H2)|Hp]; rewrite Hp.
  - repeat split; try lra; try (now left). now apply Hfix.
  - subst fromStart fromEnd. cbn [x y type incomingAngle outgoingAngle].
    rewrite Hm1, Hm2.
    repeat split; try lra; try (now right).
    apply Hfix; cbn [x y]; rewrite ?Hm1, ?Hm2; lra.
Qed.

(** *** The two normalisations *)

Lemma normalizeAngle_integer_difference (angle : Z) :
  IZR (normalizeAngle angle) = angleDifference (IZR angle) 0.
Proof.
  destruct (angleDifference_turns (IZR angle) 0) as [k Hk].
  rewrite Rminus_0_r in Hk.
  assert (Hrange :
    (180 < angle -> -180 < normalizeAngle angle <= 180)%Z /\
    (angle < -180 -> -180 <= normalizeAngle angle < 180)%Z /\
    (-180 <= angle <= 180 -> normalizeAngle angle = angle)%Z /\
    exists q : Z, (normalizeAngle angle = angle + 360 * q)%Z).
  { unfold normalizeAngle.
    pose proof (Z.rem_bound_pos angle 360) as Hpos.
    pose proof (Z.rem_bound_pos (- angle) 360) as Hneg.
    rewrite Z.rem_opp_l in Hneg by lia.
    pose proof (Z.quot_rem' angle 360) as Hqr.
    set (r := Z.rem angle 360) in *. cbv zeta.
    repeat match goal with
           | |- context [Z.ltb ?a ?b] => destruct (Z.ltb_spec a b)
           end;
      repeat split; try lia;
      first [ exists (- (angle ÷ 360) - 1)%Z; lia
            | exists (- (angle ÷ 360) + 1)%Z; lia
            | exists (- (angle ÷ 360))%Z; lia ]. }
  destruct Hrange as (Habove & Hbelow & Hplain & q & Hq).
  destruct (Z_lt_le_dec 180 angle) as [Hgt|Hle].
  - pose proof (angleDifference_from_above (IZR angle) 0) as Hr.
    rewrite Rminus_0_r in Hr. specialize (Hr (IZR_lt _ _ Hgt)).
    specialize (Habove Hgt). rewrite Hk in *.
    rewrite <- mult_IZR, <- plus_IZR in *. f_equal.
    destruct Hr as [Hl Hu]. apply lt_IZR in Hl. apply le_IZR in Hu. lia.
  - destruct (Z_lt_le_dec angle (-180)) as [Hlt|Hge].
    + pose proof (angleDifference_from_below (IZR angle) 0) as Hr.
      rewrite Rminus_0_r in Hr. specialize (Hr (IZR_lt _ _ Hlt)).
      specialize (Hbelow Hlt). rewrite Hk in *.
      rewrite <- mult_IZR, <- plus_IZR in *. f_equal.
      destruct Hr as [Hl Hu]. apply le_IZR in Hl. apply lt_IZR in Hu. lia.
    + rewrite Hplain by lia. rewrite angleDifference_plain.
      * lra.
      * rewrite Rminus_0_r. split; apply IZR_le; lia.
Qed.

End RenderingFacts.

(** ** Several bends *)

Module MultipleBendFacts.

Import JsMath JsNumber LinePath Notions MoreNotions AngleFacts AngleMoreFacts.
Import RenderingFacts MultipleBends.

Lemma normalizeAngle_is_angleDifference_real (a : R) :
  normalizeAngle a = angleDifference a 0.
Proof.
  destruct (angleDifference_turns a 0) as [k Hk]. rewrite Rminus_0_r in Hk.
  destruct (remainder_turns a) as [q Hq].
  unfold normalizeAngle. cbv zeta.
  destruct (Rlt_dec 180 a) as [Hgt|Hle].
  - pose proof (angleDifference_from_above a 0) as Hr.
    rewrite Rminus_0_r in Hr. specialize (Hr Hgt).
    pose proof (remainder_nonneg a ltac:(lra)) as Hb.
    rewrite Hk, Hq in *.
    assert (Hint : forall m : Z, -360 < 360 * IZR m < 360 -> m = 0%Z).
    { intros m [H1 H2]. assert (H3 : -1 < IZR m < 1) by lra.
      destruct H3 as [H3 H4]. apply lt_IZR in H3, H4. lia. }
    destruct (Rlt_dec 180 (a + 360 * IZR q)).
    + destruct (Rlt_dec _ _); [lra|].
      assert (Hz : (q - 1 - k)%Z = 0%Z)
        by (apply Hint; rewrite !minus_IZR; lra).
      assert (IZR q = IZR k + 1) by (rewrite <- plus_IZR; f_equal; lia). lra.
    + destruct (Rlt_dec _ _); [lra|].
      assert (Hz : (q - k)%Z = 0%Z)
        by (apply Hint; rewrite !minus_IZR; lra).
      assert (IZR q = IZR k) by (f_equal; lia). lra.
  - destruct (Rlt_dec a (-180)) as [Hlt|Hge].
    + pose proof (angleDifference_from_below a 0) as Hr.
      rewrite Rminus_0_r in Hr. specialize (Hr Hlt).
      pose proof (remainder_neg a ltac:(lra)) as Hb.
      rewrite Hk, Hq in *.
      assert (Hint : forall m : Z, -360 < 360 * IZR m < 360 -> m = 0%Z).
      { intros m [H1 H2]. assert (H3 : -1 < IZR m < 1) by lra.
        destruct H3 as [H3 H4]. apply lt_IZR in H3, H4. lia. }
      destruct (Rlt_dec 180 (a + 360 * IZR q)); [lra|].
      destruct (Rlt_dec _ _).
      * assert (Hz : (q + 1 - k)%Z = 0%Z)
          by (apply Hint; rewrite !minus_IZR, plus_IZR; lra).
        assert (IZR k = IZR q + 1) by (rewrite <- plus_IZR; f_equal; lia). lra.
      * assert (Hz : (q - k)%Z = 0%Z)
          by (apply Hint; rewrite !minus_IZR; lra).
        assert (IZR q = IZR k) by (f_equal; lia). lra.
    + rewrite angleDifference_plain by lra.
      assert (Hrem : remainder a 360 = a).
      { assert (Hint : forall m : Z, -360 < 360 * IZR m < 360 -> m = 0%Z).
        { intros m [H1 H2]. assert (H3 : -1 < IZR m < 1) by lra.
          destruct H3 as [H3 H4]. apply lt_IZR in H3, H4. lia. }
        destruct (Rle_dec 0 a).
        - pose proof (remainder_nonneg a ltac:(lra)) as Hb. rewrite Hq in *.
          assert (q = 0%Z) by (apply Hint; lra). subst q. lra.
        - pose proof (remainder_neg a ltac:(lra)) as Hb. rewrite Hq in *.
          assert (q = 0%Z) by (apply Hint; lra). subst q. lra. }
      rewrite Hrem.
      destruct (Rlt_dec 180 a); [lra|]. destruct (Rlt_dec a (-180)); lra.
Qed.


Lemma angleDifference_to_zero (a b : R) :
  angleDifference (a - b) 0 = angleDifference a b.
Proof. unfold angleDifference. now rewrite Rminus_0_r. Qed.

(** X23: [normalizeAngle] of the rendering notes and [angleDifference]
    of LinePath.ts are the same normalisation: on every number, on every
    whole number as [createBendArc] and [calculateBendPoints] apply it, and
    so on the difference of two direction values, also at the ends -180
    and 180. *)
Theorem notes_normalizeAngle_is_angleDifference :
  (forall angle : R, normalizeAngle angle = angleDifference angle 0) /\
  (forall angle : Z,
     IZR (CornerRounding.normalizeAngle angle) = angleDifference (IZR angle) 0) /\
  (forall outgoing incoming : Direction,
     IZR (CornerRounding.normalizeAngle (degrees outgoing - degrees incoming))
     = angleDifference (angleOf outgoing) (angleOf incoming)).
Proof.
  split; [exact normalizeAngle_is_angleDifference_real|]. split.
  - exact normalizeAngle_integer_difference.
  - intros outgoing incoming.
    rewrite normalizeAngle_integer_difference, minus_IZR.
    apply angleDifference_to_zero.
Qed.

Lemma vectorAt_direction (d : Direction) :
  vectorAt (angleOf d) = Some (DIRECTION_VECTORS d).
Proof.
  unfold vectorAt, angleOf.
  destruct d; simpl;
    repeat match goal with
           | |- context [Req_dec_T ?a ?b] =>
               let He := fresh "He" in
               destruct (Req_dec_T a b) as [He|He];
               [first [reflexivity | exfalso; lra]
               |try (exfalso; apply He; reflexivity)]
           end.
Qed.

Lemma vectorAt_missing (angle : R) :
  (forall d : Direction, angle <> angleOf d) -> vectorAt angle = None.
Proof.
  intros Hd. unfold vectorAt.
  pose proof (Hd EAST). pose proof (Hd SOUTHEAST). pose proof (Hd SOUTH).
  pose proof (Hd SOUTHWEST). pose proof (Hd WEST). pose proof (Hd NORTHWEST).
  pose proof (Hd NORTH). pose proof (Hd NORTHEAST).
  unfold angleOf in *. simpl in *.
  repeat (destruct (Req_dec_T _ _); [contradiction|]). reflexivity.
Qed.

Lemma bendCount_values (v : R) :
  (v = 0 -> Zceil (Rabs v / 90) = 0%Z) /\
  (0 < Rabs v <= 90 -> Zceil (Rabs v / 90) = 1%Z) /\
  (90 < Rabs v <= 180 -> Zceil (Rabs v / 90) = 2%Z).
Proof.
  repeat split.
  - intros ->. rewrite Rabs_R0. apply Zceil_eq. lra.
  - intros H. apply Zceil_eq. lra.
  - intros H. apply Zceil_eq. lra.
Qed.

(** No direction value lies an odd number of 22.5 degrees away from
    another, whatever whole turns are added. *)
Lemma off_grid_angle (e d : Direction) (k : Z) (s : R) :
  s = 135 / 2 \/ s = - (135 / 2) ->
  angleOf e + s + 360 * IZR k <> angleOf d.
Proof.
  intros Hs Heq. unfold angleOf in Heq.
  assert (H2 : IZR (2 * degrees e + 720 * k - 2 * degrees d) = 135
               \/ IZR (2 * degrees e + 720 * k - 2 * degrees d) = -135).
  { rewrite !minus_IZR, !plus_IZR, !mult_IZR. destruct Hs; [right|left]; lra. }
  destruct H2 as [H2|H2]; apply eq_IZR in H2; lia.
Qed.

Ltac decide_keys :=
  repeat match goal with
         | |- context [Req_dec_T ?a ?b] =>
             let He := fresh "He" in
             destruct (Req_dec_T a b) as [He|He];
             [try (exfalso; lra) | try (exfalso; apply He; lra)]
         end.

Ltac direction_difference :=
  unfold angleOf, degrees;
  first [ rewrite angleDifference_plain by lra
        | rewrite angleDifference_wrap_up by lra
        | rewrite angleDifference_wrap_down by lra ].

Lemma total_is_turn (e t : Direction) :
  normalizeAngle (angleOf t - angleOf e)
  = angleDifference (angleOf t) (angleOf e).
Proof.
  now rewrite normalizeAngle_is_angleDifference_real, angleDifference_to_zero.
Qed.

Lemma multiple_none (from to : Station) (e : Direction) :
  calculateMultipleBendPoints from to e e = Some [].
Proof.
  unfold calculateMultipleBendPoints. rewrite total_is_turn.
  rewrite angleDifference_plain by lra.
  replace (angleOf e - angleOf e) with 0 by ring.
  rewrite (proj1 (bendCount_values 0) eq_refl). reflexivity.
Qed.

Lemma multiple_single (from to : Station) (e t : Direction) :
  0 < Rabs (angleDifference (angleOf t) (angleOf e)) <= 90 ->
  calculateMultipleBendPoints from to e t
  = Some (map ofWaypoint (RenderingNotes.calculateBendPoints from to e t)).
Proof.
  intros H. unfold calculateMultipleBendPoints. rewrite total_is_turn.
  rewrite (proj1 (proj2 (bendCount_values _)) H). reflexivity.
Qed.

Lemma multiple_eighth_missing (from to : Station) (e t : Direction) :
  Rabs (angleDifference (angleOf t) (angleOf e)) = 135 ->
  calculateMultipleBendPoints from to e t = None.
Proof.
  intros H. unfold calculateMultipleBendPoints. rewrite total_is_turn.
  rewrite (proj2 (proj2 (bendCount_values _))) by lra.
  change (Z.to_nat 2) with 2%nat. cbn [Z.eqb Pos.eqb bendLoop].
  rewrite vectorAt_direction.
  rewrite normalizeAngle_is_angleDifference_real.
  destruct (angleDifference_turns
              (angleOf e + angleDifference (angleOf t) (angleOf e) / 2) 0)
    as [k Hk].
  rewrite Rminus_0_r in Hk. rewrite Hk.
  rewrite vectorAt_missing; [reflexivity|].
  intros d. apply off_grid_angle.
  unfold Rabs in H. destruct (Rcase_abs _); [right|left]; lra.
Qed.

Lemma multiple_half_turn (from to : Station) (e t : Direction) :
  Rabs (angleDifference (angleOf t) (angleOf e)) = 180 ->
  let step := angleDifference (angleOf t) (angleOf e) / 2 in
  let length := directDistance from to / 3 in
  let middle := normalizeAngle (angleOf e + step) in
  let x1 := IZR (vertexX from) + length * IZR (dx (DIRECTION_VECTORS e)) in
  let y1 := IZR (vertexY from) + length * IZR (dy (DIRECTION_VECTORS e)) in
  calculateMultipleBendPoints from to e t
  = match vectorAt middle with
    | None => None
    | Some dir =>
        Some [mkWaypoint x1 y1 BEND (Some (angleOf e)) (Some middle);
              mkWaypoint (x1 + length * IZR (dx dir)) (y1 + length * IZR (dy dir))
                         BEND (Some middle)
                         (Some (normalizeAngle (middle + step)))]
    end.
Proof.
  intros H. unfold calculateMultipleBendPoints. rewrite total_is_turn.
  rewrite (proj2 (proj2 (bendCount_values _))) by lra.
  change (Z.to_nat 2) with 2%nat. cbn [Z.eqb Pos.eqb bendLoop Z.add Pos.add].
  rewrite vectorAt_direction. cbn [fst snd].
  fold (directDistance from to).
  destruct (vectorAt _); reflexivity.
Qed.

Ltac abs_value := unfold Rabs; destruct (Rcase_abs _); lra.

Ltac turn_value e t H :=
  let v := fresh "v" in
  evar (v : R);
  assert (H : angleDifference (angleOf t) (angleOf e) = v)
    by (subst v; direction_difference; reflexivity);
  subst v.

(** X24: [calculateMultipleBendPoints] on two directions.  It fails,
    reading a vector the table does not have, exactly when the turn is of
    135 degrees either way, or from SOUTHWEST to NORTHEAST or back; for
    equal directions it answers no bend, for a turn of 45 or 90 degrees the
    one bend of [calculateBendPoints], and for the other half turns two
    bends, the first entered in the entry direction and the second left at
    the target angle normalised into -180 to 180. *)
Theorem calculateMultipleBendPoints_outcome
  (from to : Station) (e t : Direction) :
  let turn := angleDifference (angleOf t) (angleOf e) in
  (calculateMultipleBendPoints from to e t = None <->
   Rabs turn = 135 \/
   (e = SOUTHWEST /\ t = NORTHEAST) \/ (e = NORTHEAST /\ t = SOUTHWEST)) /\
  (forall bends,
     calculateMultipleBendPoints from to e t = Some bends ->
     (e = t /\ bends = []) \/
     (0 < Rabs turn <= 90 /\
      bends = map ofWaypoint (RenderingNotes.calculateBendPoints from to e t)) \/
     (Rabs turn = 180 /\
      exists first second,
        bends = [first; second] /\
        incomingAngle first = Some (angleOf e) /\
        outgoingAngle first = incomingAngle second /\
        outgoingAngle second = Some (normalizeAngle (angleOf t)))).
Proof.
  intros turn. subst turn.
  destruct e, t.
  all: match goal with
       | |- context [calculateMultipleBendPoints _ _ ?e ?t] =>
           turn_value e t ltac:(fresh "Hturn")
       end.
  all: first [ rewrite multiple_none
             | rewrite multiple_single by (rewrite Hturn; abs_value)
             | rewrite multiple_eighth_missing by (rewrite Hturn; abs_value)
             | rewrite multiple_half_turn by (rewrite Hturn; abs_value) ].
  all: rewrite ?Hturn; clear Hturn.
  all: rewrite ?normalizeAngle_is_angleDifference_real.
  all: repeat direction_difference.
  all: try (unfold vectorAt; decide_keys).
  all: split;
    [ split;
      [ first [ discriminate | intros _; left; abs_value | intros _; right; auto ]
      | first [ reflexivity
              | intros [H|[[H1 H2]|[H1 H2]]];
                first [ discriminate | exfalso; revert H; abs_value ] ] ]
    | intros bends Hb; first [ discriminate | inversion Hb; clear Hb ] ].
  all: try (left; split; reflexivity).
  all: try (right; left; split; [abs_value | reflexivity]).
  all: try (right; right; split; [abs_value|];
            do 2 eexists; split; [reflexivity|]; cbn;
            rewrite ?normalizeAngle_is_angleDifference_real;
            repeat direction_difference;
            repeat split; f_equal; lra).
Qed.

End MultipleBendFacts.
